(** * Vortex statistics aggregation: a shallow embedding of
    [VortexStatistics::process] (morsesmalecomplex.cpp, second document)

    The processor reads a time series of mask volumes, a time series of
    scalar volumes, one surface scalar volume and a vortex hierarchy, and
    fills two data frames: [perEnsembleData] (one row per group) and
    [perVortexData] (one row per group and time step).

    The file also embeds the handlers that keep the lists of names of the
    processor, the picking and the index buffer of
    [MorseSmaleComplexToMesh], and two member functions of [TensorField].

    Conventions of the embedding:
    - [int] and [size_t] values are integers in [Z]; conversions between
      them are written with [to_int] and [to_size_t].
    - [float] / [double] values are an abstract type [F] with the operations
      the source uses ([FloatOps]); [binary64] is the instance the examples
      run on.  The embedding does not distinguish [float] from [double].
    - [std::vector] columns are lists.  [v.at(i)] is a checked access that
      throws [std::out_of_range]; [v[i]] and pointer dereferences are
      unchecked, and their undefined behaviour is a fault of its own.
    - [ivwAssert] expands to nothing unless assertions are compiled in; the
      asserted conditions are kept as boolean definitions. *)

From Stdlib Require Import ZArith List Bool String Lia PrimFloat Uint63.
From stdpp Require Import base tactics option list list_numbers functions strings pretty.

Local Open Scope Z_scope.

(** ** Machine integers *)

Definition to_size_t (z : Z) : Z := z mod 2 ^ 64.

Definition to_int (z : Z) : Z := (z + 2 ^ 31) mod 2 ^ 32 - 2 ^ 31.

(** ** Floating point interface *)

Class FloatOps (F : Type) := {
  f0 : F;
  fnan : F;
  fadd : F -> F -> F;
  fsub : F -> F -> F;
  fmul : F -> F -> F;
  fdiv : F -> F -> F;
  fsqrt : F -> F;
  fabs : F -> F;
  fofZ : Z -> F;
  feqb : F -> F -> bool;
  fltb : F -> F -> bool;
  fisfinite : F -> bool;
  fisnan : F -> bool
}.

(** The two facts about [std::isfinite] and [NAN] that the aspect ratio
    property rests on. *)
Class FloatLaws (F : Type) `{FloatOps F} : Prop := {
  fisnan_fnan : fisnan fnan = true;
  fisfinite_not_nan : forall x : F, fisfinite x = true -> fisnan x = false
}.

Definition float_of_Z (z : Z) : float :=
  match z with
  | Z0 => PrimFloat.zero
  | Zpos _ => PrimFloat.of_uint63 (Uint63.of_Z z)
  | Zneg p => PrimFloat.opp (PrimFloat.of_uint63 (Uint63.of_Z (Zpos p)))
  end.

#[export] Instance binary64_ops : FloatOps float := {|
  f0 := PrimFloat.zero;
  fnan := PrimFloat.nan;
  fadd := PrimFloat.add;
  fsub := PrimFloat.sub;
  fmul := PrimFloat.mul;
  fdiv := PrimFloat.div;
  fsqrt := PrimFloat.sqrt;
  fabs := PrimFloat.abs;
  fofZ := float_of_Z;
  feqb := PrimFloat.eqb;
  fltb := PrimFloat.ltb;
  fisfinite := PrimFloat.is_finite;
  fisnan := PrimFloat.is_nan
|}.

#[export] Instance binary64_laws : FloatLaws float.
Proof.
  split.
  - reflexivity.
  - intros x. cbn. unfold PrimFloat.is_finite.
    destruct (PrimFloat.is_nan x); cbn; [discriminate | reflexivity].
Qed.

(** ** Values the generic lambdas are instantiated at

    [assignMin], [assignMax] and [assignExtremum] take [auto] parameters;
    the source calls them on [int] and on [float] columns. *)

Class Num (T : Type) := {
  num_is0 : T -> bool;
  num_ltb : T -> T -> bool;
  num_abs : T -> T
}.

#[export] Instance int_num : Num Z := {|
  num_is0 := fun x => x =? 0;
  num_ltb := Z.ltb;
  num_abs := Z.abs
|}.

#[export] Instance float_num {F} `{FloatOps F} : Num F := {|
  num_is0 := fun x => feqb x f0;
  num_ltb := fltb;
  num_abs := fabs
|}.

(** [std::min(a, b)] is [(b < a) ? b : a]; [std::max(a, b)] is
    [(a < b) ? b : a]. *)
Definition std_min {T} `{Num T} (a b : T) : T := if num_ltb b a then b else a.

Definition std_max {T} `{Num T} (a b : T) : T := if num_ltb a b then b else a.

Definition assignMin {T} `{Num T} (vecVal val : T) : T :=
  let vecVal := if num_is0 vecVal then val else vecVal in
  std_min vecVal val.

Definition assignMax {T} `{Num T} (vecVal val : T) : T :=
  let vecVal := if num_is0 vecVal then val else vecVal in
  std_max vecVal val.

Definition assignExtremum {T} `{Num T} (vecVal val : T) : T :=
  if num_is0 vecVal then val
  else if num_ltb (num_abs vecVal) (num_abs val) then val
  else vecVal.

(** ** Faults and the result monad *)

Inductive fault :=
  | OutOfRange    (* std::out_of_range thrown by vector::at *)
  | BadSubscript  (* operator[] or raw pointer read past the end *)
  | NullColumn.   (* dereference of a null column pointer *)

Inductive result (A : Type) :=
  | Ok (a : A)
  | Throw (e : fault).

Arguments Ok {A} a.
Arguments Throw {A} e.

#[export] Instance result_ret : MRet result := fun A a => Ok a.

#[export] Instance result_bind : MBind result := fun A B f m =>
  match m with
  | Ok a => f a
  | Throw e => Throw e
  end.

(** Statements are state transformers that may fault; [c1 ;;; c2] runs [c1]
    and then [c2]. *)
Definition seq_stmt {S} (c1 c2 : S -> result S) : S -> result S :=
  fun s => s' ← c1 s; c2 s'.

Notation "c1 ;;; c2" := (seq_stmt c1 c2) (at level 62, right associativity).

Definition skip {S} : S -> result S := fun s => Ok s.

Fixpoint forEach {A S} (xs : list A) (body : A -> S -> result S) (s : S) : result S :=
  match xs with
  | [] => Ok s
  | x :: xs' => s' ← body x s; forEach xs' body s'
  end.

(** ** Data model *)

Definition size3 : Type := Z * Z * Z.

Definition dimX (d : size3) : Z := fst (fst d).
Definition dimY (d : size3) : Z := snd (fst d).
Definition dimZ (d : size3) : Z := snd d.

(** Modelled from the spec: [VolumeRAM::posToIndex] and [util::forEachVoxel]
    belong to the host framework, whose sources this repository does not
    hold.  Voxels are laid out with x running fastest, and every voxel of
    the volume is visited once. *)
Definition posToIndex (pos dim : size3) : Z :=
  dimX pos + dimY pos * dimX dim + dimZ pos * dimX dim * dimY dim.

Definition forEachVoxel (dims : size3) : list size3 :=
  z ← seqZ 0 (dimZ dims); y ← seqZ 0 (dimY dims); x ← seqZ 0 (dimX dims); [(x, y, z)].

(** Column headers.  [CenterX] and [CenterY] are the two columns the source
    creates under the same header text; [Surface s] .. [SMax s] are the four
    columns of the [s]-th scalar name, [TExtreme s] .. [TMax s] the three
    columns of the [s]-th top scalar name. *)
Inductive IntName :=
  | Ensemble | VortexID | Time | NumVoxels | NumTopVoxels | MaxDepth
  | LifeTime | StartTime | Rotation.

Inductive FloatName :=
  | AspectRatio | AvgRadius | CenterX | CenterY
  | StartX | StartY | EndX | EndY | Travel
  | Surface (s : nat) | Average (s : nat) | SMin (s : nat) | SMax (s : nat)
  | TExtreme (s : nat) | TMin (s : nat) | TMax (s : nat).

#[export] Instance IntName_eq_dec : EqDecision IntName.
Proof. solve_decision. Defined.

#[export] Instance FloatName_eq_dec : EqDecision FloatName.
Proof. solve_decision. Defined.

(** The two members of a [ColumnPair]: [PerGroup] points into
    [perEnsembleData], [PerGroupPerTime] into [perVortexData]. *)
Inductive Frame := PerGroup | PerGroupPerTime.

Inductive Turning := Clockwise | CounterClockwise.

Inductive LogEntry :=
  | WarnDimensions (volumeDims : size3) (numTimeSteps : Z)
                   (scalarDims : size3) (numScalarVolumes : Z) (topScalarDims : size3)
  | WarnNotOnSeedDepth.

(** [access] tells the checked [at] from the unchecked [operator[]]. *)
Inductive access := At | Subscript.

Definition miss (a : access) : fault :=
  match a with At => OutOfRange | Subscript => BadSubscript end.

Section VortexStatistics.

Context {F : Type} `{FloatOps F}.

(** [AssembleWindingAngle::SEED_DEPTH] is declared in a header this
    repository does not hold; it is a parameter of the development. *)
Variable SEED_DEPTH : Z.

(** Modelled from the spec: the volume, vortex and data frame classes are
    declared in headers this repository does not hold.  A mask
    volume carries its dimensions, the upper end of its data range and its
    voxels; a scalar volume its dimensions, component count and the
    [getAsDVec4] sampler; the vortex set its groups, each a range of vortex
    records, and the parent group of a record given by its position in the
    whole set. *)
Record MaskVolume := {
  maskDimensions : size3;
  dataRangeY : Z;
  maskData : list Z
}.

Record ScalarVolume := {
  getDimensions : size3;
  getComponents : nat;
  getAsDVec4 : size3 -> list F
}.

Record Vortex := {
  heightSlice : Z;
  center : F * F;
  minRadius : F;
  maxRadius : F;
  avgRadius : F;
  rotation : Turning
}.

Record VortexSet := {
  groups : list (list Vortex);
  getParentGroup : Z -> Z
}.

Record DataFrame := {
  icol : IntName -> list Z;
  fcol : FloatName -> list F
}.

Definition emptyFrame : DataFrame := {| icol := fun _ => []; fcol := fun _ => [] |}.

(** The state of one run: the two frames under construction, the
    [prevCenters] vector and the warnings logged so far. *)
Record Run := {
  perEnsembleData : DataFrame;
  perVortexData : DataFrame;
  prevCenters : list (F * F);
  warnings : list LogEntry
}.

Definition frame (fr : Frame) (r : Run) : DataFrame :=
  match fr with
  | PerGroup => perEnsembleData r
  | PerGroupPerTime => perVortexData r
  end.

Definition with_frame (fr : Frame) (d : DataFrame) (r : Run) : Run :=
  match fr with
  | PerGroup =>
      {| perEnsembleData := d; perVortexData := perVortexData r;
         prevCenters := prevCenters r; warnings := warnings r |}
  | PerGroupPerTime =>
      {| perEnsembleData := perEnsembleData r; perVortexData := d;
         prevCenters := prevCenters r; warnings := warnings r |}
  end.

Definition intColumn (fr : Frame) (c : IntName) (r : Run) : list Z :=
  icol (frame fr r) c.

Definition floatColumn (fr : Frame) (c : FloatName) (r : Run) : list F :=
  fcol (frame fr r) c.

Definition setIntColumn (fr : Frame) (c : IntName) (l : list Z) (r : Run) : Run :=
  with_frame fr {| icol := <[c := l]> (icol (frame fr r)); fcol := fcol (frame fr r) |} r.

Definition setFloatColumn (fr : Frame) (c : FloatName) (l : list F) (r : Run) : Run :=
  with_frame fr {| icol := icol (frame fr r); fcol := <[c := l]> (fcol (frame fr r)) |} r.

Definition logWarn (e : LogEntry) (r : Run) : Run :=
  {| perEnsembleData := perEnsembleData r; perVortexData := perVortexData r;
     prevCenters := prevCenters r; warnings := warnings r ++ [e] |}.

(** Element access. *)
Definition readI (a : access) (fr : Frame) (c : IntName) (i : Z) (r : Run) : result Z :=
  match intColumn fr c r !! Z.to_nat i with
  | Some v => Ok v
  | None => Throw (miss a)
  end.

Definition writeI (a : access) (fr : Frame) (c : IntName) (i : Z) (v : Z) : Run -> result Run :=
  fun r =>
    if decide (Z.to_nat i < length (intColumn fr c r))%nat
    then Ok (setIntColumn fr c (<[Z.to_nat i := v]> (intColumn fr c r)) r)
    else Throw (miss a).

Definition modifyI (a : access) (fr : Frame) (c : IntName) (i : Z) (f : Z -> Z) : Run -> result Run :=
  fun r => v ← readI a fr c i r; writeI a fr c i (f v) r.

Definition readF (a : access) (fr : Frame) (c : FloatName) (i : Z) (r : Run) : result F :=
  match floatColumn fr c r !! Z.to_nat i with
  | Some v => Ok v
  | None => Throw (miss a)
  end.

Definition writeF (a : access) (fr : Frame) (c : FloatName) (i : Z) (v : F) : Run -> result Run :=
  fun r =>
    if decide (Z.to_nat i < length (floatColumn fr c r))%nat
    then Ok (setFloatColumn fr c (<[Z.to_nat i := v]> (floatColumn fr c r)) r)
    else Throw (miss a).

Definition modifyF (a : access) (fr : Frame) (c : FloatName) (i : Z) (f : F -> F) : Run -> result Run :=
  fun r => v ← readF a fr c i r; writeF a fr c i (f v) r.

(** ** Locals of [process]

    The values [process] fixes before its loops (lines 254-264 and 346-350),
    and the sizes of the two vectors of column handles. *)
Record Locals := {
  vortices : VortexSet;
  numGroups : Z;
  numTimeSteps : Z;
  volumeDims : size3;
  topScalarVol : ScalarVolume;
  numScalars : nat;
  numTopScalars : nat;
  colScalars : nat;
  colTopScalars : nat
}.

Section Loops.

Variable L : Locals.

(** [colScalars[s]]: the handles of the [s]-th scalar name.  They were bound
    by reference when the columns were made, so they point at the columns
    [Surface s], [Average s], [SMin s] and [SMax s] of both frames. *)
Definition colScalarsAt (s : nat) : Run -> result Run :=
  fun r => if decide (s < colScalars L)%nat then Ok r else Throw BadSubscript.

(** [colTopScalars[s].X.PerGroup->at(..)]: the element of [colTopScalars] was
    copied before its members were assigned (line 337), so the vector keeps
    value-initialised, that is null, column pointers; any access through
    them is a fault. *)
Definition colTopScalarsAt (s : nat) : Run -> result Run :=
  fun _ => Throw (if decide (s < colTopScalars L)%nat then NullColumn else BadSubscript).

Definition incr (v : Z) : Z := to_int (v + 1).

(** [dst += src] on [int] and on [float] columns; the right-hand side is
    read before the left-hand side is updated. *)
Definition addI (dfr : Frame) (dc : IntName) (di : Z) (sfr : Frame) (sc : IntName) (si : Z)
  : Run -> result Run :=
  fun r => v ← readI At sfr sc si r; modifyI At dfr dc di (fun x => to_int (x + v)) r.

Definition addF (dfr : Frame) (dc : FloatName) (di : Z) (sfr : Frame) (sc : FloatName) (si : Z)
  : Run -> result Run :=
  fun r => v ← readF At sfr sc si r; modifyF At dfr dc di (fun x => fadd x v) r.

(** [assign(dst, src)] for one of the three lambdas, both operands columns. *)
Definition assignF (op : F -> F -> F) (dfr : Frame) (dc : FloatName) (di : Z)
    (sfr : Frame) (sc : FloatName) (si : Z) : Run -> result Run :=
  fun r => v ← readF At sfr sc si r; modifyF At dfr dc di (fun x => op x v) r.

(** [col.at(i) /= count], a [float] divided by an [int] read from the
    column [cnt] of the same frame with access [a]. *)
Definition divideBy (fr : Frame) (c : FloatName) (i : Z) (a : access) (cnt : IntName) (j : Z)
  : Run -> result Run :=
  fun r => n ← readI a fr cnt j r; modifyF At fr c i (fun v => fdiv v (fofZ n)) r.

(** ** The callback per voxel (lines 390-448) *)

Definition scalarLoop (group idxGroupTime : Z) (scalarSample : list F) (s : nat)
  : Run -> result Run :=
  let x := nth s scalarSample f0 in
  colScalarsAt s ;;;
  modifyF At PerGroup (Average s) group (fun v => fadd v x) ;;;
  modifyF At PerGroupPerTime (Average s) idxGroupTime (fun v => fadd v x) ;;;
  modifyF At PerGroup (SMin s) group (fun v => assignMin v x) ;;;
  modifyF At PerGroupPerTime (SMin s) idxGroupTime (fun v => assignMin v x) ;;;
  modifyF At PerGroup (SMax s) group (fun v => assignMax v x) ;;;
  modifyF At PerGroupPerTime (SMax s) idxGroupTime (fun v => assignMax v x).

Definition surfaceLoop (group idxGroupTime : Z) (scalarSample : list F) (s : nat)
  : Run -> result Run :=
  let x := nth s scalarSample f0 in
  colScalarsAt s ;;;
  modifyF At PerGroup (Surface s) group (fun v => fadd v x) ;;;
  modifyF At PerGroupPerTime (Surface s) idxGroupTime (fun v => fadd v x).

Definition indexCallback (time : Z) (mask : list Z) (scalarVol : ScalarVolume) (idx : size3)
  : Run -> result Run :=
  fun r =>
    match mask !! Z.to_nat (posToIndex idx (volumeDims L)) with
    | None => Throw BadSubscript
    | Some m =>
        let group := to_int m in
        if group <=? 0 then Ok r
        else if group >=? to_int (numGroups L) then Ok r
        else
          let group := group - 1 in
          let idxGroupTime := to_size_t (numGroups L * time + group) in
          let scalarSample := getAsDVec4 scalarVol idx in
          ((fun r => st ← readI Subscript PerGroup StartTime group r;
                     writeI Subscript PerGroup StartTime group (std_min st time) r) ;;;
           (fun r => st ← readI Subscript PerGroup StartTime group r;
                     writeI Subscript PerGroup LifeTime group (time - st) r) ;;;
           modifyI At PerGroup NumVoxels group incr ;;;
           modifyI At PerGroup NumVoxels idxGroupTime incr ;;;
           modifyI At PerGroup MaxDepth group (fun v => assignMax v (to_int (dimZ idx))) ;;;
           modifyI At PerGroupPerTime MaxDepth idxGroupTime
                   (fun v => assignMax v (to_int (dimZ idx))) ;;;
           forEach (seq 0 (numScalars L)) (scalarLoop group idxGroupTime scalarSample) ;;;
           (if negb (dimZ idx =? SEED_DEPTH) then skip
            else
              modifyI At PerGroup NumTopVoxels group incr ;;;
              modifyI At PerGroupPerTime NumTopVoxels idxGroupTime incr ;;;
              forEach (seq 0 (numScalars L)) (surfaceLoop group idxGroupTime scalarSample) ;;;
              forEach (seq 0 (numTopScalars L)) colTopScalarsAt)) r
    end.

(** ** The pass per group that closes a time step (lines 452-560) *)

(** Lines 457-468: the sums of this time step become averages. *)
Definition averagesPerTime (idxGroupTime : Z) : Run -> result Run :=
  (fun r =>
     n ← readI At PerGroupPerTime NumTopVoxels idxGroupTime r;
     if 0 <? n
     then forEach (seq 0 (numScalars L))
            (fun s => colScalarsAt s ;;;
                      divideBy PerGroupPerTime (Surface s) idxGroupTime
                               At NumTopVoxels idxGroupTime) r
     else Ok r) ;;;
  (fun r =>
     n ← readI At PerGroupPerTime NumVoxels idxGroupTime r;
     if 0 <? n
     then forEach (seq 0 (numScalars L))
            (fun s => colScalarsAt s ;;;
                      divideBy PerGroupPerTime (Average s) idxGroupTime
                               At NumVoxels idxGroupTime) r
     else Ok r).

(** [vortices->beginGroup(group)] .. [vortices->endGroup(group)]. *)
Definition groupRange (group : Z) : list Vortex :=
  default [] (groups (vortices L) !! Z.to_nat group).

(** [vortex - vortices->begin()] for the record at position [pos] of its
    group. *)
Definition vortexIndex (group : Z) (pos : nat) : Z :=
  Z.of_nat (length (concat (take (Z.to_nat group) (groups (vortices L)))) + pos).

(** Lines 495-513, the columns of [colScalars[s]] in one round of the loop
    over the scalars. *)
Definition parentScalarSums (group idxGroupTime parentGroup parentGroupTime : Z) (s : nat)
  : Run -> result Run :=
  colScalarsAt s ;;;
  addF PerGroup (Surface s) parentGroup PerGroupPerTime (Surface s) idxGroupTime ;;;
  addF PerGroupPerTime (Surface s) parentGroupTime PerGroupPerTime (Surface s) idxGroupTime ;;;
  addF PerGroup (Average s) parentGroup PerGroupPerTime (Average s) idxGroupTime ;;;
  addF PerGroupPerTime (Average s) parentGroupTime PerGroupPerTime (Average s) idxGroupTime ;;;
  assignF assignMin PerGroup (SMin s) parentGroup PerGroup (SMin s) group ;;;
  assignF assignMin PerGroupPerTime (SMin s) parentGroupTime
          PerGroupPerTime (SMin s) idxGroupTime ;;;
  assignF assignMax PerGroup (SMax s) parentGroup PerGroup (SMax s) group ;;;
  assignF assignMax PerGroupPerTime (SMax s) parentGroupTime
          PerGroupPerTime (SMax s) idxGroupTime.

(** Lines 494-530, one round of the loop: the columns of [colScalars[s]],
    then (lines 515-529) those of [colTopScalars[s]]. *)
Definition parentScalarLoop (group idxGroupTime parentGroup parentGroupTime : Z) (s : nat)
  : Run -> result Run :=
  parentScalarSums group idxGroupTime parentGroup parentGroupTime s ;;;
  colTopScalarsAt s.

(** Lines 483-491: the voxel counts of the group go to its parent. *)
Definition addSizesToParent (time group idxGroupTime parentGroup : Z) : Run -> result Run :=
  let parentGroupTime := to_size_t (numGroups L * time + group) in
  addI PerGroup NumVoxels parentGroup PerGroupPerTime NumVoxels idxGroupTime ;;;
  addI PerGroupPerTime NumVoxels parentGroupTime PerGroupPerTime NumVoxels idxGroupTime ;;;
  addI PerGroup NumTopVoxels parentGroup PerGroupPerTime NumTopVoxels idxGroupTime ;;;
  addI PerGroupPerTime NumTopVoxels parentGroupTime PerGroupPerTime NumTopVoxels idxGroupTime.

(** Lines 481-531. *)
Definition addToParent (time group idxGroupTime : Z) (pos : nat) : Run -> result Run :=
  let parentGroup := to_int (getParentGroup (vortices L) (vortexIndex group pos)) in
  if (0 <=? parentGroup) && (parentGroup <? group)
  then
    let parentGroupTime := to_size_t (numGroups L * time + group) in
    addSizesToParent time group idxGroupTime parentGroup ;;;
    forEach (seq 0 (numScalars L))
            (parentScalarLoop group idxGroupTime parentGroup parentGroupTime)
  else skip.

(** Lines 533-539. *)
Definition recordAspectRatio (vortex : Vortex) (group idxGroupTime : Z) : Run -> result Run :=
  let ratio := fdiv (maxRadius vortex) (minRadius vortex) in
  if fisfinite ratio
  then writeF At PerGroupPerTime AspectRatio idxGroupTime ratio ;;;
       modifyF At PerGroup AspectRatio group (fun v => fadd v ratio)
  else writeF At PerGroupPerTime AspectRatio idxGroupTime fnan.

(** [glm::distance(p0, p1)] is [length(p1 - p0)], the square root of the dot
    product of the difference with itself. *)
Definition distance (p0 p1 : F * F) : F :=
  let dx := fsub (fst p1) (fst p0) in
  let dy := fsub (snd p1) (snd p0) in
  fsqrt (fadd (fmul dx dx) (fmul dy dy)).

Definition setPrevCenter (group : Z) (c : F * F) : Run -> result Run :=
  fun r =>
    if decide (Z.to_nat group < length (prevCenters r))%nat
    then Ok {| perEnsembleData := perEnsembleData r; perVortexData := perVortexData r;
               prevCenters := <[Z.to_nat group := c]> (prevCenters r);
               warnings := warnings r |}
    else Throw BadSubscript.

(** Lines 546-559. *)
Definition recordCenter (vortex : Vortex) (time group idxGroupTime : Z) : Run -> result Run :=
  writeF Subscript PerGroupPerTime CenterX idxGroupTime (fst (center vortex)) ;;;
  writeF Subscript PerGroupPerTime CenterY idxGroupTime (snd (center vortex)) ;;;
  (fun r =>
     st ← readI Subscript PerGroup StartTime group r;
     if negb (time =? st)
     then
       match prevCenters r !! Z.to_nat group with
       | None => Throw BadSubscript
       | Some prev =>
           (modifyF Subscript PerGroup Travel group
                    (fun v => fadd v (distance (center vortex) prev)) ;;;
            setPrevCenter group (center vortex) ;;;
            writeF Subscript PerGroup EndX group (fst (center vortex)) ;;;
            writeF Subscript PerGroup EndY group (snd (center vortex))) r
       end
     else
       (writeF Subscript PerGroup StartX group (fst (center vortex)) ;;;
        writeF Subscript PerGroup StartY group (snd (center vortex))) r).

Definition finalizeGroup (time group : Z) : Run -> result Run :=
  let idxGroupTime := to_size_t (numGroups L * time + group) in
  writeI Subscript PerGroupPerTime Time idxGroupTime time ;;;
  writeI At PerGroupPerTime VortexID idxGroupTime group ;;;
  averagesPerTime idxGroupTime ;;;
  (fun r =>
     match list_find (fun vort => heightSlice vort = SEED_DEPTH) (groupRange group) with
     | None => Ok (logWarn WarnNotOnSeedDepth r)
     | Some (pos, vortex) =>
         (addToParent time group idxGroupTime pos ;;;
          recordAspectRatio vortex group idxGroupTime ;;;
          writeF At PerGroupPerTime AvgRadius idxGroupTime (avgRadius vortex) ;;;
          modifyF At PerGroup AvgRadius group (fun v => fadd v (avgRadius vortex)) ;;;
          writeI Subscript PerGroup Rotation group
                 (match rotation vortex with Clockwise => 0 | CounterClockwise => 1 end) ;;;
          recordCenter vortex time group idxGroupTime) r
     end).

(** ** One time step (lines 377-560) and the pass per group that follows
    the time loop (lines 564-581) *)

Definition timeStep (masks : list MaskVolume) (scalars : list ScalarVolume) (time : Z)
  : Run -> result Run :=
  fun r =>
    match masks !! Z.to_nat time, scalars !! Z.to_nat time with
    | Some maskVolume, Some scalarVol =>
        (forEach (forEachVoxel (maskDimensions maskVolume))
                 (indexCallback time (maskData maskVolume) scalarVol) ;;;
         forEach (reverse (seqZ 0 (to_int (to_size_t (numGroups L - 1)) + 1)))
                 (finalizeGroup time)) r
    | _, _ => Throw OutOfRange
    end.

(** Lines 570-580. *)
Definition averagesPerGroup (group : Z) : Run -> result Run :=
  (fun r =>
     n ← readI At PerGroup NumTopVoxels group r;
     if 0 <? n
     then forEach (seq 0 (numScalars L))
            (fun s => colScalarsAt s ;;;
                      divideBy PerGroup (Surface s) group At NumTopVoxels group) r
     else Ok r) ;;;
  (fun r =>
     n ← readI At PerGroup NumVoxels group r;
     if 0 <? n
     then forEach (seq 0 (numScalars L))
            (fun s => colScalarsAt s ;;;
                      divideBy PerGroup (Average s) group At NumVoxels group) r
     else Ok r).

Definition finalGroup (group : Z) : Run -> result Run :=
  writeI At PerGroup VortexID group (to_int group) ;;;
  (fun r =>
     lifeTime ← readI Subscript PerGroup LifeTime group r;
     if lifeTime =? 0 then Ok r
     else
       (divideBy PerGroup AspectRatio group Subscript LifeTime group ;;;
        divideBy PerGroup AvgRadius group Subscript LifeTime group ;;;
        averagesPerGroup group) r).

Definition timeLoop (masks : list MaskVolume) (scalars : list ScalarVolume)
  : Run -> result Run :=
  forEach (seqZ 0 (to_int (numTimeSteps L))) (timeStep masks scalars).

Definition finalLoop : Run -> result Run :=
  forEach (seqZ 0 (numGroups L)) finalGroup.

(** ** Creation of the columns (lines 277-343) *)

Definition createColumnI (fr : Frame) (name : IntName) (numElements initVal : Z) (r : Run) : Run :=
  setIntColumn fr name (replicate (Z.to_nat numElements) initVal) r.

Definition createColumnF (fr : Frame) (name : FloatName) (numElements : Z) (initVal : F) (r : Run)
  : Run :=
  setFloatColumn fr name (replicate (Z.to_nat numElements) initVal) r.

Definition numGroupTimeSteps : Z := to_size_t (numTimeSteps L * numGroups L).

Definition makeI (name : IntName) (initVal : Z) (r : Run) : Run :=
  createColumnI PerGroupPerTime name numGroupTimeSteps initVal
    (createColumnI PerGroup name (numGroups L) initVal r).

Definition makeF (name : FloatName) (initVal : F) (r : Run) : Run :=
  createColumnF PerGroupPerTime name numGroupTimeSteps initVal
    (createColumnF PerGroup name (numGroups L) initVal r).

Definition makeScalarColumns (s : nat) (r : Run) : Run :=
  makeF (SMax s) f0 (makeF (SMin s) f0 (makeF (Average s) f0 (makeF (Surface s) f0 r))).

Definition makeSurfaceColumns (s : nat) (r : Run) : Run :=
  makeF (TMax s) f0 (makeF (TMin s) f0 (makeF (TExtreme s) f0 r)).

(** The categorical column "Rotation" has [numGroups] rows; [set(0, "CW")]
    and [set(1, "CCW")] register the two categories through rows 0 and 1. *)
Definition createColumns (ensembleMember : Z) : Run :=
  let r0 := {| perEnsembleData := emptyFrame; perVortexData := emptyFrame;
               prevCenters := replicate (Z.to_nat (numGroups L)) (f0, f0);
               warnings := [] |} in
  let r := makeI Ensemble ensembleMember r0 in
  let r := makeI VortexID 0 r in
  let r := createColumnI PerGroupPerTime Time numGroupTimeSteps 0 r in
  let r := makeI NumVoxels 0 r in
  let r := makeI NumTopVoxels 0 r in
  let r := makeI MaxDepth 0 r in
  let r := makeF AspectRatio f0 r in
  let r := makeF AvgRadius f0 r in
  let r := createColumnI PerGroup LifeTime (numGroups L) 0 r in
  let r := createColumnI PerGroup StartTime (numGroups L) (to_int (numTimeSteps L)) r in
  let r := setIntColumn PerGroup Rotation
             (<[1%nat := 1]> (<[0%nat := 0]> (replicate (Z.to_nat (numGroups L)) 0))) r in
  let r := createColumnF PerGroupPerTime CenterX numGroupTimeSteps f0 r in
  let r := createColumnF PerGroupPerTime CenterY numGroupTimeSteps f0 r in
  let r := createColumnF PerGroup StartX (numGroups L) f0 r in
  let r := createColumnF PerGroup StartY (numGroups L) f0 r in
  let r := createColumnF PerGroup EndX (numGroups L) f0 r in
  let r := createColumnF PerGroup EndY (numGroups L) f0 r in
  let r := createColumnF PerGroup Travel (numGroups L) f0 r in
  let r := foldl (fun r s => makeScalarColumns s r) r (seq 0 (colScalars L)) in
  foldl (fun r s => makeSurfaceColumns s r) r (seq 0 (colTopScalars L)).

(** Lines 351-352: the condition handed to [ivwAssert]. *)
Definition channelCountAssertion : bool :=
  (Z.of_nat (numScalars L) * 4 =? Z.of_nat (colScalars L)) &&
  (Z.of_nat (numTopScalars L) * 3 =? Z.of_nat (colTopScalars L)).

End Loops.

(** ** The processor and [process] (lines 245-585) *)

Record Processor := {
  doAssemble_ : bool;
  maskVolumeIn_ : option (list MaskVolume);
  scalarVolumesIn_ : option (list ScalarVolume);
  topScalarVolumesIn_ : option ScalarVolume;
  vorticesIn_ : option VortexSet;
  scalarNames_ : list string;
  topScalarNames_ : list string;
  ensembleMember_ : Z;
  skipLastGroup_ : bool;
  dataOut_ : option DataFrame;
  perGroupDataOut_ : option DataFrame;
  log_ : list LogEntry
}.

(** Lines 255-257.  The data range is a pair of [double]s; the embedding
    keeps the integral value of its upper end, and [vortices->numGroups()]
    is a [size_t]. *)
Definition numGroups_init (dataRangeY : Z) (skipLastGroup : bool) (vorticesNumGroups : Z) : Z :=
  std_min (to_size_t (dataRangeY - 1))
          (if skipLastGroup then to_size_t (vorticesNumGroups - 1) else vorticesNumGroups).

(** Lines 247-251: the inputs, when none of the tests of the guard fires. *)
Definition inputs (p : Processor)
  : option (list MaskVolume * list ScalarVolume * ScalarVolume * VortexSet) :=
  masks ← maskVolumeIn_ p;
  if decide (length masks = 0%nat) then None
  else
    scalars ← scalarVolumesIn_ p;
    if decide (length scalars ≠ length masks) then None
    else
      top ← topScalarVolumesIn_ p;
      vs ← vorticesIn_ p;
      Some (masks, scalars, top, vs).

Definition declareLocals (p : Processor) (masks : list MaskVolume)
    (firstMask : MaskVolume) (firstScalar top : ScalarVolume) (vs : VortexSet) : Locals :=
  {| vortices := vs;
     numGroups := numGroups_init (dataRangeY (List.last masks firstMask)) (skipLastGroup_ p)
                                 (Z.of_nat (length (groups vs)));
     numTimeSteps := Z.of_nat (length masks);
     volumeDims := maskDimensions firstMask;
     topScalarVol := top;
     numScalars := getComponents firstScalar;
     numTopScalars := getComponents top;
     colScalars := length (scalarNames_ p);
     colTopScalars := length (topScalarNames_ p) |}.

(** Lines 265-266. *)
Definition dimensionsDiffer (volumeDims scalarDims topScalarDims : size3) (numScalarVolumes : Z)
  : bool :=
  negb (bool_decide (volumeDims = scalarDims))
  || negb (dimX topScalarDims =? dimX scalarDims)
  || negb (dimY topScalarDims =? dimY scalarDims)
  || negb (dimZ topScalarDims =? numScalarVolumes).

Definition setAssembled (p : Processor) (out : option DataFrame) (perGroupOut : option DataFrame)
    (log : list LogEntry) : Processor :=
  {| doAssemble_ := false;
     maskVolumeIn_ := maskVolumeIn_ p;
     scalarVolumesIn_ := scalarVolumesIn_ p;
     topScalarVolumesIn_ := topScalarVolumesIn_ p;
     vorticesIn_ := vorticesIn_ p;
     scalarNames_ := scalarNames_ p;
     topScalarNames_ := topScalarNames_ p;
     ensembleMember_ := ensembleMember_ p;
     skipLastGroup_ := skipLastGroup_ p;
     dataOut_ := out;
     perGroupDataOut_ := perGroupOut;
     log_ := log |}.

(** The loops of [process] on the freshly created columns. *)
Definition aggregate (L : Locals) (masks : list MaskVolume) (scalars : list ScalarVolume)
  : Run -> result Run :=
  timeLoop L masks scalars ;;; finalLoop L.

Definition process (p : Processor) : result Processor :=
  if negb (doAssemble_ p) then Ok p
  else
    match inputs p with
    | Some ((firstMask :: _) as masks, (firstScalar :: _) as scalars, top, vs) =>
        let L := declareLocals p masks firstMask firstScalar top vs in
        let scalarDims := getDimensions firstScalar in
        let topScalarDims := getDimensions top in
        if dimensionsDiffer (volumeDims L) scalarDims topScalarDims (Z.of_nat (length scalars))
        then Ok (setAssembled p (dataOut_ p) (perGroupDataOut_ p)
                   (log_ p ++ [WarnDimensions (volumeDims L) (numTimeSteps L) scalarDims
                                              (Z.of_nat (length scalars)) topScalarDims]))
        else
          r ← aggregate L masks scalars (createColumns L (ensembleMember_ p));
          Ok (setAssembled p (Some (perEnsembleData r)) (Some (perVortexData r))
                (log_ p ++ warnings r))
    | _ => Ok p
    end.

End VortexStatistics.

Arguments ScalarVolume F : clear implicits.
Arguments Vortex F : clear implicits.
Arguments VortexSet F : clear implicits.
Arguments DataFrame F : clear implicits.
Arguments Run F : clear implicits.
Arguments Locals F : clear implicits.
Arguments Processor F : clear implicits.

(** ** Concrete runs

    Small inputs on [binary64], with the seed layer at depth 0.  A mask is a
    column of voxels, one per depth, so the voxel of index 1 lies at depth
    1, off the seed layer; scalar and surface volumes have one component,
    and one name is declared for each. *)

Definition seedDepth : Z := 0.

Definition vortexAt (h : Z) (c : float * float) : Vortex float :=
  {| heightSlice := h; center := c;
     minRadius := 1%float; maxRadius := 2%float; avgRadius := 1.5%float;
     rotation := Clockwise |}.

(** Three groups, the last one empty, none with a parent. *)
Definition flatHierarchy : VortexSet float :=
  {| groups := [[vortexAt 0 (3, 4)%float]; [vortexAt 0 (1, 1)%float]; []];
     getParentGroup := fun _ => -1 |}.

(** Four groups; the record of group 1 (position 1 of the set) names group 0
    as its parent. *)
Definition nestedHierarchy : VortexSet float :=
  {| groups := [[vortexAt 0 (3, 4)%float]; [vortexAt 0 (1, 1)%float]; []; []];
     getParentGroup := fun i => if i =? 1 then 0 else -1 |}.

Definition constantVolume (depth : Z) (v : float) : ScalarVolume float :=
  {| getDimensions := (1, 1, depth); getComponents := 1;
     getAsDVec4 := fun _ => [v; 0; 0; 0]%float |}.

Definition maskOf (rangeY : Z) (voxels : list Z) : MaskVolume :=
  {| maskDimensions := (1, 1, Z.of_nat (length voxels));
     dataRangeY := rangeY; maskData := voxels |}.

Definition processorOn (masks : list MaskVolume) (vs : VortexSet float) : Processor float :=
  {| doAssemble_ := true;
     maskVolumeIn_ := Some masks;
     scalarVolumesIn_ :=
       Some (map (fun m => constantVolume (dimZ (maskDimensions m)) 6%float) masks);
     topScalarVolumesIn_ := Some (constantVolume (Z.of_nat (length masks)) 7%float);
     vorticesIn_ := Some vs;
     scalarNames_ := ["Scalar0"%string];
     topScalarNames_ := ["TScalar0"%string];
     ensembleMember_ := 0;
     skipLastGroup_ := true;
     dataOut_ := None;
     perGroupDataOut_ := None;
     log_ := [] |}.

(** One time step, one voxel of group 0 off the seed layer. *)
Definition oneStepRun : Processor float :=
  processorOn [maskOf 3 [0; 1]] flatHierarchy.

(** One time step, two voxels of group 0, both off the seed layer. *)
Definition twoVoxelRun : Processor float :=
  processorOn [maskOf 3 [0; 1; 1]] flatHierarchy.

(** Two time steps, group 0 seen in the first only. *)
Definition earlyVoxelRun : Processor float :=
  processorOn [maskOf 3 [0; 1]; maskOf 3 [0; 0]] flatHierarchy.

(** Two time steps, group 0 seen in the second only. *)
Definition lateVoxelRun : Processor float :=
  processorOn [maskOf 3 [0; 0]; maskOf 3 [0; 1]] flatHierarchy.

(** One time step, one voxel of group 1 off the seed layer; group 1 has
    group 0 as its parent. *)
Definition nestedRun : Processor float :=
  processorOn [maskOf 4 [0; 2]] nestedHierarchy.

(** Reading a column of an output frame, when the run produced one. *)
Definition intOutput (out : Processor float -> option (DataFrame float)) (c : IntName)
    (res : result (Processor float)) : option (list Z) :=
  match res with
  | Ok p => d ← out p; Some (icol d c)
  | Throw _ => None
  end.

Definition floatOutput (out : Processor float -> option (DataFrame float)) (c : FloatName)
    (res : result (Processor float)) : option (list float) :=
  match res with
  | Ok p => d ← out p; Some (fcol d c)
  | Throw _ => None
  end.

Definition localsOf (p : Processor float) : option (Locals float) :=
  match inputs p with
  | Some ((firstMask :: _) as masks, (firstScalar :: _), top, vs) =>
      Some (declareLocals p masks firstMask firstScalar top vs)
  | _ => None
  end.

(** The state of a run after its time loop, before the last pass. *)
Definition afterTimeLoop (p : Processor float) : option (result (Run float)) :=
  L ← localsOf p;
  masks ← maskVolumeIn_ p;
  scalars ← scalarVolumesIn_ p;
  Some (timeLoop seedDepth L masks scalars (createColumns L (ensembleMember_ p))).

(** The state of [nestedRun] when the pass of group 1 reaches line 480: the
    voxels of time step 0 are done, group 2 is done, and the averages of
    group 1 are taken. *)
Definition nestedLocals : Locals float :=
  declareLocals nestedRun [maskOf 4 [0; 2]] (maskOf 4 [0; 2])
                (constantVolume 2 6%float) (constantVolume 1 7%float) nestedHierarchy.

Definition nestedBeforeRollUp : result (Run float) :=
  (forEach (forEachVoxel (1, 1, 2))
           (indexCallback seedDepth nestedLocals 0 [0; 2] (constantVolume 2 6%float)) ;;;
   finalizeGroup seedDepth nestedLocals 0 2 ;;;
   writeI Subscript PerGroupPerTime Time 1 0 ;;;
   writeI At PerGroupPerTime VortexID 1 1 ;;;
   averagesPerTime nestedLocals 1) (createColumns nestedLocals 0).

(** The sum over the time steps of the rows of group [g] in a column of the
    frame per group and time. *)
Definition sumOverTime (numGroups numTimeSteps : Z) (col : list Z) (g : Z) : Z :=
  foldr Z.add 0
        (map (fun t => default 0 (col !! Z.to_nat (numGroups * t + g))) (seqZ 0 numTimeSteps)).

(** The length of the path through a list of centres. *)
Fixpoint pathLength (cs : list (float * float)) : float :=
  match cs with
  | c0 :: ((c1 :: _) as rest) => PrimFloat.add (distance c0 c1) (pathLength rest)
  | _ => 0%float
  end.

(** The centres recorded for group [g], one per time step. *)
Definition recordedCenters (numGroups numTimeSteps : Z) (xs ys : list float) (g : Z)
  : list (float * float) :=
  map (fun t => (default 0%float (xs !! Z.to_nat (numGroups * t + g)),
                 default 0%float (ys !! Z.to_nat (numGroups * t + g))))
      (seqZ 0 numTimeSteps).

(** A run without surface volume, and a run whose mask has 4 x 4 x 4 voxels
    and whose scalar volume has 4 x 4 x 5; both start from output frames
    that are already there. *)
Definition volumeOfMask (dims : size3) : MaskVolume :=
  {| maskDimensions := dims; dataRangeY := 3;
     maskData := replicate (Z.to_nat (dimX dims * dimY dims * dimZ dims)) 0 |}.

Definition volumeOfScalars (dims : size3) : ScalarVolume float :=
  {| getDimensions := dims; getComponents := 1;
     getAsDVec4 := fun _ => [6; 0; 0; 0]%float |}.

Definition missingSurfaceRun : Processor float :=
  {| doAssemble_ := true;
     maskVolumeIn_ := Some [volumeOfMask (4, 4, 4)];
     scalarVolumesIn_ := Some [volumeOfScalars (4, 4, 4)];
     topScalarVolumesIn_ := None;
     vorticesIn_ := Some flatHierarchy;
     scalarNames_ := ["Scalar0"%string];
     topScalarNames_ := ["TScalar0"%string];
     ensembleMember_ := 0;
     skipLastGroup_ := true;
     dataOut_ := Some emptyFrame;
     perGroupDataOut_ := Some emptyFrame;
     log_ := [] |}.

Definition mismatchedRun : Processor float :=
  {| doAssemble_ := true;
     maskVolumeIn_ := Some [volumeOfMask (4, 4, 4)];
     scalarVolumesIn_ := Some [volumeOfScalars (4, 4, 5)];
     topScalarVolumesIn_ := Some (volumeOfScalars (4, 4, 1));
     vorticesIn_ := Some flatHierarchy;
     scalarNames_ := ["Scalar0"%string];
     topScalarNames_ := ["TScalar0"%string];
     ensembleMember_ := 0;
     skipLastGroup_ := true;
     dataOut_ := Some emptyFrame;
     perGroupDataOut_ := Some emptyFrame;
     log_ := [] |}.

(** A hierarchy whose record of group 0 has minimal radius 0. *)
Definition degenerateVortex (h : Z) (c : float * float) : Vortex float :=
  {| heightSlice := h; center := c;
     minRadius := 0%float; maxRadius := 2%float; avgRadius := 1%float;
     rotation := CounterClockwise |}.

Definition degenerateHierarchy : VortexSet float :=
  {| groups := [[degenerateVortex 0 (3, 4)%float]; [vortexAt 0 (1, 1)%float]; []];
     getParentGroup := fun _ => -1 |}.

Definition degenerateRun : Processor float :=
  processorOn [maskOf 3 [0; 1]] degenerateHierarchy.

(** Four groups without parents, of which group 1 has no record at all. *)
Definition sparseHierarchy : VortexSet float :=
  {| groups := [[vortexAt 0 (3, 4)%float]; []; [vortexAt 0 (1, 1)%float]; []];
     getParentGroup := fun _ => -1 |}.

(** Two time steps, one voxel of group 0 off the seed layer in the first. *)
Definition sparseRun : Processor float :=
  processorOn [maskOf 4 [0; 1]; maskOf 4 [0; 0]] sparseHierarchy.


Definition returned (dflt : Processor float) (res : result (Processor float)) : Processor float :=
  match res with Ok p' => p' | Throw _ => dflt end.

Definition returnedRun (dflt : Run float) (res : result (Run float)) : Run float :=
  match res with Ok r' => r' | Throw _ => dflt end.

(** The locals of [twoVoxelRun] and of [oneStepRun]. *)
Definition twoVoxelLocals : Locals float :=
  declareLocals twoVoxelRun [maskOf 3 [0; 1; 1]] (maskOf 3 [0; 1; 1])
                (constantVolume 3 6%float) (constantVolume 1 7%float) flatHierarchy.

Definition oneStepLocals : Locals float :=
  declareLocals oneStepRun [maskOf 3 [0; 1]] (maskOf 3 [0; 1])
                (constantVolume 2 6%float) (constantVolume 1 7%float) flatHierarchy.

(** A state on the columns of [oneStepRun] in which group 0 has life time
    2, 2 surface voxels and 4 voxels, and the sum 12 in the rows of its
    surface and volumetric averages, in both frames. *)
Definition filledRun : Run float :=
  returnedRun (createColumns oneStepLocals 0)
    ((writeI Subscript PerGroup LifeTime 0 2 ;;;
      writeI At PerGroup NumTopVoxels 0 2 ;;;
      writeI At PerGroup NumVoxels 0 4 ;;;
      writeF At PerGroup (Surface 0) 0 12%float ;;;
      writeF At PerGroup (Average 0) 0 12%float ;;;
      writeI At PerGroupPerTime NumTopVoxels 0 2 ;;;
      writeI At PerGroupPerTime NumVoxels 0 4 ;;;
      writeF At PerGroupPerTime (Surface 0) 0 12%float ;;;
      writeF At PerGroupPerTime (Average 0) 0 12%float) (createColumns oneStepLocals 0)).

(** ** Observations of a run

    [floatAt] and [intAt] read one row of a column; a statement [preserves]
    an observation when it leaves it as it was whenever it returns. *)

#[export] Instance Frame_eq_dec : EqDecision Frame.
Proof. solve_decision. Defined.

Definition floatAt {F : Type} (fr : Frame) (c : FloatName) (i : nat) (r : Run F) : option F :=
  floatColumn fr c r !! i.

Definition intAt {F : Type} (fr : Frame) (c : IntName) (i : nat) (r : Run F) : option Z :=
  intColumn fr c r !! i.

Definition preserves {F A : Type} (obs : Run F -> A) (c : Run F -> result (Run F)) : Prop :=
  forall r r', c r = Ok r' -> obs r' = obs r.

Section Observations.

Context {F : Type} `{FloatOps F}.

(** ** Sizes that fit

    The loops count groups and time steps in [int]; the rows of the frame
    per group and time are told apart by [numGroups * time + group] as long
    as both counts fit. *)
Definition sizesFit (L : Locals F) : Prop :=
  0 <= numGroups L < 2 ^ 31 /\ 0 <= numTimeSteps L < 2 ^ 31.

Definition row (L : Locals F) (time group : Z) : nat :=
  Z.to_nat (to_size_t (numGroups L * time + group)).

(** The value lines 533-539 store for a record. *)
Definition aspectRatioOf (vortex : Vortex F) : F :=
  if fisfinite (fdiv (maxRadius vortex) (minRadius vortex))
  then fdiv (maxRadius vortex) (minRadius vortex) else fnan.

(** [averaged count before after]: the row went from the sum [before] to
    [sum / count] when the count is positive, and stayed as it was when the
    count is not. *)
Definition averaged (count : Z) (before after : option F) : Prop :=
  if 0 <? count
  then exists sum, before = Some sum /\ after = Some (fdiv sum (fofZ count))
  else after = before.

(** The two blocks that turn sums into averages, on either frame. *)
Definition averagesOf (L : Locals F) (fr : Frame) (i : Z) : Run F -> result (Run F) :=
  (fun r =>
     n ← readI At fr NumTopVoxels i r;
     if 0 <? n
     then forEach (seq 0 (numScalars L))
            (fun s => colScalarsAt L s ;;; divideBy fr (Surface s) i At NumTopVoxels i) r
     else Ok r) ;;;
  (fun r =>
     n ← readI At fr NumVoxels i r;
     if 0 <? n
     then forEach (seq 0 (numScalars L))
            (fun s => colScalarsAt L s ;;; divideBy fr (Average s) i At NumVoxels i) r
     else Ok r).

(** What the last pass does to the rows of one group. *)
Definition groupObs (s g : nat) (r : Run F)
  : option Z * (option Z * option Z) * (option F * option F) :=
  (intAt PerGroup LifeTime g r,
   (intAt PerGroup NumTopVoxels g r, intAt PerGroup NumVoxels g r),
   (floatAt PerGroup (Surface s) g r, floatAt PerGroup (Average s) g r)).

Definition groupAveraged (o o' : option Z * (option Z * option Z) * (option F * option F))
  : Prop :=
  exists lifeTime,
    o.1.1 = Some lifeTime /\
    (lifeTime = 0 -> o'.2 = o.2) /\
    (lifeTime ≠ 0 ->
       exists nTop n, o.1.2 = (Some nTop, Some n) /\
                      averaged nTop o.2.1 o'.2.1 /\ averaged n o.2.2 o'.2.2).

End Observations.

(** ** Cells and footprints

    A cell is one row of one column of one of the two frames.  A statement
    [writesOnly] a set of cells when, whenever it returns, every other cell
    holds what it held before and no column (nor [prevCenters]) has changed
    its length. *)
Inductive cell :=
  | IntCell (fr : Frame) (k : IntName) (i : nat)
  | FloatCell (fr : Frame) (c : FloatName) (i : nat).

Definition isScalarColumn (c : FloatName) : bool :=
  match c with
  | Surface _ | Average _ | SMin _ | SMax _ => true
  | _ => false
  end.

Definition isCountColumn (k : IntName) : bool :=
  match k with
  | NumVoxels | NumTopVoxels => true
  | _ => false
  end.

(** The cells the callback per voxel may write (lines 400-447). *)
Definition voxelCells (c : cell) : bool :=
  match c with
  | IntCell PerGroup k _ =>
      match k with
      | StartTime | LifeTime | NumVoxels | MaxDepth | NumTopVoxels => true
      | _ => false
      end
  | IntCell PerGroupPerTime k _ =>
      match k with MaxDepth | NumTopVoxels => true | _ => false end
  | FloatCell _ c _ => isScalarColumn c
  end.

(** The cells of the parts of the pass of a group: the row labels (lines
    454-455), the averages (457-468), the roll-up to the parent (480-531),
    the aspect ratio (533-539), radius and rotation (540-544) and the centre
    (546-559); [idx] is the row of the group in the frame per group and
    time, [grp] its row in the frame per group. *)
Definition labelCells (idx : nat) (c : cell) : bool :=
  match c with
  | IntCell PerGroupPerTime (Time | VortexID) i => Nat.eqb i idx
  | _ => false
  end.

Definition averageCells (fr : Frame) (idx : nat) (c : cell) : bool :=
  match c with
  | FloatCell fr' (Surface _ | Average _) i => bool_decide (fr' = fr) && Nat.eqb i idx
  | _ => false
  end.

Definition parentCells (idx : nat) (c : cell) : bool :=
  match c with
  | IntCell PerGroup k _ => isCountColumn k
  | IntCell PerGroupPerTime k i => isCountColumn k && Nat.eqb i idx
  | FloatCell PerGroup c _ => isScalarColumn c
  | FloatCell PerGroupPerTime c i => isScalarColumn c && Nat.eqb i idx
  end.

Definition aspectRatioCells (idx grp : nat) (c : cell) : bool :=
  match c with
  | FloatCell PerGroupPerTime AspectRatio i => Nat.eqb i idx
  | FloatCell PerGroup AspectRatio i => Nat.eqb i grp
  | _ => false
  end.

Definition radiusCells (idx grp : nat) (c : cell) : bool :=
  match c with
  | FloatCell PerGroupPerTime AvgRadius i => Nat.eqb i idx
  | FloatCell PerGroup AvgRadius i => Nat.eqb i grp
  | IntCell PerGroup Rotation i => Nat.eqb i grp
  | _ => false
  end.

Definition centerCells (idx grp : nat) (c : cell) : bool :=
  match c with
  | FloatCell PerGroupPerTime (CenterX | CenterY) i => Nat.eqb i idx
  | FloatCell PerGroup (Travel | EndX | EndY | StartX | StartY) i => Nat.eqb i grp
  | _ => false
  end.

Definition recordCells (idx grp : nat) (c : cell) : bool :=
  parentCells idx c || aspectRatioCells idx grp c || radiusCells idx grp c
  || centerCells idx grp c.

Definition finalizeCells (idx grp : nat) (c : cell) : bool :=
  labelCells idx c || averageCells PerGroupPerTime idx c || recordCells idx grp c.

(** The last pass (lines 564-581) writes the frame per group only. *)
Definition lastPassCells (c : cell) : bool :=
  match c with
  | IntCell PerGroup VortexID _ => true
  | FloatCell PerGroup (AspectRatio | AvgRadius | Surface _ | Average _) _ => true
  | _ => false
  end.

(** The columns the loops of [process] write at all: every column but
    "Ensemble" and the columns of the surface scalars. *)
Definition loopCells (c : cell) : bool :=
  match c with
  | IntCell _ Ensemble _ => false
  | FloatCell _ (TExtreme _ | TMin _ | TMax _) _ => false
  | _ => true
  end.

(** The cells the last pass writes for one group. *)
Definition groupPassCells (grp : nat) (c : cell) : bool :=
  match c with
  | IntCell PerGroup VortexID i => Nat.eqb i grp
  | FloatCell PerGroup (AspectRatio | AvgRadius | Surface _ | Average _) i => Nat.eqb i grp
  | _ => false
  end.

(** Every cell outside the column [k] of the frame [fr]. *)
Definition offColumn (fr : Frame) (k : IntName) (c : cell) : bool :=
  match c with
  | IntCell fr' k' _ => negb (bool_decide (fr' = fr /\ k' = k))
  | FloatCell _ _ _ => true
  end.


Section Footprints.

Context {F : Type} `{FloatOps F}.

Definition sameOutside (S : cell -> bool) (r r' : Run F) : Prop :=
  (forall fr k i, S (IntCell fr k i) = false -> intAt fr k i r' = intAt fr k i r) /\
  (forall fr c i, S (FloatCell fr c i) = false -> floatAt fr c i r' = floatAt fr c i r) /\
  (forall fr k, length (intColumn fr k r') = length (intColumn fr k r)) /\
  (forall fr c, length (floatColumn fr c r') = length (floatColumn fr c r)) /\
  length (prevCenters r') = length (prevCenters r).

Definition writesOnly (S : cell -> bool) (st : Run F -> result (Run F)) : Prop :=
  forall r r', st r = Ok r' -> sameOutside S r r'.

End Footprints.

(** ** Headers and rows of the two frames

    The columns [createColumns] makes in each frame, and the number of rows
    it gives them. *)
Definition intHeaders (fr : Frame) : list IntName :=
  match fr with
  | PerGroup =>
      [Ensemble; VortexID; NumVoxels; NumTopVoxels; MaxDepth; LifeTime; StartTime; Rotation]
  | PerGroupPerTime => [Ensemble; VortexID; Time; NumVoxels; NumTopVoxels; MaxDepth]
  end.

Definition fixedFloatHeaders (fr : Frame) : list FloatName :=
  match fr with
  | PerGroup => [AspectRatio; AvgRadius; StartX; StartY; EndX; EndY; Travel]
  | PerGroupPerTime => [AspectRatio; AvgRadius; CenterX; CenterY]
  end.

(** Whether a column is one of those made for the first [n] names. *)
Definition isScalarHeader (n : nat) (c : FloatName) : bool :=
  match c with
  | Surface s | Average s | SMin s | SMax s => (s <? n)%nat
  | _ => false
  end.

Definition isSurfaceHeader (n : nat) (c : FloatName) : bool :=
  match c with
  | TExtreme s | TMin s | TMax s => (s <? n)%nat
  | _ => false
  end.

Definition rows {F : Type} (L : Locals F) (fr : Frame) : nat :=
  match fr with
  | PerGroup => Z.to_nat (numGroups L)
  | PerGroupPerTime => Z.to_nat (numGroupTimeSteps L)
  end.

(** The frame a run hands to the outport of a member of a [ColumnPair]. *)
Definition outputFrame {F : Type} (fr : Frame) (p : Processor F) : option (DataFrame F) :=
  match fr with
  | PerGroup => dataOut_ p
  | PerGroupPerTime => perGroupDataOut_ p
  end.

(** What the voxels of a returning run leave in the frame per group: no
    life time, start times that are time steps, and [n] rows of voxel
    counts. *)
Definition lifeTimesZero {F : Type} (n : nat) (r : Run F) : Prop :=
  intColumn PerGroup LifeTime r = replicate n 0 /\
  Forall (Z.le 0) (intColumn PerGroup StartTime r) /\
  length (intColumn PerGroup NumVoxels r) = n.


(** The groups without a record on the seed depth (the test of line 469). *)
Definition offSeedDepth {F : Type} (SEED_DEPTH : Z) (L : Locals F) (group : Z) : bool :=
  match list_find (fun vort => heightSlice vort = SEED_DEPTH) (groupRange L group) with
  | None => true
  | Some _ => false
  end.

Definition groupsOffSeedDepth {F : Type} (SEED_DEPTH : Z) (L : Locals F) : list Z :=
  List.filter (offSeedDepth SEED_DEPTH L) (seqZ 0 (numGroups L)).


(** ** The lists of names (lines 178-210)

    [scalarNames_] and [topScalarNames_] are property owners that hold one
    string property per name.  The handlers of the two inports bring them
    to one name per component of the data on the inport.

    [removeProperty(i)] erases the [i]-th property and throws on an index
    that is out of range; [addProperty] appends. *)
Record StringProperty := {
  identifier : string;
  displayName : string;
  get : string
}.

Definition removeProperty (idx : Z) (names : list StringProperty) : result (list StringProperty) :=
  if decide (Z.to_nat idx < length names)%nat then Ok (delete (Z.to_nat idx) names)
  else Throw OutOfRange.

Definition addProperty (q : StringProperty) (names : list StringProperty)
  : result (list StringProperty) :=
  Ok (names ++ [q]).

(** [new StringProperty(fmt::format(lower + "{}", scalar),
    fmt::format(upper + "{}", scalar), fmt::format(upper + "{}", scalar))]:
    identifier, display name and value. *)
Definition newName (lower upper : string) (scalar : Z) : StringProperty :=
  {| identifier := lower +:+ pretty scalar;
     displayName := upper +:+ pretty scalar;
     get := upper +:+ pretty scalar |}.

(** The two loops of a handler: [idx] is an [int] that starts at
    [numNames - 1], computed in [size_t], and runs down to
    [int(numScalars)]; [scalar] is a [size_t] that runs from [numNames] up to
    [numScalars]. *)
Definition resizeNames (lower upper : string) (numScalars : Z) (names : list StringProperty)
  : result (list StringProperty) :=
  let numNames := Z.of_nat (length names) in
  let start := to_int (to_size_t (numNames - 1)) in
  let stop := to_int numScalars in
  (forEach (reverse (seqZ stop (start - stop + 1))) (fun idx => removeProperty (to_size_t idx)) ;;;
   forEach (seqZ numNames (numScalars - numNames))
           (fun scalar => addProperty (newName lower upper scalar))) names.

(** Lines 178-193 and 195-210. *)
Definition scalarVolumesIn_onChange {F : Type} (data : option (list (ScalarVolume F)))
  : list StringProperty -> result (list StringProperty) :=
  resizeNames "scalar" "Scalar"
    (match data with
     | Some (front :: _) => Z.of_nat (getComponents front)
     | _ => 0
     end).

Definition topScalarVolumesIn_onChange {F : Type} (data : option (ScalarVolume F))
  : list StringProperty -> result (list StringProperty) :=
  resizeNames "Tscalar" "TScalar"
    (match data with
     | Some volume => Z.of_nat (getComponents volume)
     | None => 0
     end).

(** The names a handler leaves are numbered: the identifier of the [i]-th
    is [lower] followed by [i]. *)
Definition numbered (lower : string) (names : list StringProperty) : Prop :=
  forall i q, names !! i = Some q -> identifier q = lower +:+ pretty (Z.of_nat i).


(** ** Picked nodes ([MorseSmaleComplexToMesh], morsesmalecomplextomesh.cpp)

    [pickedNodeIndices_] is the vector of the picked critical points.  A
    left press on a node ([picking], lines 197-209) looks its index up with
    [std::find], appends it when it is not there and erases the element
    found otherwise.  [process] (lines 89-97) mixes the colour of every
    picked node with the picking colour. *)
Definition togglePicked (pickingIndex : Z) (pickedNodeIndices : list Z) : list Z :=
  match list_find (fun pi => pi = pickingIndex) pickedNodeIndices with
  | None => pickedNodeIndices ++ [pickingIndex]
  | Some (pos, _) => delete pos pickedNodeIndices
  end.

(** The picked nodes after a series of presses, from no node picked. *)
Definition pickedAfter (presses : list Z) : list Z :=
  foldl (fun picked pickingIndex => togglePicked pickingIndex picked) [] presses.

Section NodeColors.

Variable vec4 : Type.
(** [glm::mix(col, pickingColor, pickingIntensity)] for the colour and the
    intensity of the picking properties. *)
Variable mixPicked : vec4 -> vec4.

Definition highlightPicked (pickedNodeIndices : list Z) (colors : list vec4) : list vec4 :=
  imap (fun i col => if bool_decide (Z.of_nat i ∈ pickedNodeIndices) then mixPicked col else col)
       colors.

End NodeColors.


(** ** The index buffer of the separatrices ([MorseSmaleComplexToMesh::process],
    lines 117-139)

    Each cell of a separatrix is a triple in [cells]: its dimension, the
    point it starts from and the point it goes to; [separatrixIds] names the
    separatrix of each cell.  The loop writes one line strip per run of
    cells of the same separatrix, with the index [0xffffffff] between two
    strips.  Indices are [uint32_t]; [operator[]] is unchecked. *)
Definition to_uint32 (z : Z) : Z := z mod 2 ^ 32.

Definition primitiveRestart : Z := 0xffffffff.

Record SeparatrixCells := {
  numberOfCells : Z;
  cells : list Z;
  separatrixIds : list Z
}.

(** The variables of the loop: [currentCellId] and [sepIndices]. *)
Definition sepState : Type := Z * list Z.

Definition push_back (x : Z) : sepState -> result sepState :=
  fun '(currentCellId, sepIndices) => Ok (currentCellId, sepIndices ++ [to_uint32 x]).

Definition subscript (v : list Z) (i : Z) : result Z :=
  match v !! Z.to_nat i with
  | Some x => if 0 <=? i then Ok x else Throw BadSubscript
  | None => Throw BadSubscript
  end.

Definition separatrixCell (sc : SeparatrixCells) (idPrev : Z) (i : Z) : sepState -> result sepState :=
  fun st =>
    from ← subscript (cells sc) (3 * i + 1);
    to ← subscript (cells sc) (3 * i + 2);
    id ← subscript (separatrixIds sc) i;
    ((if negb (fst st =? id)
      then (if 0 <? i then push_back primitiveRestart else skip) ;;;
           (fun '(_, sepIndices) => Ok (id, sepIndices)) ;;;
           push_back (from + idPrev)
      else skip) ;;;
     push_back (to + idPrev)) st.

Definition separatrixIndices (sc : SeparatrixCells) (idPrev : Z) : result (list Z) :=
  st ← forEach (seqZ 0 (numberOfCells sc)) (separatrixCell sc idPrev) (-1, []);
  Ok (snd st).

(** The strips of an index buffer: what lies between two restart
    indices. *)
Fixpoint strips (indices : list Z) : list (list Z) :=
  match indices with
  | [] => [[]]
  | x :: rest =>
      if x =? primitiveRestart then [] :: strips rest
      else match strips rest with
           | strip :: others => (x :: strip) :: others
           | [] => [[x]]
           end
  end.


(** The number of runs of equal values in [ids], counted from a value
    [prev] that precedes them. *)
Fixpoint runs (prev : Z) (ids : list Z) : nat :=
  match ids with
  | [] => 0
  | id :: rest => ((if (prev =? id)%Z then 0 else 1) + runs id rest)%nat
  end.


(** ** Tensor fields ([TensorField<N, precision>], tensorfield.h)

    A [glm] matrix is the list of its columns, a vector the list of its
    entries; [N] is the [unsigned int] parameter of the template.
    [modelMatrix] is what the default constructor of [matNb] leaves, which
    depends on how [glm] is configured. *)
Section TensorField.

Variable precision : Type.
Variables zero one : precision.

Definition extendBy (x : precision) (v : list precision) : list precision := v ++ [x].

(** [getBasisAndOffset], with [basis] and [offset] of the grid entity. *)
Definition getBasisAndOffset (N : Z) (basis : list (list precision)) (offset : list precision)
    (modelMatrix : list (list precision)) : list (list precision) :=
  let modelMatrix :=
    foldl (fun m i => <[Z.to_nat i := extendBy zero (default [] (basis !! Z.to_nat i))]> m)
          modelMatrix (seqZ 0 (to_uint32 (N - 1))) in
  <[Z.to_nat (to_uint32 (N - 1)) := extendBy one offset]> modelMatrix.

End TensorField.

(** [getBounds<size_t>]: [dimensions_ - sizeN_t(1)] in [size_t], and the
    maximum with 1 of every component. *)
Definition getBounds (dimensions : list Z) : list Z :=
  map (fun d => Z.max (to_size_t (d - 1)) 1) dimensions.


(** The voxels of a mask volume that belong to [group]: the mask holds
    [group + 1] there. *)
Definition voxelsOfGroup {F : Type} (L : Locals F) (maskVolume : MaskVolume) (group : Z)
  : list size3 :=
  filter (fun idx => to_int <$> (maskData maskVolume !! Z.to_nat (posToIndex idx (volumeDims L)))
                     = Some (group + 1))
         (forEachVoxel (maskDimensions maskVolume)).

(** The state of the columns "Num Voxels" after [c] voxels of [group]: the
    frame per group has counted each of them twice, the frame per group and
    time none. *)
Definition countedTwice {F : Type} (L : Locals F) (group : Z) (c : nat) (r : Run F) : Prop :=
  intAt PerGroup NumVoxels (Z.to_nat group) r = Some (to_int (2 * Z.of_nat c)) /\
  intColumn PerGroupPerTime NumVoxels r = replicate (Z.to_nat (numGroupTimeSteps L)) 0 /\
  length (intColumn PerGroup NumVoxels r) = Z.to_nat (numGroups L).


(** The state of the columns "Max Depth" in the rows of [group] and of
    the first time step: both hold [m]. *)
Definition deepest {F : Type} (L : Locals F) (group m : Z) (r : Run F) : Prop :=
  intAt PerGroup MaxDepth (Z.to_nat group) r = Some m /\
  intAt PerGroupPerTime MaxDepth (Z.to_nat group) r = Some m /\
  length (intColumn PerGroup NumVoxels r) = Z.to_nat (numGroups L).


(** * Properties *)

(** ** Machine integers *)

Lemma to_size_t_small z : 0 <= z < 2 ^ 64 -> to_size_t z = z.
Proof. intros Hz. unfold to_size_t. apply Z.mod_small. exact Hz. Qed.

Lemma to_int_small z : - 2 ^ 31 <= z < 2 ^ 31 -> to_int z = z.
Proof. intros Hz. unfold to_int. rewrite Z.mod_small; lia. Qed.

(** ** Lazy minimum and maximum *)

(** C8: an update of a running minimum or maximum takes the observed value
    when the accumulator holds the sentinel zero, and is [std::min]
    (respectively [std::max]) of accumulator and observed value otherwise;
    on the [int] columns an accumulator that is truly zero is thereby
    replaced by whatever comes next. *)
Theorem assign_min_max_lazy {T : Type} `{Num T} (vecVal val : T) :
  (num_is0 vecVal = true ->
     assignMin vecVal val = val /\ assignMax vecVal val = val) /\
  (num_is0 vecVal = false ->
     assignMin vecVal val = std_min vecVal val /\
     assignMax vecVal val = std_max vecVal val) /\
  (forall next : Z, assignMin 0 next = next /\ assignMax 0 next = next).
Proof.
  unfold assignMin, assignMax, std_min, std_max.
  split; [|split].
  - intros ->. split; destruct (num_ltb val val); reflexivity.
  - intros ->. split; reflexivity.
  - intros next. cbn. rewrite Z.ltb_irrefl. split; reflexivity.
Qed.

(** ** The number of groups *)



(** ** The assertion on the channel counts *)

(** With as many names as components the asserted condition holds only when
    there are no components at all. *)
Lemma channelCountAssertion_matching {F : Type} (L : Locals F) :
  colScalars L = numScalars L -> colTopScalars L = numTopScalars L ->
  channelCountAssertion L = true <-> numScalars L = 0%nat /\ numTopScalars L = 0%nat.
Proof.
  intros Hs Ht. unfold channelCountAssertion. rewrite Hs, Ht.
  rewrite andb_true_iff, !Z.eqb_eq. lia.
Qed.

(** C10: one scalar component with one declared name, and one surface
    component with one declared name: the asserted condition is false. *)
Theorem channelCountAssertion_fails :
  option_map channelCountAssertion (localsOf oneStepRun) = Some false /\
  option_map (fun L => (numScalars L, colScalars L, numTopScalars L, colTopScalars L))
             (localsOf oneStepRun) = Some (1%nat, 1%nat, 1%nat, 1%nat).
Proof. split; reflexivity. Qed.

(** ** Voxel counts *)

(** C1: one time step, one voxel of group 0, at depth 1; the seed depth is
    any other depth.  The voxel is counted twice in the row of group 0 of
    the frame per group (lines 404 and 405 both address [PerGroup]) and
    never in the frame per group and time: the sum over time is 0, the total
    per group is 2. *)
Theorem voxel_counts_disagree (SEED_DEPTH : Z) :
  SEED_DEPTH ≠ 1 ->
  exists perGroup perTime,
    intOutput dataOut_ NumVoxels (process SEED_DEPTH oneStepRun) = Some perGroup /\
    intOutput perGroupDataOut_ NumVoxels (process SEED_DEPTH oneStepRun) = Some perTime /\
    perGroup !! 0%nat = Some 2 /\
    sumOverTime 2 1 perTime 0 = 0.
Proof.
  intros Hseed. exists [2; 0], [0; 0].
  destruct SEED_DEPTH as [|[p|p|]|p]; try contradiction;
    repeat split; vm_compute; reflexivity.
Qed.

Lemma voxel_counts_disagree_witness :
  exists perGroup perTime,
    intOutput dataOut_ NumVoxels (process seedDepth oneStepRun) = Some perGroup /\
    intOutput perGroupDataOut_ NumVoxels (process seedDepth oneStepRun) = Some perTime /\
    perGroup !! 0%nat = Some 2 /\
    sumOverTime 2 1 perTime 0 = 0.
Proof. apply (voxel_counts_disagree seedDepth). discriminate. Defined.

(** ** Contributions to the parent group *)

(** C2: group 1 has parent 0 and one voxel with scalar value 6.  When the
    pass of group 1 reaches the roll-up, its row of the frame per group and
    time holds the sum 6; the roll-up adds it to the row of group 0 in the
    frame per group, and to the row of group 1 itself (not of group 0) in
    the frame per group and time, since [parentGroupTime] is computed from
    [group].  The loop then reaches the columns of [colTopScalars], and the
    run ends there. *)
Theorem parent_row_not_updated :
  exists before after,
    nestedBeforeRollUp = Ok before /\
    (addSizesToParent nestedLocals 0 1 1 0 ;;;
     parentScalarSums nestedLocals 1 1 0 1 0%nat) before = Ok after /\
    floatColumn PerGroupPerTime (Average 0) before = [0; 6; 0]%float /\
    floatColumn PerGroup (Average 0) before = [0; 6; 0]%float /\
    floatColumn PerGroup (Average 0) after = [6; 6; 0]%float /\
    floatColumn PerGroupPerTime (Average 0) after = [0; 12; 0]%float /\
    process seedDepth nestedRun = Throw NullColumn.
Proof.
  destruct nestedBeforeRollUp as [before|e] eqn:Hbefore; [|vm_compute in Hbefore; discriminate].
  destruct ((addSizesToParent nestedLocals 0 1 1 0 ;;;
             parentScalarSums nestedLocals 1 1 0 1 0%nat) before) as [after|e] eqn:Hafter.
  - exists before, after.
    assert (Hb : Ok before = nestedBeforeRollUp) by (symmetry; exact Hbefore).
    clear Hbefore. vm_compute in Hb. injection Hb as ->.
    vm_compute in Hafter. injection Hafter as <-.
    repeat split; vm_compute; reflexivity.
  - exfalso. assert (Hb : Ok before = nestedBeforeRollUp) by (symmetry; exact Hbefore).
    clear Hbefore. vm_compute in Hb. injection Hb as ->.
    vm_compute in Hafter. discriminate.
Qed.

(** ** Exceptions *)

(** C3: two time steps, one voxel of group 0 in the second.  Line 405 reads
    [colNumVoxels.PerGroup->at(idxGroupTime)] with [idxGroupTime = 2] on a
    column of 2 rows: [std::out_of_range] leaves [process], whatever the
    seed depth. *)
Theorem process_throws_out_of_range (SEED_DEPTH : Z) :
  process SEED_DEPTH lateVoxelRun = Throw OutOfRange.
Proof. destruct SEED_DEPTH; vm_compute; reflexivity. Qed.

(** ** Travelled distance *)

(** C4: two time steps, the centre of group 0 recorded at (3, 4) in both.
    The path through the recorded centres has length 0; the distance the
    run records is 5, the distance of (3, 4) from the initial value (0, 0)
    of [prevCenters], which the branch of the first recorded time does not
    update. *)
Theorem travel_counts_from_origin :
  exists travel xs ys,
    floatOutput dataOut_ Travel (process seedDepth earlyVoxelRun) = Some travel /\
    floatOutput perGroupDataOut_ CenterX (process seedDepth earlyVoxelRun) = Some xs /\
    floatOutput perGroupDataOut_ CenterY (process seedDepth earlyVoxelRun) = Some ys /\
    recordedCenters 2 2 xs ys 0 = [(3, 4); (3, 4)]%float /\
    pathLength (recordedCenters 2 2 xs ys 0) = 0%float /\
    travel !! 0%nat = Some 5%float.
Proof.
  do 3 eexists.
  split; [vm_compute; reflexivity|].
  split; [vm_compute; reflexivity|].
  split; [vm_compute; reflexivity|].
  repeat split; vm_compute; reflexivity.
Qed.

(** ** Effects of the statements *)

Section Effects.

Context {F : Type} `{FloatOps F}.

Implicit Types (r : Run F) (fr : Frame) (c : FloatName) (k : IntName).

Lemma seq_stmt_Ok {S : Type} (c1 c2 : S -> result S) (s s' : S) :
  (c1 ;;; c2) s = Ok s' <-> exists s1, c1 s = Ok s1 /\ c2 s1 = Ok s'.
Proof.
  unfold seq_stmt. cbn. destruct (c1 s) as [s1|e]; cbn.
  - split; [eauto|]. intros (s2 & [= ->] & Hs). exact Hs.
  - split; [discriminate|]. intros (s2 & [=] & _).
Qed.

Lemma floatColumn_setFloatColumn fr c l r fr' c' :
  floatColumn fr' c' (setFloatColumn fr c l r) =
  if decide (fr = fr' /\ c = c') then l else floatColumn fr' c' r.
Proof.
  unfold floatColumn, setFloatColumn.
  destruct fr, fr'; cbn; case_decide as Hd;
    try (destruct Hd as [_ ->]; apply fn_lookup_insert);
    try (destruct Hd; discriminate);
    try reflexivity;
    apply fn_lookup_insert_ne; intros ->; apply Hd; split; reflexivity.
Qed.

Lemma floatColumn_setIntColumn fr k l r fr' c' :
  floatColumn fr' c' (setIntColumn fr k l r) = floatColumn fr' c' r.
Proof. destruct fr, fr'; reflexivity. Qed.

Lemma intColumn_setFloatColumn fr c l r fr' k' :
  intColumn fr' k' (setFloatColumn fr c l r) = intColumn fr' k' r.
Proof. destruct fr, fr'; reflexivity. Qed.

Lemma intColumn_setIntColumn fr k l r fr' k' :
  intColumn fr' k' (setIntColumn fr k l r) =
  if decide (fr = fr' /\ k = k') then l else intColumn fr' k' r.
Proof.
  unfold intColumn, setIntColumn.
  destruct fr, fr'; cbn; case_decide as Hd;
    try (destruct Hd as [_ ->]; apply fn_lookup_insert);
    try (destruct Hd; discriminate);
    try reflexivity;
    apply fn_lookup_insert_ne; intros ->; apply Hd; split; reflexivity.
Qed.

(** What a write does when it returns. *)
Lemma writeF_Ok a fr c i v r r' :
  writeF a fr c i v r = Ok r' ->
  (Z.to_nat i < length (floatColumn fr c r))%nat /\
  r' = setFloatColumn fr c (<[Z.to_nat i := v]> (floatColumn fr c r)) r.
Proof. unfold writeF. case_decide; [|discriminate]. intros [= <-]. split; auto. Qed.

Lemma writeI_Ok a fr k i v r r' :
  writeI a fr k i v r = Ok r' ->
  (Z.to_nat i < length (intColumn fr k r))%nat /\
  r' = setIntColumn fr k (<[Z.to_nat i := v]> (intColumn fr k r)) r.
Proof. unfold writeI. case_decide; [|discriminate]. intros [= <-]. split; auto. Qed.

Lemma readF_Ok a fr c i r v :
  readF a fr c i r = Ok v <-> floatAt fr c (Z.to_nat i) r = Some v.
Proof.
  unfold readF, floatAt. destruct (floatColumn fr c r !! Z.to_nat i); split; congruence.
Qed.

Lemma readI_Ok a fr k i r v :
  readI a fr k i r = Ok v <-> intAt fr k (Z.to_nat i) r = Some v.
Proof.
  unfold readI, intAt. destruct (intColumn fr k r !! Z.to_nat i); split; congruence.
Qed.

Lemma modifyF_Ok a fr c i f r r' :
  modifyF a fr c i f r = Ok r' ->
  exists v, floatAt fr c (Z.to_nat i) r = Some v /\
            r' = setFloatColumn fr c (<[Z.to_nat i := f v]> (floatColumn fr c r)) r.
Proof.
  unfold modifyF. cbn. destruct (readF a fr c i r) as [v|e] eqn:Hr; [|discriminate].
  cbn. intros (_ & ->)%writeF_Ok. exists v. split; [|reflexivity]. by apply readF_Ok in Hr.
Qed.

Lemma modifyI_Ok a fr k i f r r' :
  modifyI a fr k i f r = Ok r' ->
  exists v, intAt fr k (Z.to_nat i) r = Some v /\
            r' = setIntColumn fr k (<[Z.to_nat i := f v]> (intColumn fr k r)) r.
Proof.
  unfold modifyI. cbn. destruct (readI a fr k i r) as [v|e] eqn:Hr; [|discriminate].
  cbn. intros (_ & ->)%writeI_Ok. exists v. split; [|reflexivity]. by apply readI_Ok in Hr.
Qed.

(** Preservation is closed under the ways statements are put together. *)
Lemma preserves_skip {A} (obs : Run F -> A) : preserves obs skip.
Proof. intros r r' [= ->]. reflexivity. Qed.

Lemma preserves_seq {A} (obs : Run F -> A) (s1 s2 : Run F -> result (Run F)) :
  preserves obs s1 -> preserves obs s2 -> preserves obs (s1 ;;; s2).
Proof.
  intros H1 H2 r r' (r1 & Hc1 & Hc2)%seq_stmt_Ok.
  rewrite (H2 _ _ Hc2). apply (H1 _ _ Hc1).
Qed.

Lemma preserves_forEach {A B} (obs : Run F -> A) (xs : list B) body :
  (forall x, preserves obs (body x)) -> preserves obs (forEach xs body).
Proof.
  intros Hbody. induction xs as [|x xs IH]; intros r r'; cbn.
  - intros [= ->]. reflexivity.
  - destruct (body x r) as [r1|e] eqn:Hx; cbn; [|discriminate].
    intros Hrest. rewrite (IH _ _ Hrest). apply (Hbody x _ _ Hx).
Qed.

Lemma preserves_if {A} (obs : Run F -> A) (b : bool) (s1 s2 : Run F -> result (Run F)) :
  preserves obs s1 -> preserves obs s2 -> preserves obs (if b then s1 else s2).
Proof. destruct b; auto. Qed.

Lemma preserves_readI {A} (obs : Run F -> A) a fr k i (body : Z -> Run F -> result (Run F)) :
  (forall v, preserves obs (body v)) ->
  preserves obs (fun r => v ← readI a fr k i r; body v r).
Proof.
  intros Hbody r r'. cbn. destruct (readI a fr k i r) as [v|e]; cbn; [|discriminate].
  apply Hbody.
Qed.

Lemma preserves_readF {A} (obs : Run F -> A) a fr c i (body : F -> Run F -> result (Run F)) :
  (forall v, preserves obs (body v)) ->
  preserves obs (fun r => v ← readF a fr c i r; body v r).
Proof.
  intros Hbody r r'. cbn. destruct (readF a fr c i r) as [v|e]; cbn; [|discriminate].
  apply Hbody.
Qed.

(** A write leaves every other row alone. *)
Lemma writeF_floatAt a fr c i v fr' c' i' :
  (fr, c, Z.to_nat i) ≠ (fr', c', i') ->
  preserves (F:=F) (floatAt fr' c' i') (writeF a fr c i v).
Proof.
  intros Hne r r' (_ & ->)%writeF_Ok. unfold floatAt.
  rewrite floatColumn_setFloatColumn. case_decide as Hd; [|reflexivity].
  destruct Hd as [-> ->]. apply list_lookup_insert_ne. congruence.
Qed.

Lemma writeF_intAt a fr c i v fr' k' i' :
  preserves (F:=F) (intAt fr' k' i') (writeF a fr c i v).
Proof.
  intros r r' (_ & ->)%writeF_Ok. unfold intAt.
  rewrite intColumn_setFloatColumn. reflexivity.
Qed.

Lemma writeI_intAt a fr k i v fr' k' i' :
  (fr, k, Z.to_nat i) ≠ (fr', k', i') ->
  preserves (F:=F) (intAt fr' k' i') (writeI a fr k i v).
Proof.
  intros Hne r r' (_ & ->)%writeI_Ok. unfold intAt.
  rewrite intColumn_setIntColumn. case_decide as Hd; [|reflexivity].
  destruct Hd as [-> ->]. apply list_lookup_insert_ne. congruence.
Qed.

Lemma writeI_floatAt a fr k i v fr' c' i' :
  preserves (F:=F) (floatAt fr' c' i') (writeI a fr k i v).
Proof.
  intros r r' (_ & ->)%writeI_Ok. unfold floatAt.
  rewrite floatColumn_setIntColumn. reflexivity.
Qed.

Lemma modifyF_floatAt a fr c i f fr' c' i' :
  (fr, c, Z.to_nat i) ≠ (fr', c', i') ->
  preserves (F:=F) (floatAt fr' c' i') (modifyF a fr c i f).
Proof. intros Hne. apply preserves_readF. intros v. by apply writeF_floatAt. Qed.

Lemma modifyF_intAt a fr c i f fr' k' i' :
  preserves (F:=F) (intAt fr' k' i') (modifyF a fr c i f).
Proof. apply preserves_readF. intros v. apply writeF_intAt. Qed.

Lemma modifyI_intAt a fr k i f fr' k' i' :
  (fr, k, Z.to_nat i) ≠ (fr', k', i') ->
  preserves (F:=F) (intAt fr' k' i') (modifyI a fr k i f).
Proof. intros Hne. apply preserves_readI. intros v. by apply writeI_intAt. Qed.

Lemma modifyI_floatAt a fr k i f fr' c' i' :
  preserves (F:=F) (floatAt fr' c' i') (modifyI a fr k i f).
Proof. apply preserves_readI. intros v. apply writeI_floatAt. Qed.

Lemma addI_floatAt fr k i sfr sk si fr' c' i' :
  preserves (F:=F) (floatAt fr' c' i') (addI fr k i sfr sk si).
Proof. apply preserves_readI. intros v. apply modifyI_floatAt. Qed.

Lemma addI_intAt fr k i sfr sk si fr' k' i' :
  (fr, k, Z.to_nat i) ≠ (fr', k', i') ->
  preserves (F:=F) (intAt fr' k' i') (addI fr k i sfr sk si).
Proof. intros Hne. apply preserves_readI. intros v. by apply modifyI_intAt. Qed.

Lemma addF_floatAt fr c i sfr sc si fr' c' i' :
  (fr, c, Z.to_nat i) ≠ (fr', c', i') ->
  preserves (F:=F) (floatAt fr' c' i') (addF fr c i sfr sc si).
Proof. intros Hne. apply preserves_readF. intros v. by apply modifyF_floatAt. Qed.

Lemma addF_intAt fr c i sfr sc si fr' k' i' :
  preserves (F:=F) (intAt fr' k' i') (addF fr c i sfr sc si).
Proof. apply preserves_readF. intros v. apply modifyF_intAt. Qed.

Lemma assignF_floatAt op fr c i sfr sc si fr' c' i' :
  (fr, c, Z.to_nat i) ≠ (fr', c', i') ->
  preserves (F:=F) (floatAt fr' c' i') (assignF op fr c i sfr sc si).
Proof. intros Hne. apply preserves_readF. intros v. by apply modifyF_floatAt. Qed.

Lemma assignF_intAt op fr c i sfr sc si fr' k' i' :
  preserves (F:=F) (intAt fr' k' i') (assignF op fr c i sfr sc si).
Proof. apply preserves_readF. intros v. apply modifyF_intAt. Qed.

Lemma divideBy_floatAt fr c i a cnt j fr' c' i' :
  (fr, c, Z.to_nat i) ≠ (fr', c', i') ->
  preserves (F:=F) (floatAt fr' c' i') (divideBy fr c i a cnt j).
Proof. intros Hne. apply preserves_readI. intros v. by apply modifyF_floatAt. Qed.

Lemma divideBy_intAt fr c i a cnt j fr' k' i' :
  preserves (F:=F) (intAt fr' k' i') (divideBy fr c i a cnt j).
Proof. apply preserves_readI. intros v. apply modifyF_intAt. Qed.

Lemma colScalarsAt_preserves {A} (obs : Run F -> A) (L : Locals F) s :
  preserves obs (colScalarsAt L s).
Proof. intros r r'. unfold colScalarsAt. case_decide; [|discriminate]. by intros [= ->]. Qed.

Lemma colTopScalarsAt_preserves {A} (obs : Run F -> A) (L : Locals F) s :
  preserves obs (colTopScalarsAt L s).
Proof. intros r r'. unfold colTopScalarsAt. discriminate. Qed.

Lemma setPrevCenter_floatAt group ctr fr' c' i' :
  preserves (F:=F) (floatAt fr' c' i') (setPrevCenter group ctr).
Proof.
  intros r r'. unfold setPrevCenter. case_decide; [|discriminate]. intros [= <-].
  destruct fr'; reflexivity.
Qed.

Lemma setPrevCenter_intAt group ctr fr' k' i' :
  preserves (F:=F) (intAt fr' k' i') (setPrevCenter group ctr).
Proof.
  intros r r'. unfold setPrevCenter. case_decide; [|discriminate]. intros [= <-].
  destruct fr'; reflexivity.
Qed.

Ltac preserves_step :=
  first
    [ apply preserves_seq
    | apply preserves_skip
    | apply preserves_if
    | apply preserves_forEach; intros ?
    | apply colScalarsAt_preserves
    | apply colTopScalarsAt_preserves
    | apply writeF_intAt | apply writeI_floatAt
    | apply modifyF_intAt | apply modifyI_floatAt
    | apply addF_intAt | apply addI_floatAt
    | apply assignF_intAt | apply divideBy_intAt
    | apply setPrevCenter_floatAt | apply setPrevCenter_intAt
    | apply writeF_floatAt; congruence
    | apply writeI_intAt; congruence
    | apply modifyF_floatAt; congruence
    | apply modifyI_intAt; congruence
    | apply addF_floatAt; congruence
    | apply addI_intAt; congruence
    | apply assignF_floatAt; congruence
    | apply divideBy_floatAt; congruence ].

Ltac preserves_tac := repeat preserves_step.

(** The roll-up to the parent writes the count columns and the columns of
    the scalars only. *)
Lemma addToParent_perTime (L : Locals F) time group idx pos c' i' :
  (forall s, c' ≠ Surface s) -> (forall s, c' ≠ Average s) ->
  (forall s, c' ≠ SMin s) -> (forall s, c' ≠ SMax s) ->
  preserves (F:=F) (floatAt PerGroupPerTime c' i') (addToParent L time group idx pos).
Proof.
  intros HS HA Hmin Hmax. unfold addToParent, addSizesToParent, parentScalarLoop, parentScalarSums.
  pose proof (HS 0%nat). pose proof (HA 0%nat). pose proof (Hmin 0%nat). pose proof (Hmax 0%nat).
  preserves_tac;
    match goal with s : nat |- _ =>
      pose proof (HS s); pose proof (HA s); pose proof (Hmin s); pose proof (Hmax s)
    end; preserves_tac.
Qed.

(** With at least one scalar the roll-up cannot return: each round of its
    loop ends at the columns of [colTopScalars]. *)
Lemma addToParent_Ok (L : Locals F) time group idx pos r r' :
  (0 < numScalars L)%nat ->
  addToParent L time group idx pos r = Ok r' -> r' = r.
Proof.
  intros Hn. unfold addToParent.
  destruct (_ && _); [|by intros [= ->]].
  intros (r1 & _ & Hloop)%seq_stmt_Ok. exfalso.
  destruct (numScalars L) as [|n]; [lia|]. cbn in Hloop.
  destruct (parentScalarLoop _ _ _ _ _ _ r1) as [r2|e] eqn:Hround; [|discriminate].
  apply seq_stmt_Ok in Hround as (r3 & _ & Htop). discriminate.
Qed.

Lemma recordCenter_perTime (vortex : Vortex F) time group idx c' i' :
  c' ≠ CenterX -> c' ≠ CenterY ->
  preserves (F:=F) (floatAt PerGroupPerTime c' i') (recordCenter vortex time group idx).
Proof.
  intros HX HY. unfold recordCenter. preserves_tac.
  apply preserves_readI. intros st r r'.
  destruct (negb (time =? st)).
  - destruct (prevCenters r !! Z.to_nat group) as [prev|]; [|discriminate].
    revert r r'. change (preserves (F:=F) (floatAt PerGroupPerTime c' i')
      (modifyF Subscript PerGroup Travel group (fun v => fadd v (distance (center vortex) prev)) ;;;
       setPrevCenter group (center vortex) ;;;
       writeF Subscript PerGroup EndX group (fst (center vortex)) ;;;
       writeF Subscript PerGroup EndY group (snd (center vortex)))).
    preserves_tac.
  - revert r r'. change (preserves (F:=F) (floatAt PerGroupPerTime c' i')
      (writeF Subscript PerGroup StartX group (fst (center vortex)) ;;;
       writeF Subscript PerGroup StartY group (snd (center vortex)))).
    preserves_tac.
Qed.

(** The row of the aspect ratio after lines 533-539. *)
Lemma recordAspectRatio_Ok (vortex : Vortex F) group idx r r' :
  recordAspectRatio vortex group idx r = Ok r' ->
  floatAt PerGroupPerTime AspectRatio (Z.to_nat idx) r' =
  Some (if fisfinite (fdiv (maxRadius vortex) (minRadius vortex))
        then fdiv (maxRadius vortex) (minRadius vortex) else fnan).
Proof.
  unfold recordAspectRatio. destruct (fisfinite _).
  - intros (r1 & Hw & Hm)%seq_stmt_Ok.
    rewrite (modifyF_floatAt At PerGroup AspectRatio group _ PerGroupPerTime AspectRatio
               (Z.to_nat idx) ltac:(congruence) _ _ Hm).
    apply writeF_Ok in Hw as (Hlen & ->). unfold floatAt.
    rewrite floatColumn_setFloatColumn, decide_True by done.
    by apply list_lookup_insert_eq.
  - intros (Hlen & ->)%writeF_Ok. unfold floatAt.
    rewrite floatColumn_setFloatColumn, decide_True by done.
    by apply list_lookup_insert_eq.
Qed.

Lemma averagesPerTime_other (L : Locals F) idx c' i' :
  (forall s, (Surface s, Z.to_nat idx) ≠ (c', i')) ->
  (forall s, (Average s, Z.to_nat idx) ≠ (c', i')) ->
  preserves (F:=F) (floatAt PerGroupPerTime c' i') (averagesPerTime L idx).
Proof.
  intros HS HA. unfold averagesPerTime. apply preserves_seq.
  - apply preserves_readI. intros n r r'. destruct (0 <? n); [|by intros [= ->]].
    revert r r'. apply preserves_forEach. intros s. pose proof (HS s). preserves_tac.
  - apply preserves_readI. intros n r r'. destruct (0 <? n); [|by intros [= ->]].
    revert r r'. apply preserves_forEach. intros s. pose proof (HA s). preserves_tac.
Qed.

(** The pass of one group writes row [idxGroupTime] of the frame per group
    and time, and no other row of it. *)
Lemma finalizeGroup_other_row (SEED_DEPTH : Z) (L : Locals F) time group c' i' :
  i' ≠ Z.to_nat (to_size_t (numGroups L * time + group)) ->
  preserves (F:=F) (floatAt PerGroupPerTime c' i') (finalizeGroup SEED_DEPTH L time group).
Proof.
  intros Hne. unfold finalizeGroup.
  apply preserves_seq; [preserves_tac|].
  apply preserves_seq; [preserves_tac|].
  apply preserves_seq; [apply averagesPerTime_other; congruence|].
  intros r r'. destruct (list_find _ _) as [[pos vortex]|]; [|by intros [= <-]].
  revert r r'.
  change (preserves (F:=F) (floatAt PerGroupPerTime c' i')
    (addToParent L time group (to_size_t (numGroups L * time + group)) pos ;;;
     recordAspectRatio vortex group (to_size_t (numGroups L * time + group)) ;;;
     writeF At PerGroupPerTime AvgRadius (to_size_t (numGroups L * time + group))
            (avgRadius vortex) ;;;
     modifyF At PerGroup AvgRadius group (fun v => fadd v (avgRadius vortex)) ;;;
     writeI Subscript PerGroup Rotation group
            (match rotation vortex with Clockwise => 0 | CounterClockwise => 1 end) ;;;
     recordCenter vortex time group (to_size_t (numGroups L * time + group)))).
  apply preserves_seq.
  { unfold addToParent, addSizesToParent, parentScalarLoop, parentScalarSums. preserves_tac. }
  apply preserves_seq.
  { unfold recordAspectRatio. preserves_tac. }
  do 3 (apply preserves_seq; [preserves_tac|]).
  unfold recordCenter. preserves_tac.
  apply preserves_readI. intros st r r'.
  destruct (negb (time =? st)).
  - destruct (prevCenters r !! Z.to_nat group) as [prev|]; [|discriminate].
    revert r r'. change (preserves (F:=F) (floatAt PerGroupPerTime c' i')
      (modifyF Subscript PerGroup Travel group (fun v => fadd v (distance (center vortex) prev)) ;;;
       setPrevCenter group (center vortex) ;;;
       writeF Subscript PerGroup EndX group (fst (center vortex)) ;;;
       writeF Subscript PerGroup EndY group (snd (center vortex)))).
    preserves_tac.
  - revert r r'. change (preserves (F:=F) (floatAt PerGroupPerTime c' i')
      (writeF Subscript PerGroup StartX group (fst (center vortex)) ;;;
       writeF Subscript PerGroup StartY group (snd (center vortex)))).
    preserves_tac.
Qed.

(** The row of the aspect ratio after the pass of a group whose record on
    the seed depth is [vortex]. *)
Lemma finalizeGroup_aspectRatio (SEED_DEPTH : Z) (L : Locals F) time group pos
    (vortex : Vortex F) r r' :
  list_find (fun vort => heightSlice vort = SEED_DEPTH) (groupRange L group) = Some (pos, vortex) ->
  finalizeGroup SEED_DEPTH L time group r = Ok r' ->
  floatAt PerGroupPerTime AspectRatio (Z.to_nat (to_size_t (numGroups L * time + group))) r' =
  Some (if fisfinite (fdiv (maxRadius vortex) (minRadius vortex))
        then fdiv (maxRadius vortex) (minRadius vortex) else fnan).
Proof.
  intros Hfind. unfold finalizeGroup.
  intros (r1 & _ & (r2 & _ & (r3 & _ & Hrest)%seq_stmt_Ok)%seq_stmt_Ok)%seq_stmt_Ok.
  rewrite Hfind in Hrest.
  apply seq_stmt_Ok in Hrest as (r4 & _ & (r5 & Hratio & Htail)%seq_stmt_Ok).
  apply recordAspectRatio_Ok in Hratio. rewrite <- Hratio.
  revert Htail. generalize r5 r'.
  change (preserves (F:=F)
    (floatAt PerGroupPerTime AspectRatio (Z.to_nat (to_size_t (numGroups L * time + group))))
    (writeF At PerGroupPerTime AvgRadius (to_size_t (numGroups L * time + group))
            (avgRadius vortex) ;;;
     modifyF At PerGroup AvgRadius group (fun v => fadd v (avgRadius vortex)) ;;;
     writeI Subscript PerGroup Rotation group
            (match rotation vortex with Clockwise => 0 | CounterClockwise => 1 end) ;;;
     recordCenter vortex time group (to_size_t (numGroups L * time + group)))).
  do 3 (apply preserves_seq; [preserves_tac|]).
  apply recordCenter_perTime; discriminate.
Qed.

Lemma preserves_elim {A} (obs : Run F -> A) (st : Run F -> result (Run F)) r r' :
  preserves obs st -> st r = Ok r' -> obs r' = obs r.
Proof. intros Hp. apply Hp. Qed.

Ltac by_preserves :=
  let Hc := fresh "Hc" in
  intros Hc;
  match type of Hc with
  | ?st ?r0 = Ok ?r1 =>
      match goal with
      | |- ?o r1 = ?o r0 => apply (preserves_elim o st r0 r1); [|exact Hc]
      end
  end.

(** Loops. *)
Lemma preserves_forEach_in {A B} (obs : Run F -> A) (xs : list B) body :
  (forall x, x ∈ xs -> preserves obs (body x)) -> preserves obs (forEach xs body).
Proof.
  induction xs as [|x xs IH]; intros Hbody r r'; cbn.
  - intros [= ->]. reflexivity.
  - destruct (body x r) as [r1|e] eqn:Hx; cbn; [|discriminate].
    intros Hrest. rewrite (IH (fun y Hy => Hbody y (list_elem_of_further _ _ _ Hy)) _ _ Hrest).
    apply (Hbody x (list_elem_of_here _ _) _ _ Hx).
Qed.

(** In a loop over distinct values whose rounds other than [x] preserve an
    observation, what round [x] does to the observation is what the loop
    does to it. *)
Lemma forEach_at {A B} (obs : Run F -> B) (R : B -> B -> Prop) (xs : list A) body x r r' :
  NoDup xs -> x ∈ xs ->
  (forall y, y ∈ xs -> y ≠ x -> preserves obs (body y)) ->
  (forall r1 r2, body x r1 = Ok r2 -> R (obs r1) (obs r2)) ->
  forEach xs body r = Ok r' -> R (obs r) (obs r').
Proof.
  intros Hnd Hin Hother Hx. revert r Hnd Hin Hother.
  induction xs as [|a xs IH]; intros r Hnd Hin Hother; [by apply elem_of_nil in Hin|].
  pose proof (NoDup_cons_1_1 _ _ Hnd) as Ha. apply NoDup_cons_1_2 in Hnd. cbn.
  destruct (body a r) as [r1|e] eqn:Hbody; cbn; [|discriminate].
  intros Hrest. apply elem_of_cons in Hin as [->|Hin].
  - assert (Hp : preserves obs (forEach xs body)).
    { apply preserves_forEach_in. intros y Hy. apply Hother.
      - by apply list_elem_of_further.
      - intros ->. contradiction. }
    rewrite (Hp _ _ Hrest). by apply Hx.
  - assert (Hne : a ≠ x) by (intros ->; contradiction).
    rewrite <- (Hother a (list_elem_of_here _ _) Hne _ _ Hbody).
    apply IH; [done..| |done].
    intros y Hy. apply Hother. by apply list_elem_of_further.
Qed.

(** The callback per voxel writes the columns of the scalars only, among
    the [float] columns. *)
Lemma indexCallback_other (SEED_DEPTH : Z) (L : Locals F) time mask
    (scalarVol : ScalarVolume F) idx fr' c' i' :
  (forall s, c' ≠ Surface s) -> (forall s, c' ≠ Average s) ->
  (forall s, c' ≠ SMin s) -> (forall s, c' ≠ SMax s) ->
  preserves (F:=F) (floatAt fr' c' i') (indexCallback SEED_DEPTH L time mask scalarVol idx).
Proof.
  intros HS HA Hmin Hmax r r'. unfold indexCallback.
  destruct (mask !! _) as [m|]; [|discriminate].
  destruct (to_int m <=? 0); [by intros [= ->]|].
  destruct (to_int m >=? to_int (numGroups L)); [by intros [= ->]|].
  by_preserves.
  apply preserves_seq; [apply preserves_readI; intros st; preserves_tac|].
  apply preserves_seq; [apply preserves_readI; intros st; preserves_tac|].
  do 4 (apply preserves_seq; [preserves_tac|]).
  apply preserves_seq.
  { apply preserves_forEach. intros s. unfold scalarLoop.
    pose proof (HA s). pose proof (Hmin s). pose proof (Hmax s). preserves_tac. }
  apply preserves_if; [preserves_tac|].
  do 2 (apply preserves_seq; [preserves_tac|]).
  apply preserves_seq; [|preserves_tac].
  apply preserves_forEach. intros s. unfold surfaceLoop. pose proof (HS s). preserves_tac.
Qed.

(** The last pass writes the frame per group only. *)
Lemma finalLoop_perTime (L : Locals F) c' i' :
  preserves (F:=F) (floatAt PerGroupPerTime c' i') (finalLoop L).
Proof.
  unfold finalLoop. apply preserves_forEach. intros group. unfold finalGroup.
  apply preserves_seq; [preserves_tac|].
  apply preserves_readI. intros lifeTime r r'.
  destruct (lifeTime =? 0); [by intros [= ->]|].
  by_preserves.
  do 2 (apply preserves_seq; [preserves_tac|]).
  unfold averagesPerGroup. apply preserves_seq.
  - apply preserves_readI. intros n r1 r2. destruct (0 <? n); [|by intros [= ->]].
    by_preserves. preserves_tac.
  - apply preserves_readI. intros n r1 r2. destruct (0 <? n); [|by intros [= ->]].
    by_preserves. preserves_tac.
Qed.

Lemma row_small (L : Locals F) t g :
  sizesFit L -> 0 <= t < numTimeSteps L -> 0 <= g < numGroups L ->
  0 <= numGroups L * t + g < 2 ^ 64.
Proof.
  intros [HN HT] Ht Hg.
  assert (0 <= numGroups L * t) by (apply Z.mul_nonneg_nonneg; lia).
  assert (numGroups L * t <= 2 ^ 31 * 2 ^ 31) by (apply Z.mul_le_mono_nonneg; lia).
  lia.
Qed.

Lemma row_inj (L : Locals F) t g t' g' :
  sizesFit L ->
  0 <= t < numTimeSteps L -> 0 <= g < numGroups L ->
  0 <= t' < numTimeSteps L -> 0 <= g' < numGroups L ->
  row L t g = row L t' g' -> t = t' /\ g = g'.
Proof.
  intros Hfit Ht Hg Ht' Hg'. unfold row.
  pose proof (row_small L t g Hfit Ht Hg). pose proof (row_small L t' g' Hfit Ht' Hg').
  rewrite !to_size_t_small by done. intros Heq%Z2Nat.inj; [|lia..].
  destruct (decide (t = t')) as [->|Hne]; [lia|]. exfalso.
  destruct (Z.lt_total t t') as [Hlt|[Heq'|Hlt]]; [|done|].
  - assert (numGroups L * (t + 1) <= numGroups L * t') by (apply Z.mul_le_mono_nonneg_l; lia).
    lia.
  - assert (numGroups L * (t' + 1) <= numGroups L * t) by (apply Z.mul_le_mono_nonneg_l; lia).
    lia.
Qed.

Lemma finalize_groups (L : Locals F) g :
  sizesFit L ->
  g ∈ reverse (seqZ 0 (to_int (to_size_t (numGroups L - 1)) + 1)) <-> 0 <= g < numGroups L.
Proof.
  intros [HN HT]. rewrite elem_of_reverse, elem_of_seqZ.
  destruct (decide (numGroups L = 0)) as [->|Hne].
  - change (to_int (to_size_t (0 - 1))) with (-1). lia.
  - rewrite to_size_t_small, to_int_small by lia. lia.
Qed.

(** ** The aspect ratio through the loops *)

Lemma timeStep_aspectRatio (SEED_DEPTH : Z) (L : Locals F) masks scalars t g pos
    (vortex : Vortex F) r r' :
  sizesFit L -> 0 <= t < numTimeSteps L -> 0 <= g < numGroups L ->
  list_find (fun vort => heightSlice vort = SEED_DEPTH) (groupRange L g) = Some (pos, vortex) ->
  timeStep SEED_DEPTH L masks scalars t r = Ok r' ->
  floatAt PerGroupPerTime AspectRatio (row L t g) r' = Some (aspectRatioOf vortex).
Proof.
  intros Hfit Ht Hg Hfind. unfold timeStep.
  destruct (masks !! _) as [maskVolume|]; [|discriminate].
  destruct (scalars !! _) as [scalarVol|]; [|discriminate].
  intros (r1 & _ & Hloop)%seq_stmt_Ok.
  refine (forEach_at (floatAt PerGroupPerTime AspectRatio (row L t g))
            (fun _ o => o = Some (aspectRatioOf vortex)) _ _ g r1 r' _ _ _ _ Hloop).
  - rewrite reverse_Permutation. apply NoDup_seqZ.
  - by apply finalize_groups.
  - intros y Hy%finalize_groups Hne; [|done]. apply finalizeGroup_other_row.
    intros Heq. apply (row_inj L t g t y) in Heq; [|done..]. by destruct Heq as [_ ->].
  - intros r2 r3. by apply (finalizeGroup_aspectRatio _ _ _ _ pos).
Qed.

Lemma timeStep_other_time (SEED_DEPTH : Z) (L : Locals F) masks scalars t g t' :
  sizesFit L -> 0 <= t < numTimeSteps L -> 0 <= g < numGroups L ->
  0 <= t' < numTimeSteps L -> t' ≠ t ->
  preserves (F:=F) (floatAt PerGroupPerTime AspectRatio (row L t g))
            (timeStep SEED_DEPTH L masks scalars t').
Proof.
  intros Hfit Ht Hg Ht' Hne r r'. unfold timeStep.
  destruct (masks !! _) as [maskVolume|]; [|discriminate].
  destruct (scalars !! _) as [scalarVol|]; [|discriminate].
  by_preserves. apply preserves_seq.
  - apply preserves_forEach. intros idx. by apply indexCallback_other.
  - apply preserves_forEach_in. intros y Hy%finalize_groups; [|done].
    apply finalizeGroup_other_row.
    intros Heq. apply (row_inj L t g t' y) in Heq; [|done..]. by destruct Heq as [-> _].
Qed.

Lemma timeLoop_aspectRatio (SEED_DEPTH : Z) (L : Locals F) masks scalars t g pos
    (vortex : Vortex F) r r' :
  sizesFit L -> 0 <= t < numTimeSteps L -> 0 <= g < numGroups L ->
  list_find (fun vort => heightSlice vort = SEED_DEPTH) (groupRange L g) = Some (pos, vortex) ->
  timeLoop SEED_DEPTH L masks scalars r = Ok r' ->
  floatAt PerGroupPerTime AspectRatio (row L t g) r' = Some (aspectRatioOf vortex).
Proof.
  intros Hfit Ht Hg Hfind Hloop. unfold timeLoop in Hloop.
  assert (Hseq : forall y, y ∈ seqZ 0 (to_int (numTimeSteps L)) <-> 0 <= y < numTimeSteps L).
  { intros y. rewrite elem_of_seqZ, to_int_small by (destruct Hfit; lia). lia. }
  refine (forEach_at (floatAt PerGroupPerTime AspectRatio (row L t g))
            (fun _ o => o = Some (aspectRatioOf vortex)) _ _ t r r' _ _ _ _ Hloop).
  - apply NoDup_seqZ.
  - by apply Hseq.
  - intros y Hy%Hseq Hne. by apply timeStep_other_time.
  - intros r1 r2. by apply (timeStep_aspectRatio _ _ _ _ _ _ pos).
Qed.

(** What [process] returns when it runs the loops. *)
Lemma process_Ok (SEED_DEPTH : Z) (p p' : Processor F) firstMask masks firstScalar scalars top vs :
  doAssemble_ p = true ->
  inputs p = Some (firstMask :: masks, firstScalar :: scalars, top, vs) ->
  dimensionsDiffer (maskDimensions firstMask) (getDimensions firstScalar) (getDimensions top)
                   (Z.of_nat (length (firstScalar :: scalars))) = false ->
  process SEED_DEPTH p = Ok p' ->
  exists r,
    aggregate SEED_DEPTH (declareLocals p (firstMask :: masks) firstMask firstScalar top vs)
              (firstMask :: masks) (firstScalar :: scalars)
              (createColumns (declareLocals p (firstMask :: masks) firstMask firstScalar top vs)
                             (ensembleMember_ p)) = Ok r /\
    p' = setAssembled p (Some (perEnsembleData r)) (Some (perVortexData r))
                      (log_ p ++ warnings r).
Proof.
  intros Hdo Hin Hdims. unfold process. rewrite Hdo, Hin. cbn [negb volumeDims declareLocals].
  rewrite Hdims. cbn.
  destruct (aggregate _ _ _ _ _) as [r|e]; [|discriminate].
  cbn. intros [= <-]. by exists r.
Qed.


(** ** Averages *)

Lemma preserves_pair {A B} (o1 : Run F -> A) (o2 : Run F -> B) (st : Run F -> result (Run F)) :
  preserves o1 st -> preserves o2 st -> preserves (fun r => (o1 r, o2 r)) st.
Proof. intros H1 H2 r r' Hst. by rewrite (H1 _ _ Hst), (H2 _ _ Hst). Qed.

Lemma modifyF_same a fr c i (f : F -> F) r r' :
  modifyF a fr c i f r = Ok r' ->
  exists x, floatAt fr c (Z.to_nat i) r = Some x /\ floatAt fr c (Z.to_nat i) r' = Some (f x).
Proof.
  intros (x & Hx & ->)%modifyF_Ok. exists x. split; [done|]. unfold floatAt in *.
  rewrite floatColumn_setFloatColumn, decide_True by done.
  apply list_lookup_insert_eq. by eapply lookup_lt_Some.
Qed.

Lemma divideBy_Ok fr c i a cnt j r r' :
  divideBy fr c i a cnt j r = Ok r' ->
  exists n x, intAt fr cnt (Z.to_nat j) r = Some n /\
              floatAt fr c (Z.to_nat i) r = Some x /\
              floatAt fr c (Z.to_nat i) r' = Some (fdiv x (fofZ n)).
Proof.
  unfold divideBy. cbn. destruct (readI a fr cnt j r) as [n|e] eqn:Hn; [|discriminate]. cbn.
  intros (x & Hx & Hx')%modifyF_same. exists n, x. by apply readI_Ok in Hn.
Qed.

(** The loops of lines 458-461, 464-467, 571-574 and 577-579: every column
    [col s] of a declared scalar is divided by the count. *)
Lemma divide_loop (L : Locals F) fr (col : nat -> FloatName) i cnt n s count r r' :
  (forall s1 s2, col s1 = col s2 -> s1 = s2) -> (s < n)%nat ->
  intAt fr cnt (Z.to_nat i) r = Some count ->
  forEach (seq 0 n) (fun s' => colScalarsAt L s' ;;; divideBy fr (col s') i At cnt i) r = Ok r' ->
  exists sum, floatAt fr (col s) (Z.to_nat i) r = Some sum /\
              floatAt fr (col s) (Z.to_nat i) r' = Some (fdiv sum (fofZ count)).
Proof.
  intros Hinj Hs Hcount Hloop.
  refine (forEach_at
            (fun r => (intAt fr cnt (Z.to_nat i) r, floatAt fr (col s) (Z.to_nat i) r))
            (fun o o' => o.1 = Some count ->
               exists sum, o.2 = Some sum /\ o'.2 = Some (fdiv sum (fofZ count)))
            _ _ s r r' _ _ _ _ Hloop Hcount).
  - apply NoDup_seq.
  - apply elem_of_seq. lia.
  - intros y _ Hne. apply preserves_pair; preserves_tac.
    apply divideBy_floatAt. intros [= Heq%Hinj]. done.
  - intros r1 r2 (r3 & Hc & Hdiv)%seq_stmt_Ok. cbn.
    rewrite <- (colScalarsAt_preserves (fun r => r) L s _ _ Hc) in *.
    apply divideBy_Ok in Hdiv as (n' & x & Hn' & Hx & Hx'). intros Hcnt.
    rewrite Hcnt in Hn'. injection Hn' as <-. by exists x.
Qed.

Lemma averagesOf_intAt (L : Locals F) fr i fr' k' i' :
  preserves (F:=F) (intAt fr' k' i') (averagesOf L fr i).
Proof.
  unfold averagesOf. apply preserves_seq.
  - apply preserves_readI. intros n r r'. destruct (0 <? n); [|by intros [= ->]].
    by_preserves. preserves_tac.
  - apply preserves_readI. intros n r r'. destruct (0 <? n); [|by intros [= ->]].
    by_preserves. preserves_tac.
Qed.

Lemma averagesOf_Ok (L : Locals F) fr i s r r' :
  (s < numScalars L)%nat ->
  averagesOf L fr i r = Ok r' ->
  exists nTop n,
    intAt fr NumTopVoxels (Z.to_nat i) r = Some nTop /\
    intAt fr NumVoxels (Z.to_nat i) r = Some n /\
    averaged nTop (floatAt fr (Surface s) (Z.to_nat i) r) (floatAt fr (Surface s) (Z.to_nat i) r') /\
    averaged n (floatAt fr (Average s) (Z.to_nat i) r) (floatAt fr (Average s) (Z.to_nat i) r').
Proof.
  intros Hs Hrun. unfold averagesOf in Hrun.
  apply seq_stmt_Ok in Hrun as (r1 & Hsurf & Havg). cbn in Hsurf, Havg.
  destruct (readI At fr NumTopVoxels i r) as [nTop|e] eqn:HnTop; [|discriminate].
  destruct (readI At fr NumVoxels i r1) as [n|e] eqn:Hn; [|discriminate].
  cbn in Hsurf, Havg. apply readI_Ok in HnTop, Hn.
  exists nTop, n. split; [done|].
  assert (Hsurf_int : intAt fr NumVoxels (Z.to_nat i) r1 = intAt fr NumVoxels (Z.to_nat i) r).
  { destruct (0 <? nTop); [|by injection Hsurf as <-].
    revert Hsurf. by_preserves. preserves_tac. }
  assert (Hsurf_avg : floatAt fr (Average s) (Z.to_nat i) r1 = floatAt fr (Average s) (Z.to_nat i) r).
  { destruct (0 <? nTop); [|by injection Hsurf as <-].
    revert Hsurf. by_preserves. preserves_tac. }
  assert (Havg_surf : floatAt fr (Surface s) (Z.to_nat i) r' = floatAt fr (Surface s) (Z.to_nat i) r1).
  { destruct (0 <? n); [|by injection Havg as <-].
    revert Havg. by_preserves. preserves_tac. }
  split; [by rewrite <- Hsurf_int|]. split.
  - rewrite Havg_surf. unfold averaged. destruct (0 <? nTop); [|by injection Hsurf as <-].
    apply (divide_loop L fr Surface i NumTopVoxels (numScalars L) s nTop r r1);
      [congruence|done..].
  - rewrite <- Hsurf_avg. unfold averaged. destruct (0 <? n); [|by injection Havg as <-].
    apply (divide_loop L fr Average i NumVoxels (numScalars L) s n r1 r');
      [congruence|done..].
Qed.

(** Lines 457-468 within the pass of a group: with at least one scalar the
    pass returns only when no roll-up to a parent took place, so the rows
    keep the averages until the pass is over. *)
Lemma finalizeGroup_averages (SEED_DEPTH : Z) (L : Locals F) time group s r r' :
  (s < numScalars L)%nat ->
  finalizeGroup SEED_DEPTH L time group r = Ok r' ->
  exists nTop n,
    intAt PerGroupPerTime NumTopVoxels (row L time group) r = Some nTop /\
    intAt PerGroupPerTime NumVoxels (row L time group) r = Some n /\
    averaged nTop (floatAt PerGroupPerTime (Surface s) (row L time group) r)
                  (floatAt PerGroupPerTime (Surface s) (row L time group) r') /\
    averaged n (floatAt PerGroupPerTime (Average s) (row L time group) r)
               (floatAt PerGroupPerTime (Average s) (row L time group) r').
Proof.
  intros Hs Hrun. unfold finalizeGroup in Hrun. unfold row.
  set (idx := to_size_t (numGroups L * time + group)) in *.
  apply seq_stmt_Ok in Hrun as (r1 & Htime & Hrun).
  apply seq_stmt_Ok in Hrun as (r2 & Hid & Hrun).
  apply seq_stmt_Ok in Hrun as (r3 & Havg & Hrest).
  change (averagesPerTime L idx) with (averagesOf L PerGroupPerTime idx) in Havg.
  apply (averagesOf_Ok L _ _ s) in Havg as (nTop & n & HnTop & Hn & Hsurf & Haver); [|done].
  assert (Hints : forall k, k ≠ Time -> k ≠ VortexID ->
            intAt PerGroupPerTime k (Z.to_nat idx) r2 = intAt PerGroupPerTime k (Z.to_nat idx) r).
  { intros k Hk1 Hk2. transitivity (intAt PerGroupPerTime k (Z.to_nat idx) r1).
    - revert Hid. by_preserves. preserves_tac.
    - revert Htime. by_preserves. preserves_tac. }
  assert (Hfloats : forall c,
            floatAt PerGroupPerTime c (Z.to_nat idx) r2 = floatAt PerGroupPerTime c (Z.to_nat idx) r).
  { intros c. transitivity (floatAt PerGroupPerTime c (Z.to_nat idx) r1).
    - revert Hid. by_preserves. preserves_tac.
    - revert Htime. by_preserves. preserves_tac. }
  assert (Htail : forall c, c ≠ AspectRatio -> c ≠ AvgRadius -> c ≠ CenterX -> c ≠ CenterY ->
            floatAt PerGroupPerTime c (Z.to_nat idx) r' = floatAt PerGroupPerTime c (Z.to_nat idx) r3).
  { intros c Hc1 Hc2 Hc3 Hc4.
    destruct (list_find _ _) as [[pos vortex]|]; [|by injection Hrest as <-].
    apply seq_stmt_Ok in Hrest as (r4 & Hparent & Hrest).
    apply addToParent_Ok in Hparent as ->; [|lia].
    revert Hrest. by_preserves.
    apply preserves_seq; [unfold recordAspectRatio; preserves_tac|].
    do 3 (apply preserves_seq; [preserves_tac|]).
    by apply recordCenter_perTime. }
  exists nTop, n.
  rewrite <- !Hints, <- !Hfloats, !Htail by discriminate. done.
Qed.

Lemma finalGroup_other (L : Locals F) s g y :
  Z.to_nat y ≠ g -> preserves (F:=F) (groupObs s g) (finalGroup L y).
Proof.
  intros Hne. unfold groupObs. repeat apply preserves_pair.
  all: unfold finalGroup; (apply preserves_seq; [preserves_tac|]).
  all: apply preserves_readI; intros lifeTime r r'.
  all: destruct (lifeTime =? 0); [by intros [= ->]|].
  all: by_preserves; do 2 (apply preserves_seq; [preserves_tac|]).
  all: change (averagesPerGroup L y) with (averagesOf L PerGroup y).
  1-3: apply averagesOf_intAt.
  all: unfold averagesOf; apply preserves_seq.
  all: apply preserves_readI; intros n r1 r2; (destruct (0 <? n); [|by intros [= ->]]).
  all: by_preserves; preserves_tac.
Qed.

Lemma finalGroup_Ok (L : Locals F) s g r r' :
  (s < numScalars L)%nat ->
  finalGroup L g r = Ok r' ->
  groupAveraged (groupObs s (Z.to_nat g) r) (groupObs s (Z.to_nat g) r').
Proof.
  intros Hs Hrun. unfold finalGroup in Hrun.
  apply seq_stmt_Ok in Hrun as (r1 & Hid & Hrun). cbn in Hrun.
  destruct (readI Subscript PerGroup LifeTime g r1) as [lifeTime|e] eqn:Hlt; [|discriminate].
  cbn in Hrun. apply readI_Ok in Hlt.
  assert (Hints : forall k, k ≠ VortexID ->
            intAt PerGroup k (Z.to_nat g) r1 = intAt PerGroup k (Z.to_nat g) r).
  { intros k Hk. revert Hid. by_preserves. preserves_tac. }
  assert (Hfloats : forall c, floatAt PerGroup c (Z.to_nat g) r1 = floatAt PerGroup c (Z.to_nat g) r).
  { intros c. revert Hid. by_preserves. preserves_tac. }
  exists lifeTime. cbn. split; [by rewrite <- Hints|].
  destruct (Z.eqb_spec lifeTime 0) as [->|Hne].
  - injection Hrun as <-. split; [|done]. intros _. by rewrite !Hfloats.
  - split; [done|]. intros _.
    apply seq_stmt_Ok in Hrun as (r2 & Hratio & Hrun).
    apply seq_stmt_Ok in Hrun as (r3 & Hradius & Hrun).
    change (averagesPerGroup L g) with (averagesOf L PerGroup g) in Hrun.
    apply (averagesOf_Ok L _ _ s) in Hrun as (nTop & n & HnTop & Hn & Hsurf & Haver); [|done].
    assert (Hints' : forall k, intAt PerGroup k (Z.to_nat g) r3 = intAt PerGroup k (Z.to_nat g) r1).
    { intros k. transitivity (intAt PerGroup k (Z.to_nat g) r2).
      - revert Hradius. by_preserves. preserves_tac.
      - revert Hratio. by_preserves. preserves_tac. }
    assert (Hfloats' : forall c, c ≠ AspectRatio -> c ≠ AvgRadius ->
              floatAt PerGroup c (Z.to_nat g) r3 = floatAt PerGroup c (Z.to_nat g) r1).
    { intros c Hc1 Hc2. transitivity (floatAt PerGroup c (Z.to_nat g) r2).
      - revert Hradius. by_preserves. preserves_tac.
      - revert Hratio. by_preserves. preserves_tac. }
    exists nTop, n.
    rewrite <- !Hints, <- !Hfloats, <- !Hints', <- !Hfloats' by discriminate.
    rewrite HnTop, Hn. done.
Qed.

Lemma finalLoop_Ok (L : Locals F) s g r r' :
  (s < numScalars L)%nat -> 0 <= g < numGroups L ->
  finalLoop L r = Ok r' ->
  groupAveraged (groupObs s (Z.to_nat g) r) (groupObs s (Z.to_nat g) r').
Proof.
  intros Hs Hg Hloop. unfold finalLoop in Hloop.
  refine (forEach_at (groupObs s (Z.to_nat g)) groupAveraged _ _ g r r' _ _ _ _ Hloop).
  - apply NoDup_seqZ.
  - apply elem_of_seqZ. lia.
  - intros y Hy%elem_of_seqZ Hne. apply finalGroup_other. lia.
  - intros r1 r2. by apply finalGroup_Ok.
Qed.

(** C7, as the code has it: in the pass that closes a time step, a row of
    a surface or volumetric average of the frame per group and time becomes
    sum / count when its count is positive and stays as it was when the
    count is zero; in the last pass the same holds for the rows of the frame
    per group of a group whose life time is not zero, and the rows of a
    group whose life time is zero stay as they were, whatever the counts. *)
Theorem averages_divide_by_count (SEED_DEPTH : Z) (L : Locals F) (s : nat)
    (time group : Z) (rt rt' rg rg' : Run F) :
  (s < numScalars L)%nat ->
  0 <= group < numGroups L ->
  finalizeGroup SEED_DEPTH L time group rt = Ok rt' ->
  finalLoop L rg = Ok rg' ->
  (exists nTop n,
     intAt PerGroupPerTime NumTopVoxels (row L time group) rt = Some nTop /\
     intAt PerGroupPerTime NumVoxels (row L time group) rt = Some n /\
     averaged nTop (floatAt PerGroupPerTime (Surface s) (row L time group) rt)
                   (floatAt PerGroupPerTime (Surface s) (row L time group) rt') /\
     averaged n (floatAt PerGroupPerTime (Average s) (row L time group) rt)
                (floatAt PerGroupPerTime (Average s) (row L time group) rt')) /\
  (exists lifeTime,
     intAt PerGroup LifeTime (Z.to_nat group) rg = Some lifeTime /\
     (lifeTime = 0 ->
        floatAt PerGroup (Surface s) (Z.to_nat group) rg'
          = floatAt PerGroup (Surface s) (Z.to_nat group) rg /\
        floatAt PerGroup (Average s) (Z.to_nat group) rg'
          = floatAt PerGroup (Average s) (Z.to_nat group) rg) /\
     (lifeTime ≠ 0 ->
        exists nTop n,
          intAt PerGroup NumTopVoxels (Z.to_nat group) rg = Some nTop /\
          intAt PerGroup NumVoxels (Z.to_nat group) rg = Some n /\
          averaged nTop (floatAt PerGroup (Surface s) (Z.to_nat group) rg)
                        (floatAt PerGroup (Surface s) (Z.to_nat group) rg') /\
          averaged n (floatAt PerGroup (Average s) (Z.to_nat group) rg)
                     (floatAt PerGroup (Average s) (Z.to_nat group) rg'))).
Proof.
  intros Hs Hg Htime Hlast. split.
  - by apply (finalizeGroup_averages SEED_DEPTH).
  - destruct (finalLoop_Ok L s group rg rg' Hs Hg Hlast) as (lifeTime & Hlt & Hzero & Hdiv).
    cbn in Hlt, Hzero, Hdiv. exists lifeTime. split; [done|]. split.
    + intros Hz. specialize (Hzero Hz). by injection Hzero as -> ->.
    + intros Hnz. destruct (Hdiv Hnz) as (nTop & n & [= HnTop Hn] & Hsurf & Havg).
      by exists nTop, n.
Qed.

(** ** The guard of [process] *)

Lemma inputs_None (p : Processor F) :
  maskVolumeIn_ p = None \/ maskVolumeIn_ p = Some [] \/
  scalarVolumesIn_ p = None \/ scalarVolumesIn_ p = Some [] \/
  (exists masks scalars, maskVolumeIn_ p = Some masks /\ scalarVolumesIn_ p = Some scalars /\
                         length scalars ≠ length masks) \/
  topScalarVolumesIn_ p = None \/ vorticesIn_ p = None ->
  inputs p = None.
Proof.
  unfold inputs.
  destruct (maskVolumeIn_ p) as [masks|]; cbn; [|done].
  case_decide as Hempty; [done|].
  destruct (scalarVolumesIn_ p) as [scalars|]; cbn; [|done].
  case_decide as Hlen; [done|].
  destruct (topScalarVolumesIn_ p) as [top|]; cbn; [|done].
  destruct (vorticesIn_ p) as [vs|]; cbn; [|done].
  intros [Hm|[Hm|[Hs|[Hs|[(masks' & scalars' & Hm & Hs & Hne)|[Ht|Hv]]]]]]; try discriminate.
  - injection Hm as ->. done.
  - injection Hs as ->. cbn in Hlen. destruct masks; done.
  - injection Hm as ->. injection Hs as ->. exfalso. apply Hne. by apply dec_stable.
Qed.

Lemma inputs_Some (p : Processor F) masks scalars top vs :
  maskVolumeIn_ p = Some masks -> scalarVolumesIn_ p = Some scalars ->
  masks ≠ [] -> length scalars = length masks ->
  topScalarVolumesIn_ p = Some top -> vorticesIn_ p = Some vs ->
  inputs p = Some (masks, scalars, top, vs).
Proof.
  intros Hm Hs Hne Hlen Ht Hv. unfold inputs. rewrite Hm, Hs, Ht, Hv. cbn.
  rewrite decide_False by (by destruct masks). cbn.
  rewrite decide_False by (intros Hc; by apply Hc). reflexivity.
Qed.

(** C5: with the mask or the scalar series missing or empty, with series of
    different lengths, or without surface volume or without hierarchy,
    [process] returns the processor as it found it; with all inputs there
    and dimensions that differ it logs one warning, clears the flag and
    leaves both output frames as they were. *)
Theorem process_without_inputs (SEED_DEPTH : Z) (p : Processor F) :
  (maskVolumeIn_ p = None \/ maskVolumeIn_ p = Some [] \/
   scalarVolumesIn_ p = None \/ scalarVolumesIn_ p = Some [] \/
   (exists masks scalars, maskVolumeIn_ p = Some masks /\ scalarVolumesIn_ p = Some scalars /\
                          length scalars ≠ length masks) \/
   topScalarVolumesIn_ p = None \/ vorticesIn_ p = None ->
   process SEED_DEPTH p = Ok p) /\
  (forall firstMask masks firstScalar scalars top vs,
     doAssemble_ p = true ->
     maskVolumeIn_ p = Some (firstMask :: masks) ->
     scalarVolumesIn_ p = Some (firstScalar :: scalars) ->
     length scalars = length masks ->
     topScalarVolumesIn_ p = Some top -> vorticesIn_ p = Some vs ->
     maskDimensions firstMask ≠ getDimensions firstScalar \/
     dimX (getDimensions top) ≠ dimX (getDimensions firstScalar) \/
     dimY (getDimensions top) ≠ dimY (getDimensions firstScalar) \/
     dimZ (getDimensions top) ≠ Z.of_nat (length (firstScalar :: scalars)) ->
     exists p',
       process SEED_DEPTH p = Ok p' /\
       dataOut_ p' = dataOut_ p /\ perGroupDataOut_ p' = perGroupDataOut_ p /\
       doAssemble_ p' = false /\
       log_ p' = log_ p ++
         [WarnDimensions (maskDimensions firstMask) (Z.of_nat (length (firstMask :: masks)))
            (getDimensions firstScalar) (Z.of_nat (length (firstScalar :: scalars)))
            (getDimensions top)]).
Proof.
  split.
  - intros Hmissing. unfold process. destruct (doAssemble_ p); cbn; [|reflexivity].
    by rewrite (inputs_None p Hmissing).
  - intros firstMask masks firstScalar scalars top vs Hdo Hm Hs Hlen Ht Hv Hdims.
    unfold process. rewrite Hdo.
    rewrite (inputs_Some p _ _ top vs Hm Hs) by (done || cbn; congruence).
    cbn [negb volumeDims numTimeSteps declareLocals].
    assert (Hdiffer : dimensionsDiffer (maskDimensions firstMask) (getDimensions firstScalar)
                        (getDimensions top) (Z.of_nat (length (firstScalar :: scalars))) = true).
    { unfold dimensionsDiffer. rewrite !orb_true_iff, !negb_true_iff, !Z.eqb_neq.
      rewrite bool_decide_eq_false. tauto. }
    rewrite Hdiffer. eexists. split; [reflexivity|]. cbn. done.
Qed.

End Effects.

(** ** The properties on concrete runs *)

Lemma process_without_inputs_witness :
  process seedDepth missingSurfaceRun = Ok missingSurfaceRun /\
  exists p',
    process seedDepth mismatchedRun = Ok p' /\
    dataOut_ p' = dataOut_ mismatchedRun /\
    perGroupDataOut_ p' = perGroupDataOut_ mismatchedRun /\
    doAssemble_ p' = false /\
    log_ p' = [WarnDimensions (4, 4, 4) 1 (4, 4, 5) 1 (4, 4, 1)].
Proof.
  split.
  - apply (proj1 (process_without_inputs seedDepth missingSurfaceRun)).
    do 5 right. left. reflexivity.
  - apply (proj2 (process_without_inputs seedDepth mismatchedRun)
             (volumeOfMask (4, 4, 4)) [] (volumeOfScalars (4, 4, 5)) []
             (volumeOfScalars (4, 4, 1)) flatHierarchy);
      try reflexivity.
    left. cbn. intros [=].
Defined.


Lemma averages_divide_by_count_witness :
  (exists nTop n,
     intAt PerGroupPerTime NumTopVoxels 0 filledRun = Some nTop /\
     intAt PerGroupPerTime NumVoxels 0 filledRun = Some n /\
     averaged nTop (floatAt PerGroupPerTime (Surface 0) 0 filledRun)
       (floatAt PerGroupPerTime (Surface 0) 0
          (returnedRun filledRun (finalizeGroup seedDepth oneStepLocals 0 0 filledRun))) /\
     averaged n (floatAt PerGroupPerTime (Average 0) 0 filledRun)
       (floatAt PerGroupPerTime (Average 0) 0
          (returnedRun filledRun (finalizeGroup seedDepth oneStepLocals 0 0 filledRun)))) /\
  (exists lifeTime,
     intAt PerGroup LifeTime 0 filledRun = Some lifeTime /\
     (lifeTime = 0 ->
        floatAt PerGroup (Surface 0) 0 (returnedRun filledRun (finalLoop oneStepLocals filledRun))
          = floatAt PerGroup (Surface 0) 0 filledRun /\
        floatAt PerGroup (Average 0) 0 (returnedRun filledRun (finalLoop oneStepLocals filledRun))
          = floatAt PerGroup (Average 0) 0 filledRun) /\
     (lifeTime ≠ 0 ->
        exists nTop n,
          intAt PerGroup NumTopVoxels 0 filledRun = Some nTop /\
          intAt PerGroup NumVoxels 0 filledRun = Some n /\
          averaged nTop (floatAt PerGroup (Surface 0) 0 filledRun)
            (floatAt PerGroup (Surface 0) 0
               (returnedRun filledRun (finalLoop oneStepLocals filledRun))) /\
          averaged n (floatAt PerGroup (Average 0) 0 filledRun)
            (floatAt PerGroup (Average 0) 0
               (returnedRun filledRun (finalLoop oneStepLocals filledRun))))).
Proof.
  refine (averages_divide_by_count seedDepth oneStepLocals 0%nat 0 0 filledRun
            (returnedRun filledRun (finalizeGroup seedDepth oneStepLocals 0 0 filledRun))
            filledRun (returnedRun filledRun (finalLoop oneStepLocals filledRun)) _ _ _ _).
  - vm_compute. lia.
  - vm_compute. split; discriminate || reflexivity.
  - unfold returnedRun.
    destruct (finalizeGroup seedDepth oneStepLocals 0 0 filledRun) as [r'|e] eqn:Hrun;
      [reflexivity|]. vm_compute in Hrun. discriminate.
  - unfold returnedRun.
    destruct (finalLoop oneStepLocals filledRun) as [r'|e] eqn:Hrun;
      [reflexivity|]. vm_compute in Hrun. discriminate.
Defined.

(** C7, as the claim has it, fails on [twoVoxelRun]: after the time loop
    the row of group 0 counts 4 voxels (each of the two is counted twice)
    and holds the sum 12; the life time of the group is 0, so the last pass
    leaves the sum in place, and 12 is neither 12 / 4 nor 12 / 2. *)
Lemma averages_kept_at_zero_life_time :
  exists r r',
    afterTimeLoop twoVoxelRun = Some (Ok r) /\
    finalLoop twoVoxelLocals r = Ok r' /\
    intAt PerGroup LifeTime 0 r = Some 0 /\
    intAt PerGroup NumVoxels 0 r = Some 4 /\
    floatAt PerGroup (Average 0) 0 r = Some 12%float /\
    floatAt PerGroup (Average 0) 0 r' = Some 12%float /\
    ~ averaged 4 (floatAt PerGroup (Average 0) 0 r) (floatAt PerGroup (Average 0) 0 r') /\
    ~ averaged 2 (floatAt PerGroup (Average 0) 0 r) (floatAt PerGroup (Average 0) 0 r').
Proof.
  destruct (timeLoop seedDepth twoVoxelLocals [maskOf 3 [0; 1; 1]] [constantVolume 3 6%float]
              (createColumns twoVoxelLocals 0)) as [r|e] eqn:Hr;
    [|vm_compute in Hr; discriminate].
  destruct (finalLoop twoVoxelLocals r) as [r'|e] eqn:Hr'.
  - exists r, r'.
    assert (Hloop : afterTimeLoop twoVoxelRun = Some (Ok r)).
    { rewrite <- Hr. reflexivity. }
    assert (Hnf : Ok r = timeLoop seedDepth twoVoxelLocals [maskOf 3 [0; 1; 1]]
                           [constantVolume 3 6%float] (createColumns twoVoxelLocals 0))
      by (symmetry; exact Hr).
    clear Hr. vm_compute in Hnf. injection Hnf as ->.
    vm_compute in Hr'. injection Hr' as <-.
    split; [exact Hloop|]. split; [reflexivity|].
    do 4 (split; [vm_compute; reflexivity|]).
    split; unfold averaged; intros (sum & Hsum & Hdiv); vm_compute in Hsum, Hdiv;
      apply (f_equal (default 0%float)) in Hsum; cbn in Hsum; subst sum;
      apply (f_equal (fun o => PrimFloat.eqb (default 0%float o) 12%float)) in Hdiv;
      vm_compute in Hdiv; discriminate.
  - exfalso.
    assert (Hnf : Ok r = timeLoop seedDepth twoVoxelLocals [maskOf 3 [0; 1; 1]]
                           [constantVolume 3 6%float] (createColumns twoVoxelLocals 0))
      by (symmetry; exact Hr).
    clear Hr. vm_compute in Hnf. injection Hnf as ->.
    vm_compute in Hr'. discriminate.
Qed.

(** * Further properties of the aggregation *)

(** ** Footprints of the statements *)

(** A loop whose rounds take an invariant from one index to the next. *)
Lemma forEach_indexed {A St} (Inv : nat -> St -> Prop) (xs : list A)
    (body : A -> St -> result St) s s' :
  Inv 0%nat s ->
  (forall i x s1 s2, xs !! i = Some x -> Inv i s1 -> body x s1 = Ok s2 -> Inv (S i) s2) ->
  forEach xs body s = Ok s' -> Inv (length xs) s'.
Proof.
  revert Inv s. induction xs as [|x xs IH]; intros Inv s H0 Hstep; cbn.
  - by intros [= <-].
  - destruct (body x s) as [s1|e] eqn:Hx; cbn; [|discriminate].
    apply (IH (fun i => Inv (S i))).
    + by apply (Hstep 0%nat x s s1).
    + intros i y s2 s3 Hy. by apply (Hstep (S i)).
Qed.

Section FootprintLemmas.

Context {F : Type} `{FloatOps F}.

Implicit Types (r : Run F) (S : cell -> bool).

Lemma sameOutside_refl S r : sameOutside S r r.
Proof. repeat split; reflexivity. Qed.

Lemma sameOutside_trans S r1 r2 r3 :
  sameOutside S r1 r2 -> sameOutside S r2 r3 -> sameOutside S r1 r3.
Proof.
  intros (Hi & Hf & Hli & Hlf & Hp) (Hi' & Hf' & Hli' & Hlf' & Hp').
  repeat split; intros.
  - rewrite Hi' by done. by apply Hi.
  - rewrite Hf' by done. by apply Hf.
  - by rewrite Hli'.
  - by rewrite Hlf'.
  - by rewrite Hp'.
Qed.

Lemma sameOutside_mono S S' r r' :
  (forall c, S c = true -> S' c = true) -> sameOutside S r r' -> sameOutside S' r r'.
Proof.
  intros Hsub (Hi & Hf & Hli & Hlf & Hp). repeat split; try done.
  - intros fr k i Hout. apply Hi. destruct (S _) eqn:HS; [|done]. by rewrite (Hsub _ HS) in Hout.
  - intros fr c i Hout. apply Hf. destruct (S _) eqn:HS; [|done]. by rewrite (Hsub _ HS) in Hout.
Qed.

Lemma wo_mono S S' (st : Run F -> result (Run F)) :
  (forall c, S c = true -> S' c = true) -> writesOnly S st -> writesOnly S' st.
Proof. intros Hsub Hst r r' Hrun. eapply sameOutside_mono; [exact Hsub|]. by apply Hst. Qed.

Lemma wo_skip S : writesOnly (F:=F) S skip.
Proof. intros r r' [= ->]. apply sameOutside_refl. Qed.

Lemma wo_seq S (s1 s2 : Run F -> result (Run F)) :
  writesOnly S s1 -> writesOnly S s2 -> writesOnly S (s1 ;;; s2).
Proof.
  intros H1 H2 r r' (r1 & Hs1 & Hs2)%seq_stmt_Ok.
  eapply sameOutside_trans; [by apply H1|by apply H2].
Qed.

Lemma wo_forEach_in {A} S (xs : list A) (body : A -> Run F -> result (Run F)) :
  (forall x, x ∈ xs -> writesOnly S (body x)) -> writesOnly S (forEach xs body).
Proof.
  induction xs as [|x xs IH]; intros Hbody r r'; cbn.
  - intros [= ->]. apply sameOutside_refl.
  - destruct (body x r) as [r1|e] eqn:Hx; cbn; [|discriminate]. intros Hrest.
    eapply sameOutside_trans.
    + by apply (Hbody x (list_elem_of_here _ _)).
    + apply IH; [|done]. intros y Hy. apply Hbody. by apply list_elem_of_further.
Qed.

Lemma wo_forEach {A} S (xs : list A) (body : A -> Run F -> result (Run F)) :
  (forall x, writesOnly S (body x)) -> writesOnly S (forEach xs body).
Proof. intros Hbody. apply wo_forEach_in. auto. Qed.

Lemma wo_if S (b : bool) (s1 s2 : Run F -> result (Run F)) :
  writesOnly S s1 -> writesOnly S s2 -> writesOnly S (if b then s1 else s2).
Proof. destruct b; auto. Qed.

Lemma wo_readI S a fr k i (body : Z -> Run F -> result (Run F)) :
  (forall v, writesOnly S (body v)) ->
  writesOnly S (fun r => v ← readI a fr k i r; body v r).
Proof.
  intros Hbody r r'. cbn. destruct (readI a fr k i r) as [v|e]; cbn; [|discriminate].
  apply Hbody.
Qed.

Lemma wo_readF S a fr c i (body : F -> Run F -> result (Run F)) :
  (forall v, writesOnly S (body v)) ->
  writesOnly S (fun r => v ← readF a fr c i r; body v r).
Proof.
  intros Hbody r r'. cbn. destruct (readF a fr c i r) as [v|e]; cbn; [|discriminate].
  apply Hbody.
Qed.

Lemma prevCenters_setFloatColumn fr c l r :
  prevCenters (setFloatColumn fr c l r) = prevCenters r.
Proof. by destruct fr. Qed.

Lemma prevCenters_setIntColumn fr k l r :
  prevCenters (setIntColumn fr k l r) = prevCenters r.
Proof. by destruct fr. Qed.

Lemma warnings_setFloatColumn fr c l r :
  warnings (setFloatColumn fr c l r) = warnings r.
Proof. by destruct fr. Qed.

Lemma warnings_setIntColumn fr k l r :
  warnings (setIntColumn fr k l r) = warnings r.
Proof. by destruct fr. Qed.

(** A write stays within any set that holds its cell. *)
Lemma wo_writeF S a fr c i (v : F) :
  S (FloatCell fr c (Z.to_nat i)) = true -> writesOnly S (writeF a fr c i v).
Proof.
  intros Hin r r' (Hlen & ->)%writeF_Ok. repeat split.
  - intros fr' k' i' _. unfold intAt. by rewrite intColumn_setFloatColumn.
  - intros fr' c' i' Hout. unfold floatAt. rewrite floatColumn_setFloatColumn.
    case_decide as Hd; [|done]. destruct Hd as [-> ->].
    apply list_lookup_insert_ne. intros <-. congruence.
  - intros fr' k'. by rewrite intColumn_setFloatColumn.
  - intros fr' c'. rewrite floatColumn_setFloatColumn.
    case_decide as Hd; [|done]. destruct Hd as [-> ->]. apply length_insert.
  - by rewrite prevCenters_setFloatColumn.
Qed.

Lemma wo_writeI S a fr k i (v : Z) :
  S (IntCell fr k (Z.to_nat i)) = true -> writesOnly (F:=F) S (writeI a fr k i v).
Proof.
  intros Hin r r' (Hlen & ->)%writeI_Ok. repeat split.
  - intros fr' k' i' Hout. unfold intAt. rewrite intColumn_setIntColumn.
    case_decide as Hd; [|done]. destruct Hd as [-> ->].
    apply list_lookup_insert_ne. intros <-. congruence.
  - intros fr' c' i' _. unfold floatAt. by rewrite floatColumn_setIntColumn.
  - intros fr' k'. rewrite intColumn_setIntColumn.
    case_decide as Hd; [|done]. destruct Hd as [-> ->]. apply length_insert.
  - intros fr' c'. by rewrite floatColumn_setIntColumn.
  - by rewrite prevCenters_setIntColumn.
Qed.

Lemma wo_modifyF S a fr c i (f : F -> F) :
  S (FloatCell fr c (Z.to_nat i)) = true -> writesOnly S (modifyF a fr c i f).
Proof. intros Hin. apply wo_readF. intros v. by apply wo_writeF. Qed.

Lemma wo_modifyI S a fr k i (f : Z -> Z) :
  S (IntCell fr k (Z.to_nat i)) = true -> writesOnly (F:=F) S (modifyI a fr k i f).
Proof. intros Hin. apply wo_readI. intros v. by apply wo_writeI. Qed.

Lemma wo_addI S fr k i sfr sk si :
  S (IntCell fr k (Z.to_nat i)) = true -> writesOnly (F:=F) S (addI fr k i sfr sk si).
Proof. intros Hin. apply wo_readI. intros v. by apply wo_modifyI. Qed.

Lemma wo_addF S fr c i sfr sc si :
  S (FloatCell fr c (Z.to_nat i)) = true -> writesOnly (F:=F) S (addF fr c i sfr sc si).
Proof. intros Hin. apply wo_readF. intros v. by apply wo_modifyF. Qed.

Lemma wo_assignF S (op : F -> F -> F) fr c i sfr sc si :
  S (FloatCell fr c (Z.to_nat i)) = true -> writesOnly S (assignF op fr c i sfr sc si).
Proof. intros Hin. apply wo_readF. intros v. by apply wo_modifyF. Qed.

Lemma wo_divideBy S fr c i a cnt j :
  S (FloatCell fr c (Z.to_nat i)) = true -> writesOnly (F:=F) S (divideBy fr c i a cnt j).
Proof. intros Hin. apply wo_readI. intros v. by apply wo_modifyF. Qed.

Lemma wo_colScalarsAt S (L : Locals F) s : writesOnly S (colScalarsAt L s).
Proof.
  intros r r'. unfold colScalarsAt. case_decide; [|discriminate].
  intros [= ->]. apply sameOutside_refl.
Qed.

Lemma wo_colTopScalarsAt S (L : Locals F) s : writesOnly S (colTopScalarsAt L s).
Proof. intros r r'. unfold colTopScalarsAt. discriminate. Qed.

Lemma wo_setPrevCenter S group (ctr : F * F) : writesOnly S (setPrevCenter group ctr).
Proof.
  intros r r'. unfold setPrevCenter. case_decide; [|discriminate]. intros [= <-].
  repeat split; try (intros []; reflexivity). cbn. apply length_insert.
Qed.

Lemma sameOutside_logWarn S e r : sameOutside S r (logWarn e r).
Proof. repeat split; intros []; reflexivity. Qed.

Ltac cell_in :=
  cbv [labelCells averageCells parentCells aspectRatioCells radiusCells centerCells
       recordCells finalizeCells voxelCells lastPassCells groupPassCells loopCells
       offColumn
       isScalarColumn isCountColumn andb orb];
  rewrite ?Nat.eqb_refl, ?orb_true_r, ?andb_true_r;
  rewrite ?bool_decide_eq_true_2 by reflexivity;
  reflexivity.

Ltac wo_step :=
  first
    [ apply wo_seq
    | apply wo_skip
    | apply wo_if
    | apply wo_forEach; intros ?
    | apply wo_colScalarsAt
    | apply wo_colTopScalarsAt
    | apply wo_setPrevCenter
    | apply wo_writeF; cell_in
    | apply wo_writeI; cell_in
    | apply wo_modifyF; cell_in
    | apply wo_modifyI; cell_in
    | apply wo_addF; cell_in
    | apply wo_addI; cell_in
    | apply wo_assignF; cell_in
    | apply wo_divideBy; cell_in ].

Ltac wo_tac := repeat wo_step.

Ltac by_wo :=
  let Hc := fresh "Hc" in
  intros Hc;
  match type of Hc with
  | ?st ?r0 = Ok ?r1 =>
      match goal with
      | |- sameOutside ?S r0 r1 =>
          let Hw := fresh "Hw" in
          assert (Hw : writesOnly S st); [|exact (Hw r0 r1 Hc)]
      end
  end.

(** A cell outside the footprint of a statement is preserved by it. *)
Lemma wo_intAt S (st : Run F -> result (Run F)) fr k i :
  writesOnly S st -> S (IntCell fr k i) = false -> preserves (intAt fr k i) st.
Proof. intros Hst Hout r r' Hrun. by apply (Hst r r' Hrun). Qed.

Lemma wo_floatAt S (st : Run F -> result (Run F)) fr c i :
  writesOnly S st -> S (FloatCell fr c i) = false -> preserves (floatAt fr c i) st.
Proof. intros Hst Hout r r' Hrun. by apply (Hst r r' Hrun). Qed.

Lemma wo_intLength S (st : Run F -> result (Run F)) fr k :
  writesOnly S st -> preserves (fun r => length (intColumn fr k r)) st.
Proof. intros Hst r r' Hrun. by apply (Hst r r' Hrun). Qed.

Lemma wo_floatLength S (st : Run F -> result (Run F)) fr c :
  writesOnly S st -> preserves (fun r => length (floatColumn fr c r)) st.
Proof. intros Hst r r' Hrun. by apply (Hst r r' Hrun). Qed.

(** The footprints of the statements of [process]. *)
Lemma wo_indexCallback (SEED_DEPTH : Z) (L : Locals F) time mask (scalarVol : ScalarVolume F) idx :
  writesOnly voxelCells (indexCallback SEED_DEPTH L time mask scalarVol idx).
Proof.
  intros r r'. unfold indexCallback.
  destruct (mask !! _) as [m|]; [|discriminate].
  destruct (to_int m <=? 0); [intros [= ->]; apply sameOutside_refl|].
  destruct (to_int m >=? to_int (numGroups L)); [intros [= ->]; apply sameOutside_refl|].
  by_wo.
  apply wo_seq; [apply wo_readI; intros st; wo_tac|].
  apply wo_seq; [apply wo_readI; intros st; wo_tac|].
  unfold scalarLoop, surfaceLoop. wo_tac.
Qed.

Lemma wo_averagesOf (L : Locals F) fr i :
  writesOnly (averageCells fr (Z.to_nat i)) (averagesOf L fr i).
Proof.
  unfold averagesOf. apply wo_seq.
  - apply wo_readI. intros n r r'.
    destruct (0 <? n); [|intros [= ->]; apply sameOutside_refl].
    by_wo. wo_tac.
  - apply wo_readI. intros n r r'.
    destruct (0 <? n); [|intros [= ->]; apply sameOutside_refl].
    by_wo. wo_tac.
Qed.

Lemma wo_addToParent (L : Locals F) time group pos :
  writesOnly (parentCells (row L time group))
             (addToParent L time group (to_size_t (numGroups L * time + group)) pos).
Proof.
  unfold addToParent, addSizesToParent, parentScalarLoop, parentScalarSums, row. wo_tac.
Qed.

Lemma wo_recordAspectRatio (vortex : Vortex F) group idx :
  writesOnly (aspectRatioCells (Z.to_nat idx) (Z.to_nat group))
             (recordAspectRatio vortex group idx).
Proof. unfold recordAspectRatio. wo_tac. Qed.

Lemma wo_recordCenter (vortex : Vortex F) time group idx :
  writesOnly (centerCells (Z.to_nat idx) (Z.to_nat group))
             (recordCenter vortex time group idx).
Proof.
  unfold recordCenter. wo_tac.
  apply wo_readI. intros st r r'.
  destruct (negb (time =? st)).
  - destruct (prevCenters r !! Z.to_nat group) as [prev|]; [|discriminate].
    by_wo. wo_tac.
  - by_wo. wo_tac.
Qed.

Lemma wo_recordRadius (vortex : Vortex F) group idx :
  writesOnly (radiusCells (Z.to_nat idx) (Z.to_nat group))
    (writeF At PerGroupPerTime AvgRadius idx (avgRadius vortex) ;;;
     modifyF At PerGroup AvgRadius group (fun v => fadd v (avgRadius vortex)) ;;;
     writeI Subscript PerGroup Rotation group
            (match rotation vortex with Clockwise => 0 | CounterClockwise => 1 end)).
Proof. wo_tac. Qed.

Lemma wo_recordGroup (L : Locals F) (vortex : Vortex F) time group pos :
  let idx := to_size_t (numGroups L * time + group) in
  writesOnly (recordCells (Z.to_nat idx) (Z.to_nat group))
    (addToParent L time group idx pos ;;;
     recordAspectRatio vortex group idx ;;;
     writeF At PerGroupPerTime AvgRadius idx (avgRadius vortex) ;;;
     modifyF At PerGroup AvgRadius group (fun v => fadd v (avgRadius vortex)) ;;;
     writeI Subscript PerGroup Rotation group
            (match rotation vortex with Clockwise => 0 | CounterClockwise => 1 end) ;;;
     recordCenter vortex time group idx).
Proof.
  intros idx. apply wo_seq.
  { eapply wo_mono; [|apply wo_addToParent].
    intros c Hcell. unfold recordCells, row in *. fold idx in Hcell. by rewrite Hcell. }
  apply wo_seq.
  { eapply wo_mono; [|apply wo_recordAspectRatio].
    intros c Hcell. unfold recordCells. rewrite Hcell. by rewrite !orb_true_r. }
  apply (wo_seq _ (writeF At PerGroupPerTime AvgRadius idx (avgRadius vortex))).
  { wo_tac. }
  apply (wo_seq _ (modifyF At PerGroup AvgRadius group (fun v => fadd v (avgRadius vortex)))).
  { wo_tac. }
  apply wo_seq; [wo_tac|].
  eapply wo_mono; [|apply wo_recordCenter].
  intros c Hcell. unfold recordCells. rewrite Hcell. by rewrite !orb_true_r.
Qed.

Lemma wo_finalizeGroup (SEED_DEPTH : Z) (L : Locals F) time group :
  writesOnly (finalizeCells (row L time group) (Z.to_nat group))
             (finalizeGroup SEED_DEPTH L time group).
Proof.
  unfold finalizeGroup, row.
  set (idx := to_size_t (numGroups L * time + group)).
  apply wo_seq; [wo_tac|]. apply wo_seq; [wo_tac|]. apply wo_seq.
  { change (averagesPerTime L idx) with (averagesOf L PerGroupPerTime idx).
    eapply wo_mono; [|apply wo_averagesOf].
    intros c Hcell. unfold finalizeCells. rewrite Hcell. by rewrite orb_true_r. }
  intros r r'. destruct (list_find _ _) as [[pos vortex]|];
    [|intros [= <-]; apply sameOutside_logWarn].
  by_wo.
  apply (wo_mono (recordCells (Z.to_nat idx) (Z.to_nat group))).
  { intros c Hcell. unfold finalizeCells. rewrite Hcell. by rewrite orb_true_r. }
  apply wo_recordGroup.
Qed.

Lemma wo_finalGroup_row (L : Locals F) group :
  writesOnly (groupPassCells (Z.to_nat group)) (finalGroup L group).
Proof.
  unfold finalGroup. apply wo_seq; [wo_tac|].
  apply wo_readI. intros lifeTime r r'.
  destruct (lifeTime =? 0); [intros [= ->]; apply sameOutside_refl|].
  by_wo. do 2 (apply wo_seq; [wo_tac|]).
  change (averagesPerGroup L group) with (averagesOf L PerGroup group).
  eapply wo_mono; [|apply wo_averagesOf].
  intros [fr k i|fr c i]; [discriminate|]. destruct fr, c; cbn; done.
Qed.

Lemma wo_finalGroup (L : Locals F) group :
  writesOnly lastPassCells (finalGroup L group).
Proof.
  eapply wo_mono; [|apply wo_finalGroup_row].
  intros [[] [] i|[] [] i]; done.
Qed.

Lemma wo_finalLoop (L : Locals F) : writesOnly lastPassCells (finalLoop L).
Proof. unfold finalLoop. apply wo_forEach. intros group. apply wo_finalGroup. Qed.

(** ** The columns as [createColumns] makes them *)

Lemma intColumn_createColumnF (L : Locals F) fr c n (v : F) r fr' k' :
  intColumn fr' k' (createColumnF fr c n v r) = intColumn fr' k' r.
Proof. apply intColumn_setFloatColumn. Qed.

Lemma intColumn_makeF (L : Locals F) c (v : F) r fr' k' :
  intColumn fr' k' (makeF L c v r) = intColumn fr' k' r.
Proof. unfold makeF, createColumnF. by rewrite !intColumn_setFloatColumn. Qed.

Lemma floatColumn_makeF (L : Locals F) c (v : F) r fr' c' :
  floatColumn fr' c' (makeF L c v r) =
  if decide (c = c') then replicate (rows L fr') v else floatColumn fr' c' r.
Proof.
  unfold makeF, createColumnF. rewrite !floatColumn_setFloatColumn.
  destruct fr'; repeat case_decide; try done; intuition congruence.
Qed.

Lemma intColumn_scalarColumns (L : Locals F) r n fr' k' :
  intColumn fr' k' (foldl (fun r s => makeScalarColumns L s r) r (seq 0 n)) = intColumn fr' k' r.
Proof.
  induction n as [|n IH]; [done|].
  rewrite seq_S, foldl_app. cbn [foldl Nat.add]. unfold makeScalarColumns.
  by rewrite !intColumn_makeF.
Qed.

Lemma intColumn_surfaceColumns (L : Locals F) r n fr' k' :
  intColumn fr' k' (foldl (fun r s => makeSurfaceColumns L s r) r (seq 0 n)) = intColumn fr' k' r.
Proof.
  induction n as [|n IH]; [done|].
  rewrite seq_S, foldl_app. cbn [foldl Nat.add]. unfold makeSurfaceColumns.
  by rewrite !intColumn_makeF.
Qed.

Lemma floatColumn_scalarColumns (L : Locals F) r n fr' c' :
  floatColumn fr' c' (foldl (fun r s => makeScalarColumns L s r) r (seq 0 n)) =
  if isScalarHeader n c' then replicate (rows L fr') f0 else floatColumn fr' c' r.
Proof.
  induction n as [|n IH].
  { by destruct c'. }
  rewrite seq_S, foldl_app. cbn [foldl Nat.add].
  remember (foldl _ r (seq 0 n)) as r' eqn:Hr'. clear Hr'. unfold makeScalarColumns.
  rewrite !floatColumn_makeF, IH.
  destruct c' as [| | | | | | | | |s|s|s|s|s|s|s]; cbn [isScalarHeader];
    repeat case_decide; simplify_eq; try done.
  all: repeat match goal with
              | |- context [(?a <? ?b)%nat] => destruct (Nat.ltb_spec a b)
              end; try done; try lia.
  all: assert (s = n) as -> by lia; done.
Qed.

Lemma floatColumn_surfaceColumns (L : Locals F) r n fr' c' :
  floatColumn fr' c' (foldl (fun r s => makeSurfaceColumns L s r) r (seq 0 n)) =
  if isSurfaceHeader n c' then replicate (rows L fr') f0 else floatColumn fr' c' r.
Proof.
  induction n as [|n IH].
  { by destruct c'. }
  rewrite seq_S, foldl_app. cbn [foldl Nat.add].
  remember (foldl _ r (seq 0 n)) as r' eqn:Hr'. clear Hr'. unfold makeSurfaceColumns.
  rewrite !floatColumn_makeF, IH.
  destruct c' as [| | | | | | | | |s|s|s|s|s|s|s]; cbn [isSurfaceHeader];
    repeat case_decide; simplify_eq; try done.
  all: repeat match goal with
              | |- context [(?a <? ?b)%nat] => destruct (Nat.ltb_spec a b)
              end; try done; try lia.
  all: assert (s = n) as -> by lia; done.
Qed.

Lemma createColumns_intColumn (L : Locals F) e fr k :
  intColumn fr k (createColumns L e) =
  match fr, k with
  | _, Ensemble => replicate (rows L fr) e
  | PerGroup, Time | PerGroupPerTime, (LifeTime | StartTime | Rotation) => []
  | PerGroup, StartTime => replicate (rows L fr) (to_int (numTimeSteps L))
  | PerGroup, Rotation => <[1%nat := 1]> (<[0%nat := 0]> (replicate (rows L fr) 0))
  | _, _ => replicate (rows L fr) 0
  end.
Proof.
  unfold createColumns. rewrite intColumn_surfaceColumns, intColumn_scalarColumns.
  destruct fr, k; reflexivity.
Qed.

Lemma createColumns_floatColumn (L : Locals F) e fr c :
  floatColumn fr c (createColumns L e) =
  if isSurfaceHeader (colTopScalars L) c || isScalarHeader (colScalars L) c
     || bool_decide (c ∈ fixedFloatHeaders fr)
  then replicate (rows L fr) f0 else [].
Proof.
  unfold createColumns. rewrite floatColumn_surfaceColumns, floatColumn_scalarColumns.
  destruct fr, c; cbn [isSurfaceHeader isScalarHeader orb];
    try reflexivity;
    match goal with |- context [(?a <? ?b)%nat] => destruct (a <? b)%nat end;
    reflexivity.
Qed.

Lemma createColumns_prevCenters (L : Locals F) e :
  length (prevCenters (createColumns L e)) = Z.to_nat (numGroups L).
Proof.
  unfold createColumns.
  assert (Hs : forall n r,
    prevCenters (foldl (fun r s => makeSurfaceColumns L s r) r (seq 0 n)) = prevCenters r).
  { induction n as [|n IH]; intros r; [done|].
    rewrite seq_S, foldl_app. cbn [foldl Nat.add]. unfold makeSurfaceColumns, makeF, createColumnF.
    rewrite !prevCenters_setFloatColumn. apply IH. }
  assert (Hv : forall n r,
    prevCenters (foldl (fun r s => makeScalarColumns L s r) r (seq 0 n)) = prevCenters r).
  { induction n as [|n IH]; intros r; [done|].
    rewrite seq_S, foldl_app. cbn [foldl Nat.add]. unfold makeScalarColumns, makeF, createColumnF.
    rewrite !prevCenters_setFloatColumn. apply IH. }
  rewrite Hs, Hv. cbn. by rewrite length_replicate.
Qed.

(** ** What the loops write *)

Lemma wo_timeStep (SEED_DEPTH : Z) (L : Locals F) masks scalars time :
  writesOnly loopCells (timeStep SEED_DEPTH L masks scalars time).
Proof.
  intros r r'. unfold timeStep.
  destruct (masks !! _) as [maskVolume|]; [|discriminate].
  destruct (scalars !! _) as [scalarVol|]; [|discriminate].
  by_wo. apply wo_seq.
  - apply wo_forEach. intros idx. eapply wo_mono; [|apply wo_indexCallback].
    by intros [[] []|? []].
  - apply wo_forEach. intros group. eapply wo_mono; [|apply wo_finalizeGroup].
    by intros [[] []|[] []].
Qed.

Lemma wo_aggregate (SEED_DEPTH : Z) (L : Locals F) masks scalars :
  writesOnly loopCells (aggregate SEED_DEPTH L masks scalars).
Proof.
  unfold aggregate, timeLoop. apply wo_seq.
  - apply wo_forEach. intros time. apply wo_timeStep.
  - eapply wo_mono; [|apply wo_finalLoop]. by intros [[] []|[] []].
Qed.

(** ** Loops and invariants *)

Lemma forEach_inv {A} (P : Run F -> Prop) (xs : list A)
    (body : A -> Run F -> result (Run F)) r r' :
  (forall x r1 r2, x ∈ xs -> body x r1 = Ok r2 -> P r1 -> P r2) ->
  forEach xs body r = Ok r' -> P r -> P r'.
Proof.
  revert r. induction xs as [|a xs IH]; intros r Hbody; cbn.
  - by intros [= ->].
  - destruct (body a r) as [r1|e] eqn:Ha; cbn; [|discriminate].
    intros Hrest HP. apply (IH r1); [|done|].
    + intros x r2 r3 Hx. apply Hbody. by apply list_elem_of_further.
    + apply (Hbody a r r1); [apply list_elem_of_here|done..].
Qed.

(** A round that establishes [P], followed by rounds that keep it. *)
Lemma forEach_establishes {A} (P : Run F -> Prop) (xs : list A)
    (body : A -> Run F -> result (Run F)) x r r' :
  x ∈ xs ->
  (forall y r1 r2, y ∈ xs -> body y r1 = Ok r2 -> P r1 -> P r2) ->
  (forall r1 r2, body x r1 = Ok r2 -> P r2) ->
  forEach xs body r = Ok r' -> P r'.
Proof.
  revert r. induction xs as [|a xs IH]; intros r Hin Hkeep Hx; [by apply elem_of_nil in Hin|].
  cbn. destruct (body a r) as [r1|e] eqn:Ha; cbn; [|discriminate]. intros Hrest.
  assert (Hkeep' : forall y r2 r3, y ∈ xs -> body y r2 = Ok r3 -> P r2 -> P r3).
  { intros y r2 r3 Hy. apply Hkeep. by apply list_elem_of_further. }
  apply elem_of_cons in Hin as [->|Hin].
  - apply (forEach_inv P xs body r1 r' Hkeep' Hrest). by apply (Hx r r1).
  - by apply (IH r1).
Qed.

(** Every round of a loop that returns has returned, on a state that keeps
    what the rounds before it keep. *)
Lemma forEach_round {A} (P : Run F -> Prop) (xs : list A)
    (body : A -> Run F -> result (Run F)) x r r' :
  x ∈ xs ->
  (forall y r1 r2, y ∈ xs -> body y r1 = Ok r2 -> P r1 -> P r2) ->
  forEach xs body r = Ok r' -> P r ->
  exists r1 r2, P r1 /\ body x r1 = Ok r2.
Proof.
  revert r. induction xs as [|a xs IH]; intros r Hin Hkeep; [by apply elem_of_nil in Hin|].
  cbn. destruct (body a r) as [r1|e] eqn:Ha; cbn; [|discriminate]. intros Hrest HP.
  apply elem_of_cons in Hin as [->|Hin]; [by exists r, r1|].
  apply (IH r1); [done| |done|].
  - intros y r2 r3 Hy. apply Hkeep. by apply list_elem_of_further.
  - apply (Hkeep a r r1); [apply list_elem_of_here|done..].
Qed.

Lemma timeLoop_steps (L : Locals F) t :
  sizesFit L -> t ∈ seqZ 0 (to_int (numTimeSteps L)) <-> 0 <= t < numTimeSteps L.
Proof. intros [HN HT]. rewrite elem_of_seqZ, to_int_small by lia. lia. Qed.

(** What the voxels and the passes of the groups keep, the time loop keeps. *)
Lemma timeLoop_inv (P : Run F -> Prop) (SEED_DEPTH : Z) (L : Locals F) masks scalars r r' :
  sizesFit L ->
  (forall time mask (scalarVol : ScalarVolume F) idx r1 r2,
     0 <= time < numTimeSteps L ->
     indexCallback SEED_DEPTH L time mask scalarVol idx r1 = Ok r2 -> P r1 -> P r2) ->
  (forall t g r1 r2,
     0 <= t < numTimeSteps L -> 0 <= g < numGroups L ->
     finalizeGroup SEED_DEPTH L t g r1 = Ok r2 -> P r1 -> P r2) ->
  timeLoop SEED_DEPTH L masks scalars r = Ok r' -> P r -> P r'.
Proof.
  intros Hfit Hvoxel Hgroup. unfold timeLoop. apply forEach_inv.
  intros t r1 r2 Ht%timeLoop_steps; [|done]. unfold timeStep.
  destruct (masks !! _) as [maskVolume|]; [|discriminate].
  destruct (scalars !! _) as [scalarVol|]; [|discriminate].
  intros (r3 & Hv & Hg)%seq_stmt_Ok HP.
  apply (forEach_inv P _ _ _ _) in Hg; [done| |].
  - intros g r4 r5 Hin%finalize_groups; [|done]. by apply Hgroup.
  - apply (forEach_inv P _ _ _ _) in Hv; [done| |done].
    intros idx r4 r5 _. by apply Hvoxel.
Qed.

(** What the pass of group [g] at time step [t] establishes and every
    other statement of the time loop keeps, holds after the time loop. *)
Lemma timeLoop_establishes (P : Run F -> Prop) (SEED_DEPTH : Z) (L : Locals F)
    masks scalars t g r r' :
  sizesFit L -> 0 <= t < numTimeSteps L -> 0 <= g < numGroups L ->
  (forall time mask (scalarVol : ScalarVolume F) idx r1 r2,
     indexCallback SEED_DEPTH L time mask scalarVol idx r1 = Ok r2 -> P r1 -> P r2) ->
  (forall t' g' r1 r2,
     0 <= t' < numTimeSteps L -> 0 <= g' < numGroups L -> t' ≠ t \/ g' ≠ g ->
     finalizeGroup SEED_DEPTH L t' g' r1 = Ok r2 -> P r1 -> P r2) ->
  (forall r1 r2, finalizeGroup SEED_DEPTH L t g r1 = Ok r2 -> P r2) ->
  timeLoop SEED_DEPTH L masks scalars r = Ok r' -> P r'.
Proof.
  intros Hfit Ht Hg Hvoxel Hother Hhere. unfold timeLoop.
  assert (Hkeep : forall t' g' r1 r2,
    0 <= t' < numTimeSteps L -> 0 <= g' < numGroups L ->
    finalizeGroup SEED_DEPTH L t' g' r1 = Ok r2 -> P r1 -> P r2).
  { intros t' g' r1 r2 Ht' Hg' Hrun HP.
    destruct (decide (t' = t)) as [->|Hne]; [|by apply (Hother t' g' r1 r2); auto].
    destruct (decide (g' = g)) as [->|Hne]; [|by apply (Hother t g' r1 r2); auto].
    by apply (Hhere r1 r2). }
  assert (Hstep : forall t' r1 r2, 0 <= t' < numTimeSteps L ->
    timeStep SEED_DEPTH L masks scalars t' r1 = Ok r2 -> P r1 -> P r2).
  { intros t' r1 r2 Ht'. unfold timeStep.
    destruct (masks !! _) as [maskVolume|]; [|discriminate].
    destruct (scalars !! _) as [scalarVol|]; [|discriminate].
    intros (r3 & Hv & Hgs)%seq_stmt_Ok HP.
    apply (forEach_inv P _ _ _ _) in Hgs; [done| |].
    - intros g' r4 r5 Hin%finalize_groups; [|done]. by apply Hkeep.
    - apply (forEach_inv P _ _ _ _) in Hv; [done| |done].
      intros idx r4 r5 _. apply Hvoxel. }
  apply (forEach_establishes P _ _ t).
  - by apply timeLoop_steps.
  - intros t' r1 r2 Ht'%timeLoop_steps; [|done]. by apply Hstep.
  - intros r1 r2. unfold timeStep.
    destruct (masks !! _) as [maskVolume|]; [|discriminate].
    destruct (scalars !! _) as [scalarVol|]; [|discriminate].
    intros (r3 & _ & Hgs)%seq_stmt_Ok. revert Hgs.
    apply (forEach_establishes P _ _ g).
    + by apply finalize_groups.
    + intros g' r4 r5 Hin%finalize_groups; [|done]. by apply Hkeep.
    + apply Hhere.
Qed.

Lemma finalizeCells_perTime_int idx grp k i :
  i ≠ idx -> finalizeCells idx grp (IntCell PerGroupPerTime k i) = false.
Proof.
  intros Hne%Nat.eqb_neq.
  destruct k;
    cbv [finalizeCells recordCells labelCells averageCells parentCells aspectRatioCells
       radiusCells centerCells isCountColumn isScalarColumn andb orb];
    by rewrite ?Hne.
Qed.

Lemma finalizeCells_perTime_float idx grp c i :
  i ≠ idx -> finalizeCells idx grp (FloatCell PerGroupPerTime c i) = false.
Proof.
  intros Hne%Nat.eqb_neq.
  destruct c;
    cbv [finalizeCells recordCells labelCells averageCells parentCells aspectRatioCells
       radiusCells centerCells isCountColumn isScalarColumn andb orb];
    by rewrite ?Hne.
Qed.

Lemma row_ne (L : Locals F) t g t' g' :
  sizesFit L ->
  0 <= t < numTimeSteps L -> 0 <= g < numGroups L ->
  0 <= t' < numTimeSteps L -> 0 <= g' < numGroups L ->
  t' ≠ t \/ g' ≠ g -> row L t g ≠ row L t' g'.
Proof.
  intros Hfit Ht Hg Ht' Hg' Hne Heq.
  apply (row_inj L t g t' g') in Heq as [-> ->]; [|done..]. by destruct Hne.
Qed.

(** A row of the frame per group and time that the voxels do not write
    holds, after the time loop, what the pass of its group left in it. *)
Lemma timeLoop_perTime_int (SEED_DEPTH : Z) (L : Locals F) masks scalars t g k v r r' :
  sizesFit L -> 0 <= t < numTimeSteps L -> 0 <= g < numGroups L ->
  voxelCells (IntCell PerGroupPerTime k (row L t g)) = false ->
  (forall r1 r2, finalizeGroup SEED_DEPTH L t g r1 = Ok r2 ->
                 intAt PerGroupPerTime k (row L t g) r2 = Some v) ->
  timeLoop SEED_DEPTH L masks scalars r = Ok r' ->
  intAt PerGroupPerTime k (row L t g) r' = Some v.
Proof.
  intros Hfit Ht Hg Hk Hhere.
  apply (timeLoop_establishes (fun r => intAt PerGroupPerTime k (row L t g) r = Some v)
           SEED_DEPTH L masks scalars t g r r' Hfit Ht Hg); [| |done].
  - intros time mask scalarVol idx r1 r2 Hrun <-.
    apply (wo_intAt _ _ _ _ _ (wo_indexCallback SEED_DEPTH L time mask scalarVol idx) Hk _ _ Hrun).
  - intros t' g' r1 r2 Ht' Hg' Hne Hrun <-.
    apply (wo_intAt _ _ _ _ _ (wo_finalizeGroup SEED_DEPTH L t' g')); [|done].
    apply finalizeCells_perTime_int. by apply row_ne.
Qed.

Lemma timeLoop_perTime_float (SEED_DEPTH : Z) (L : Locals F) masks scalars t g c (v : F) r r' :
  sizesFit L -> 0 <= t < numTimeSteps L -> 0 <= g < numGroups L ->
  isScalarColumn c = false ->
  (forall r1 r2, finalizeGroup SEED_DEPTH L t g r1 = Ok r2 ->
                 floatAt PerGroupPerTime c (row L t g) r2 = Some v) ->
  timeLoop SEED_DEPTH L masks scalars r = Ok r' ->
  floatAt PerGroupPerTime c (row L t g) r' = Some v.
Proof.
  intros Hfit Ht Hg Hc Hhere.
  apply (timeLoop_establishes (fun r => floatAt PerGroupPerTime c (row L t g) r = Some v)
           SEED_DEPTH L masks scalars t g r r' Hfit Ht Hg); [| |done].
  - intros time mask scalarVol idx r1 r2 Hrun <-.
    apply (wo_floatAt _ _ _ _ _ (wo_indexCallback SEED_DEPTH L time mask scalarVol idx) Hc _ _ Hrun).
  - intros t' g' r1 r2 Ht' Hg' Hne Hrun <-.
    apply (wo_floatAt _ _ _ _ _ (wo_finalizeGroup SEED_DEPTH L t' g')); [|done].
    apply finalizeCells_perTime_float. by apply row_ne.
Qed.

(** ** What a write leaves in its cell *)

Lemma writeI_same a fr k i v r r' :
  writeI a fr k i v r = Ok r' -> intAt fr k (Z.to_nat i) r' = Some v.
Proof.
  intros (Hlt & ->)%writeI_Ok. unfold intAt.
  rewrite intColumn_setIntColumn, decide_True by done.
  by apply list_lookup_insert_eq.
Qed.

Lemma writeF_same a fr c i (v : F) r r' :
  writeF a fr c i v r = Ok r' -> floatAt fr c (Z.to_nat i) r' = Some v.
Proof.
  intros (Hlt & ->)%writeF_Ok. unfold floatAt.
  rewrite floatColumn_setFloatColumn, decide_True by done.
  by apply list_lookup_insert_eq.
Qed.

Lemma modifyI_same a fr k i (f : Z -> Z) r r' :
  modifyI a fr k i f r = Ok r' ->
  exists x, intAt fr k (Z.to_nat i) r = Some x /\ intAt fr k (Z.to_nat i) r' = Some (f x).
Proof.
  intros (x & Hx & ->)%modifyI_Ok. exists x. split; [done|]. unfold intAt in *.
  rewrite intColumn_setIntColumn, decide_True by done.
  apply list_lookup_insert_eq. by eapply lookup_lt_Some.
Qed.

(** ** The pass of a group, part by part *)

Lemma finalizeGroup_Ok (SEED_DEPTH : Z) (L : Locals F) time group r r' :
  let idx := to_size_t (numGroups L * time + group) in
  finalizeGroup SEED_DEPTH L time group r = Ok r' ->
  exists r1 r2 r3,
    writeI Subscript PerGroupPerTime Time idx time r = Ok r1 /\
    writeI At PerGroupPerTime VortexID idx group r1 = Ok r2 /\
    averagesOf L PerGroupPerTime idx r2 = Ok r3 /\
    match list_find (fun vort => heightSlice vort = SEED_DEPTH) (groupRange L group) with
    | None => r' = logWarn WarnNotOnSeedDepth r3
    | Some (pos, vortex) =>
        (addToParent L time group idx pos ;;;
         recordAspectRatio vortex group idx ;;;
         writeF At PerGroupPerTime AvgRadius idx (avgRadius vortex) ;;;
         modifyF At PerGroup AvgRadius group (fun v => fadd v (avgRadius vortex)) ;;;
         writeI Subscript PerGroup Rotation group
                (match rotation vortex with Clockwise => 0 | CounterClockwise => 1 end) ;;;
         recordCenter vortex time group idx) r3 = Ok r'
    end.
Proof.
  intros idx. unfold finalizeGroup. fold idx.
  intros (r1 & H1 & (r2 & H2 & (r3 & H3 & Hrest)%seq_stmt_Ok)%seq_stmt_Ok)%seq_stmt_Ok.
  exists r1, r2, r3. repeat split; [done..|].
  destruct (list_find _ _) as [[pos vortex]|]; [done|]. by injection Hrest as <-.
Qed.

Lemma finalizeGroup_labels (SEED_DEPTH : Z) (L : Locals F) time group r r' :
  finalizeGroup SEED_DEPTH L time group r = Ok r' ->
  intAt PerGroupPerTime Time (row L time group) r' = Some time /\
  intAt PerGroupPerTime VortexID (row L time group) r' = Some group.
Proof.
  intros (r1 & r2 & r3 & H1 & H2 & H3 & Hrest)%finalizeGroup_Ok. unfold row.
  apply writeI_same in H1. pose proof (writeI_same _ _ _ _ _ _ _ H2) as H2'.
  assert (Hne : (PerGroupPerTime, VortexID,
                  Z.to_nat (to_size_t (numGroups L * time + group)))
                 ≠ (PerGroupPerTime, Time,
                    Z.to_nat (to_size_t (numGroups L * time + group)))) by congruence.
  rewrite <- (writeI_intAt At _ _ _ group _ _ _ Hne _ _ H2) in H1.
  assert (Hkeep : forall k i, isCountColumn k = false ->
    intAt PerGroupPerTime k i r' = intAt PerGroupPerTime k i r2).
  { intros k i Hk. transitivity (intAt PerGroupPerTime k i r3).
    - destruct (list_find _ _) as [[pos vortex]|]; [|by subst r'].
      apply (wo_intAt _ _ _ _ _ (wo_recordGroup L vortex time group pos)); [|done].
      cbv [recordCells parentCells aspectRatioCells radiusCells centerCells]. by rewrite Hk.
    - by apply (wo_intAt _ _ _ _ _ (wo_averagesOf L PerGroupPerTime _) eq_refl _ _ H3). }
  rewrite !Hkeep by done. done.
Qed.

(** ** The last pass *)

Lemma finalGroup_vortexID (L : Locals F) g r r' :
  finalGroup L g r = Ok r' -> intAt PerGroup VortexID (Z.to_nat g) r' = Some (to_int g).
Proof.
  unfold finalGroup.
  set (S := fun c => match c with FloatCell _ _ _ => true | IntCell _ _ _ => false end).
  match goal with
  | |- (_ ;;; ?rest) r = Ok r' -> _ => assert (Hw : writesOnly (F:=F) S rest)
  end.
  { apply wo_readI. intros lifeTime r2 r3.
    destruct (lifeTime =? 0); [intros [= ->]; apply sameOutside_refl|].
    by_wo. do 2 (apply wo_seq; [wo_tac|]).
    change (averagesPerGroup L g) with (averagesOf L PerGroup g).
    eapply wo_mono; [|apply wo_averagesOf].
    by intros [fr k i|fr c i]. }
  intros (r1 & Hid%writeI_same & Hrest)%seq_stmt_Ok.
  rewrite <- Hid. apply (wo_intAt S _ _ _ _ Hw eq_refl r1 r' Hrest).
Qed.

Lemma finalLoop_vortexID (L : Locals F) g r r' :
  0 <= g < numGroups L ->
  finalLoop L r = Ok r' -> intAt PerGroup VortexID (Z.to_nat g) r' = Some (to_int g).
Proof.
  intros Hg. unfold finalLoop.
  apply (forEach_establishes
           (fun r => intAt PerGroup VortexID (Z.to_nat g) r = Some (to_int g)) _ _ g).
  - apply elem_of_seqZ. lia.
  - intros g' r1 r2 Hg'%elem_of_seqZ Hrun HP.
    destruct (decide (g' = g)) as [->|Hne]; [by apply (finalGroup_vortexID L g r1)|].
    rewrite <- HP. apply (wo_intAt _ _ _ _ _ (wo_finalGroup_row L g')); [|done].
    cbn. apply Nat.eqb_neq. lia.
  - apply finalGroup_vortexID.
Qed.

(** ** Whole columns *)

Lemma wo_intColumn S (st : Run F -> result (Run F)) fr k :
  writesOnly S st -> (forall i, S (IntCell fr k i) = false) -> preserves (intColumn fr k) st.
Proof.
  intros Hst Hout r r' Hrun. apply list_eq. intros i.
  apply (wo_intAt S st fr k i Hst (Hout i) r r' Hrun).
Qed.

Lemma offColumn_same fr k i : offColumn fr k (IntCell fr k i) = false.
Proof. cbn. by rewrite bool_decide_eq_true_2. Qed.

Lemma wo_offColumn (st : Run F -> result (Run F)) fr k :
  writesOnly (offColumn fr k) st -> preserves (intColumn fr k) st.
Proof. intros Hst. apply (wo_intColumn _ _ _ _ Hst). apply offColumn_same. Qed.

(** Line 486 adds a row of the column "Num Voxels" of the frame per group
    and time to a row of the same column; nothing else in the roll-up to
    the parent writes that column. *)
Lemma addToParent_perTime_numVoxels (L : Locals F) time group idx pos n r r' :
  addToParent L time group idx pos r = Ok r' ->
  intColumn PerGroupPerTime NumVoxels r = replicate n 0 ->
  intColumn PerGroupPerTime NumVoxels r' = replicate n 0.
Proof.
  unfold addToParent. destruct (_ && _); [|by intros [= ->]].
  unfold addSizesToParent.
  intros (rA & Hsizes & Hloop)%seq_stmt_Ok Hcol.
  apply seq_stmt_Ok in Hsizes as (r1 & H1 & Hsizes).
  apply seq_stmt_Ok in Hsizes as (r2 & H2 & H34).
  assert (Hcol1 : intColumn PerGroupPerTime NumVoxels r1 = replicate n 0).
  { rewrite <- Hcol. revert H1. apply wo_offColumn. wo_tac. }
  assert (Hcol2 : intColumn PerGroupPerTime NumVoxels r2 = replicate n 0).
  { unfold addI in H2. cbn in H2.
    destruct (readI At PerGroupPerTime NumVoxels idx r1) as [v|e] eqn:Hv; [|discriminate].
    cbn in H2. apply readI_Ok in Hv. apply modifyI_Ok in H2 as (x & Hx & ->).
    unfold intAt in Hv, Hx. rewrite Hcol1 in Hv, Hx.
    apply lookup_replicate in Hv as [-> _]. pose proof Hx as [-> _]%lookup_replicate.
    rewrite intColumn_setIntColumn, decide_True by done.
    rewrite Hcol1. by apply list_insert_id. }
  assert (HcolA : intColumn PerGroupPerTime NumVoxels rA = replicate n 0).
  { rewrite <- Hcol2. revert H34. apply wo_offColumn. wo_tac. }
  rewrite <- HcolA. revert Hloop. apply wo_offColumn.
  unfold parentScalarLoop, parentScalarSums. wo_tac.
Qed.

Lemma finalizeGroup_perTime_numVoxels (SEED_DEPTH : Z) (L : Locals F) time group n r r' :
  finalizeGroup SEED_DEPTH L time group r = Ok r' ->
  intColumn PerGroupPerTime NumVoxels r = replicate n 0 ->
  intColumn PerGroupPerTime NumVoxels r' = replicate n 0.
Proof.
  intros (r1 & r2 & r3 & H1 & H2 & H3 & Hrest)%finalizeGroup_Ok Hcol.
  assert (Hcol3 : intColumn PerGroupPerTime NumVoxels r3 = replicate n 0).
  { rewrite <- Hcol.
    transitivity (intColumn PerGroupPerTime NumVoxels r2);
      [|transitivity (intColumn PerGroupPerTime NumVoxels r1)].
    - revert H3. apply (wo_intColumn _ _ _ _ (wo_averagesOf L PerGroupPerTime _)). done.
    - revert H2. apply wo_offColumn. wo_tac.
    - revert H1. apply wo_offColumn. wo_tac. }
  destruct (list_find _ _) as [[pos vortex]|]; [|by subst r'].
  apply seq_stmt_Ok in Hrest as (r4 & Hparent & Hrest).
  apply (addToParent_perTime_numVoxels _ _ _ _ _ n) in Hparent; [|done].
  rewrite <- Hparent. revert Hrest. apply wo_offColumn.
  apply wo_seq; [unfold recordAspectRatio; wo_tac|].
  do 3 (apply wo_seq; [wo_tac|]).
  eapply wo_mono; [|apply wo_recordCenter]. by intros [[] [] i|[] [] i].
Qed.

Lemma timeLoop_perTime_numVoxels (SEED_DEPTH : Z) (L : Locals F) masks scalars n r r' :
  sizesFit L ->
  timeLoop SEED_DEPTH L masks scalars r = Ok r' ->
  intColumn PerGroupPerTime NumVoxels r = replicate n 0 ->
  intColumn PerGroupPerTime NumVoxels r' = replicate n 0.
Proof.
  intros Hfit.
  apply (timeLoop_inv (fun r => intColumn PerGroupPerTime NumVoxels r = replicate n 0)); [done|..].
  - intros time mask scalarVol idx r1 r2 _ Hrun <-. revert Hrun.
    by apply (wo_intColumn _ _ _ _ (wo_indexCallback SEED_DEPTH L time mask scalarVol idx)).
  - intros t g r1 r2 _ _. apply finalizeGroup_perTime_numVoxels.
Qed.

(** ** The rounds of a run that returns *)

Lemma wo_indexCallback_loop (SEED_DEPTH : Z) (L : Locals F) time mask
    (scalarVol : ScalarVolume F) idx :
  writesOnly loopCells (indexCallback SEED_DEPTH L time mask scalarVol idx).
Proof. eapply wo_mono; [|apply wo_indexCallback]. by intros [[] []|? []]. Qed.

(** Every voxel of every time step of a time loop that returns has had its
    callback return, on a state that has the columns of the initial one. *)
Lemma timeLoop_voxel (SEED_DEPTH : Z) (L : Locals F) masks scalars t maskVolume idx r r' :
  sizesFit L -> 0 <= t < numTimeSteps L ->
  masks !! Z.to_nat t = Some maskVolume ->
  idx ∈ forEachVoxel (maskDimensions maskVolume) ->
  timeLoop SEED_DEPTH L masks scalars r = Ok r' ->
  exists (scalarVol : ScalarVolume F) r1 r2,
    sameOutside loopCells r r1 /\
    indexCallback SEED_DEPTH L t (maskData maskVolume) scalarVol idx r1 = Ok r2.
Proof.
  intros Hfit Ht Hmask Hidx Hloop. unfold timeLoop in Hloop.
  apply (forEach_round (sameOutside loopCells r) _ _ t) in Hloop as (r1 & r2 & Hr1 & Hstep).
  - unfold timeStep in Hstep. rewrite Hmask in Hstep.
    destruct (scalars !! _) as [scalarVol|]; [|discriminate].
    apply seq_stmt_Ok in Hstep as (r3 & Hvoxels & _).
    apply (forEach_round (sameOutside loopCells r) _ _ idx) in Hvoxels
      as (r4 & r5 & Hr4 & Hcall); [by exists scalarVol, r4, r5|done| |done].
    intros idx' r4 r5 _ Hcall Hr4. apply (sameOutside_trans _ _ r4); [done|].
    by apply (wo_indexCallback_loop _ _ _ _ _ _ _ _ Hcall).
  - by apply timeLoop_steps.
  - intros t' r1 r2 _ Hstep Hr1. apply (sameOutside_trans _ _ r1); [done|].
    by apply (wo_timeStep _ _ _ _ _ _ _ Hstep).
  - apply sameOutside_refl.
Qed.

(** Line 405: the callback of a voxel of a valid group returns only if row
    [numGroups * time + group] exists in "Num Voxels" of the frame per
    group. *)
Lemma indexCallback_row (SEED_DEPTH : Z) (L : Locals F) time mask
    (scalarVol : ScalarVolume F) idx m r r' :
  mask !! Z.to_nat (posToIndex idx (volumeDims L)) = Some m ->
  0 < to_int m < to_int (numGroups L) ->
  indexCallback SEED_DEPTH L time mask scalarVol idx r = Ok r' ->
  (Z.to_nat (to_size_t (numGroups L * time + (to_int m - 1)))
   < length (intColumn PerGroup NumVoxels r))%nat.
Proof.
  intros Hm Hvalid. unfold indexCallback. rewrite Hm.
  destruct (to_int m <=? 0) eqn:Hle; [lia|].
  destruct (to_int m >=? to_int (numGroups L)) eqn:Hge; [lia|].
  match goal with
  | |- (?s1 ;;; ?s2 ;;; ?s3 ;;; _) r = Ok r' -> _ =>
      assert (Hw : writesOnly (F:=F) (fun _ => true) (s1 ;;; s2 ;;; s3))
  end.
  { repeat apply wo_seq.
    - apply wo_readI. intros st. by apply wo_writeI.
    - apply wo_readI. intros st. by apply wo_writeI.
    - by apply wo_modifyI. }
  intros (r1 & H1 & (r2 & H2 & (r3 & H3 & (r4 & H4 & _)%seq_stmt_Ok)%seq_stmt_Ok)%seq_stmt_Ok)
           %seq_stmt_Ok.
  apply modifyI_Ok in H4 as (x & Hx%lookup_lt_Some & _).
  assert (Hlen : sameOutside (fun _ => true) r r3).
  { apply Hw. apply seq_stmt_Ok. exists r1. split; [done|].
    apply seq_stmt_Ok. by exists r2. }
  destruct Hlen as (_ & _ & Hlen & _). by rewrite <- (Hlen PerGroup NumVoxels).
Qed.

(** The last statements of the callback (lines 436-447) go through the
    columns of [colTopScalars]: the callback of a voxel of a valid group on
    the seed depth does not return when the surface volume has a
    component. *)
Lemma indexCallback_seed (SEED_DEPTH : Z) (L : Locals F) time mask
    (scalarVol : ScalarVolume F) idx m r r' :
  mask !! Z.to_nat (posToIndex idx (volumeDims L)) = Some m ->
  0 < to_int m < to_int (numGroups L) ->
  (0 < numTopScalars L)%nat ->
  indexCallback SEED_DEPTH L time mask scalarVol idx r = Ok r' ->
  dimZ idx ≠ SEED_DEPTH.
Proof.
  intros Hm Hvalid Htop. unfold indexCallback. rewrite Hm.
  destruct (to_int m <=? 0) eqn:Hle; [lia|].
  destruct (to_int m >=? to_int (numGroups L)) eqn:Hge; [lia|].
  intros Hrun Hz. rewrite Hz, Z.eqb_refl in Hrun. cbn [negb] in Hrun.
  repeat (apply seq_stmt_Ok in Hrun as (? & _ & Hrun)).
  destruct (numTopScalars L) as [|n]; [lia|]. discriminate.
Qed.

(** ** Life times *)

Lemma indexCallback_lifeTime (SEED_DEPTH : Z) (L : Locals F) time mask
    (scalarVol : ScalarVolume F) idx r r' :
  sizesFit L -> 0 <= time < numTimeSteps L ->
  indexCallback SEED_DEPTH L time mask scalarVol idx r = Ok r' ->
  lifeTimesZero (Z.to_nat (numGroups L)) r -> lifeTimesZero (Z.to_nat (numGroups L)) r'.
Proof.
  intros Hfit Ht Hrun (Hlife & Hstart & Hlen).
  pose proof (wo_indexCallback _ _ _ _ _ _ _ _ Hrun) as (_ & _ & HlenI & _).
  pose proof Hrun as Hcall. unfold indexCallback in Hrun.
  destruct (mask !! _) as [m|] eqn:Hm; [|discriminate].
  destruct (to_int m <=? 0) eqn:Hle; [by injection Hrun as <-|].
  destruct (to_int m >=? to_int (numGroups L)) eqn:Hge; [by injection Hrun as <-|].
  pose proof Hfit as [HN HT].
  assert (Hvalid : 0 < to_int m < to_int (numGroups L)) by lia.
  apply (indexCallback_row _ _ _ _ _ _ m) in Hcall; [|done..].
  rewrite (to_int_small (numGroups L)) in Hvalid by lia.
  rewrite Hlen, to_size_t_small in Hcall by (apply row_small; [done|lia..]).
  assert (0 <= numGroups L * time) by (apply Z.mul_nonneg_nonneg; lia).
  assert (time = 0) as ->.
  { destruct (decide (time = 0)) as [|Hne]; [done|exfalso].
    assert (numGroups L * 1 <= numGroups L * time) by (apply Z.mul_le_mono_nonneg_l; lia).
    lia. }
  revert Hrun.
  match goal with
  | |- (_ ;;; _ ;;; ?tail) r = Ok r' -> _ =>
      assert (Hw : writesOnly (F:=F)
                     (fun c => voxelCells c && offColumn PerGroup LifeTime c
                               && offColumn PerGroup StartTime c) tail)
  end.
  { unfold scalarLoop, surfaceLoop. wo_tac. }
  intros (r1 & H1 & (r2 & H2 & Htail)%seq_stmt_Ok)%seq_stmt_Ok.
  cbn in H1. destruct (readI _ _ _ _ r) as [st0|e] eqn:Hst0; [|discriminate].
  cbn in H1. apply readI_Ok in Hst0.
  pose proof (writeI_same _ _ _ _ _ _ _ H1) as Hst1. apply writeI_Ok in H1 as (_ & Hr1).
  cbn in H2. destruct (readI _ _ _ _ r1) as [st1|e] eqn:Hread; [|discriminate].
  cbn in H2. apply readI_Ok in Hread. rewrite Hst1 in Hread. injection Hread as <-.
  apply writeI_Ok in H2 as (_ & Hr2).
  assert (Hst0' : 0 <= st0).
  { rewrite Forall_lookup in Hstart. apply (Hstart _ _ Hst0). }
  assert (Hmin : std_min st0 0 = 0).
  { unfold std_min. cbn. destruct (Z.ltb_spec 0 st0); lia. }
  rewrite Hmin in Hr1, Hr2. rewrite Z.sub_diag in Hr2.
  repeat split.
  - rewrite (wo_intColumn _ _ PerGroup LifeTime Hw (fun _ => eq_refl) _ _ Htail).
    rewrite Hr2, intColumn_setIntColumn, decide_True by done.
    rewrite Hr1, intColumn_setIntColumn, decide_False by (intros [_ [=]]).
    rewrite Hlife. apply insert_replicate.
  - rewrite (wo_intColumn _ _ PerGroup StartTime Hw (fun _ => eq_refl) _ _ Htail).
    rewrite Hr2, intColumn_setIntColumn, decide_False by (intros [_ [=]]).
    rewrite Hr1, intColumn_setIntColumn, decide_True by done.
    by apply Forall_insert.
  - by rewrite (HlenI PerGroup NumVoxels).
Qed.

Lemma wo_lifeTimesZero S (st : Run F -> result (Run F)) n r r' :
  writesOnly S st ->
  (forall i, S (IntCell PerGroup LifeTime i) = false) ->
  (forall i, S (IntCell PerGroup StartTime i) = false) ->
  st r = Ok r' -> lifeTimesZero n r -> lifeTimesZero n r'.
Proof.
  intros Hw Hlife Hstart Hrun (HL & HS & Hlen).
  pose proof (Hw _ _ Hrun) as (_ & _ & HlenI & _).
  repeat split.
  - by rewrite (wo_intColumn _ _ _ _ Hw Hlife _ _ Hrun).
  - by rewrite (wo_intColumn _ _ _ _ Hw Hstart _ _ Hrun).
  - by rewrite (HlenI PerGroup NumVoxels).
Qed.

Lemma aggregate_lifeTime (SEED_DEPTH : Z) (L : Locals F) masks scalars r r' :
  sizesFit L ->
  aggregate SEED_DEPTH L masks scalars r = Ok r' ->
  lifeTimesZero (Z.to_nat (numGroups L)) r -> lifeTimesZero (Z.to_nat (numGroups L)) r'.
Proof.
  intros Hfit (r1 & Hloop & Hlast)%seq_stmt_Ok Hr.
  apply (wo_lifeTimesZero _ _ _ _ _ (wo_finalLoop L) (fun _ => eq_refl) (fun _ => eq_refl) Hlast).
  revert Hloop Hr. apply timeLoop_inv; [done|..].
  - intros time mask scalarVol idx r2 r3 Ht. by apply indexCallback_lifeTime.
  - intros t g r2 r3 _ _.
    by apply (wo_lifeTimesZero _ _ _ _ _ (wo_finalizeGroup SEED_DEPTH L t g)).
Qed.

(** ** The record on the seed depth *)

Lemma recordCenter_Ok (vortex : Vortex F) time group idx r r' :
  recordCenter vortex time group idx r = Ok r' ->
  floatAt PerGroupPerTime CenterX (Z.to_nat idx) r' = Some (fst (center vortex)) /\
  floatAt PerGroupPerTime CenterY (Z.to_nat idx) r' = Some (snd (center vortex)).
Proof.
  unfold recordCenter.
  set (S := fun c => match c with FloatCell PerGroup _ _ => true | _ => false end).
  match goal with
  | |- (_ ;;; _ ;;; ?rest) r = Ok r' -> _ => assert (Hw : writesOnly (F:=F) S rest)
  end.
  { apply wo_readI. intros st r1 r2. destruct (negb (time =? st)).
    - destruct (prevCenters r1 !! Z.to_nat group) as [prev|]; [|discriminate].
      by_wo. wo_tac.
    - by_wo. wo_tac. }
  intros (r1 & HX & (r2 & HY & Hrest)%seq_stmt_Ok)%seq_stmt_Ok.
  rewrite !(wo_floatAt S _ PerGroupPerTime _ _ Hw eq_refl r2 r' Hrest).
  split; [|by apply writeF_same in HY].
  apply writeF_same in HX. rewrite <- HX. revert HY.
  apply writeF_floatAt. congruence.
Qed.

Lemma finalizeGroup_record (SEED_DEPTH : Z) (L : Locals F) time group pos
    (vortex : Vortex F) r r' :
  list_find (fun vort => heightSlice vort = SEED_DEPTH) (groupRange L group) = Some (pos, vortex) ->
  finalizeGroup SEED_DEPTH L time group r = Ok r' ->
  floatAt PerGroupPerTime AvgRadius (row L time group) r' = Some (avgRadius vortex) /\
  floatAt PerGroupPerTime CenterX (row L time group) r' = Some (fst (center vortex)) /\
  floatAt PerGroupPerTime CenterY (row L time group) r' = Some (snd (center vortex)) /\
  intAt PerGroup Rotation (Z.to_nat group) r' =
    Some (match rotation vortex with Clockwise => 0 | CounterClockwise => 1 end).
Proof.
  intros Hfind (r1 & r2 & r3 & _ & _ & _ & Hrest)%finalizeGroup_Ok.
  rewrite Hfind in Hrest. unfold row.
  apply seq_stmt_Ok in Hrest as (r4 & _ & Hrest).
  apply seq_stmt_Ok in Hrest as (r5 & _ & Hrest).
  apply seq_stmt_Ok in Hrest as (r6 & Hradius%writeF_same & Hrest).
  apply seq_stmt_Ok in Hrest as (r7 & Hmod & Hrest).
  apply seq_stmt_Ok in Hrest as (r8 & Hrot & Hcenter).
  pose proof (recordCenter_Ok _ _ _ _ _ _ Hcenter) as [HX HY].
  split; [|split; [done|split; [done|]]].
  - rewrite <- Hradius.
    rewrite (wo_floatAt _ _ PerGroupPerTime AvgRadius _ (wo_recordCenter _ _ _ _) eq_refl
               _ _ Hcenter).
    transitivity (floatAt PerGroupPerTime AvgRadius
                    (Z.to_nat (to_size_t (numGroups L * time + group))) r7).
    + revert Hrot.
      apply (wo_floatAt (fun c => match c with IntCell _ _ _ => true | _ => false end)); [|done].
      by apply wo_writeI.
    + revert Hmod.
      apply (wo_floatAt (fun c => match c with FloatCell PerGroup _ _ => true | _ => false end));
        [|done].
      by apply wo_modifyF.
  - rewrite (wo_intAt _ _ PerGroup Rotation _ (wo_recordCenter _ _ _ _) eq_refl _ _ Hcenter).
    by apply writeI_same in Hrot.
Qed.

Lemma finalizeCells_rotation idx grp i :
  i ≠ grp -> finalizeCells idx grp (IntCell PerGroup Rotation i) = false.
Proof.
  intros Hne%Nat.eqb_neq.
  cbv [finalizeCells recordCells labelCells averageCells parentCells aspectRatioCells
       radiusCells centerCells isCountColumn isScalarColumn andb orb].
  by rewrite Hne.
Qed.

Lemma timeLoop_rotation (SEED_DEPTH : Z) (L : Locals F) masks scalars g pos
    (vortex : Vortex F) r r' :
  sizesFit L -> 0 < numTimeSteps L -> 0 <= g < numGroups L ->
  list_find (fun vort => heightSlice vort = SEED_DEPTH) (groupRange L g) = Some (pos, vortex) ->
  timeLoop SEED_DEPTH L masks scalars r = Ok r' ->
  intAt PerGroup Rotation (Z.to_nat g) r' =
    Some (match rotation vortex with Clockwise => 0 | CounterClockwise => 1 end).
Proof.
  intros Hfit HT Hg Hfind.
  apply (timeLoop_establishes
           (fun r => intAt PerGroup Rotation (Z.to_nat g) r =
                     Some (match rotation vortex with Clockwise => 0 | CounterClockwise => 1 end))
           SEED_DEPTH L masks scalars 0 g r r' Hfit ltac:(lia) Hg).
  - intros time mask scalarVol idx r1 r2 Hrun <-.
    apply (wo_intAt _ _ PerGroup Rotation (Z.to_nat g)
             (wo_indexCallback SEED_DEPTH L time mask scalarVol idx) eq_refl _ _ Hrun).
  - intros t' g' r1 r2 Ht' Hg' _ Hrun HP.
    destruct (decide (g' = g)) as [->|Hne].
    + by apply (finalizeGroup_record _ _ _ _ _ _ _ _ Hfind Hrun).
    + rewrite <- HP. apply (wo_intAt _ _ _ _ _ (wo_finalizeGroup SEED_DEPTH L t' g')); [|done].
      apply finalizeCells_rotation. lia.
  - intros r1 r2 Hrun. by apply (finalizeGroup_record _ _ _ _ _ _ _ _ Hfind Hrun).
Qed.

(** ** The log *)

Lemma quiet_writeI a fr k i v : preserves (F:=F) warnings (writeI a fr k i v).
Proof. intros r r' (_ & ->)%writeI_Ok. apply warnings_setIntColumn. Qed.

Lemma quiet_writeF a fr c i (v : F) : preserves warnings (writeF a fr c i v).
Proof. intros r r' (_ & ->)%writeF_Ok. apply warnings_setFloatColumn. Qed.

Lemma quiet_modifyI a fr k i (f : Z -> Z) : preserves (F:=F) warnings (modifyI a fr k i f).
Proof. apply preserves_readI. intros v. apply quiet_writeI. Qed.

Lemma quiet_modifyF a fr c i (f : F -> F) : preserves warnings (modifyF a fr c i f).
Proof. apply preserves_readF. intros v. apply quiet_writeF. Qed.

Lemma quiet_addI fr k i sfr sk si : preserves (F:=F) warnings (addI fr k i sfr sk si).
Proof. apply preserves_readI. intros v. apply quiet_modifyI. Qed.

Lemma quiet_addF fr c i sfr sc si : preserves (F:=F) warnings (addF fr c i sfr sc si).
Proof. apply preserves_readF. intros v. apply quiet_modifyF. Qed.

Lemma quiet_assignF (op : F -> F -> F) fr c i sfr sc si :
  preserves warnings (assignF op fr c i sfr sc si).
Proof. apply preserves_readF. intros v. apply quiet_modifyF. Qed.

Lemma quiet_divideBy fr c i a cnt j : preserves (F:=F) warnings (divideBy fr c i a cnt j).
Proof. apply preserves_readI. intros v. apply quiet_modifyF. Qed.

Lemma quiet_colScalarsAt (L : Locals F) s : preserves warnings (colScalarsAt L s).
Proof. intros r r'. unfold colScalarsAt. case_decide; [|discriminate]. by intros [= ->]. Qed.

Lemma quiet_colTopScalarsAt (L : Locals F) s : preserves warnings (colTopScalarsAt L s).
Proof. intros r r'. unfold colTopScalarsAt. discriminate. Qed.

Lemma quiet_setPrevCenter group (ctr : F * F) : preserves warnings (setPrevCenter group ctr).
Proof. intros r r'. unfold setPrevCenter. case_decide; [|discriminate]. by intros [= <-]. Qed.

Ltac quiet_step :=
  first
    [ apply preserves_seq
    | apply preserves_skip
    | apply preserves_if
    | apply preserves_forEach; intros ?
    | apply quiet_colScalarsAt
    | apply quiet_colTopScalarsAt
    | apply quiet_setPrevCenter
    | apply quiet_writeF
    | apply quiet_writeI
    | apply quiet_modifyF
    | apply quiet_modifyI
    | apply quiet_addF
    | apply quiet_addI
    | apply quiet_assignF
    | apply quiet_divideBy ].

Ltac quiet_tac := repeat quiet_step.

Ltac by_quiet :=
  let Hc := fresh "Hc" in
  intros Hc;
  match type of Hc with
  | ?st ?r0 = Ok ?r1 =>
      match goal with
      | |- warnings r1 = warnings r0 =>
          let Hw := fresh "Hw" in
          assert (Hw : preserves (F:=F) warnings st); [|exact (Hw r0 r1 Hc)]
      end
  end.

Lemma quiet_indexCallback (SEED_DEPTH : Z) (L : Locals F) time mask
    (scalarVol : ScalarVolume F) idx :
  preserves warnings (indexCallback SEED_DEPTH L time mask scalarVol idx).
Proof.
  intros r r'. unfold indexCallback.
  destruct (mask !! _) as [m|]; [|discriminate].
  destruct (to_int m <=? 0); [by intros [= ->]|].
  destruct (to_int m >=? to_int (numGroups L)); [by intros [= ->]|].
  by_quiet.
  apply preserves_seq; [apply preserves_readI; intros st; quiet_tac|].
  apply preserves_seq; [apply preserves_readI; intros st; quiet_tac|].
  unfold scalarLoop, surfaceLoop. quiet_tac.
Qed.

Lemma quiet_averagesOf (L : Locals F) fr i : preserves warnings (averagesOf L fr i).
Proof.
  unfold averagesOf. apply preserves_seq.
  - apply preserves_readI. intros n r r'. destruct (0 <? n); [|by intros [= ->]].
    by_quiet. quiet_tac.
  - apply preserves_readI. intros n r r'. destruct (0 <? n); [|by intros [= ->]].
    by_quiet. quiet_tac.
Qed.

Lemma quiet_recordCenter (vortex : Vortex F) time group idx :
  preserves warnings (recordCenter vortex time group idx).
Proof.
  unfold recordCenter. do 2 (apply preserves_seq; [quiet_tac|]).
  apply preserves_readI. intros st r r'. destruct (negb (time =? st)).
  - destruct (prevCenters r !! Z.to_nat group) as [prev|]; [|discriminate].
    by_quiet. quiet_tac.
  - by_quiet. quiet_tac.
Qed.

(** The pass of a group logs one warning when the group has no record on
    the seed depth, and nothing otherwise. *)
Lemma finalizeGroup_warnings (SEED_DEPTH : Z) (L : Locals F) time group r r' :
  finalizeGroup SEED_DEPTH L time group r = Ok r' ->
  warnings r' =
  warnings r ++ (if offSeedDepth SEED_DEPTH L group then [WarnNotOnSeedDepth] else []).
Proof.
  intros (r1 & r2 & r3 & H1 & H2 & H3 & Hrest)%finalizeGroup_Ok.
  assert (H3' : warnings r3 = warnings r).
  { rewrite (quiet_averagesOf _ _ _ _ _ H3), (quiet_writeI _ _ _ _ _ _ _ H2).
    apply (quiet_writeI _ _ _ _ _ _ _ H1). }
  unfold offSeedDepth. destruct (list_find _ _) as [[pos vortex]|].
  - rewrite app_nil_r, <- H3'. revert Hrest. by_quiet.
    apply preserves_seq.
    { unfold addToParent, addSizesToParent, parentScalarLoop, parentScalarSums. quiet_tac. }
    apply preserves_seq; [unfold recordAspectRatio; quiet_tac|].
    do 3 (apply preserves_seq; [quiet_tac|]).
    apply quiet_recordCenter.
  - subst r'. cbn. by rewrite H3'.
Qed.

Lemma forEach_log {A} (w : A -> list LogEntry) (xs : list A)
    (body : A -> Run F -> result (Run F)) r r' :
  (forall x r1 r2, x ∈ xs -> body x r1 = Ok r2 -> warnings r2 = warnings r1 ++ w x) ->
  forEach xs body r = Ok r' ->
  warnings r' = warnings r ++ concat (map w xs).
Proof.
  revert r. induction xs as [|a xs IH]; intros r Hbody; cbn.
  - intros [= ->]. by rewrite app_nil_r.
  - destruct (body a r) as [r1|e] eqn:Ha; cbn; [|discriminate].
    intros Hrest. rewrite (IH r1); [| |done].
    + rewrite (Hbody a r r1); [|apply list_elem_of_here|done]. by rewrite <- app_assoc.
    + intros x r2 r3 Hx. apply Hbody. by apply list_elem_of_further.
Qed.

Lemma log_of_groups (f : Z -> bool) (xs : list Z) :
  concat (map (fun g => if f g then [WarnNotOnSeedDepth] else []) (reverse xs)) =
  replicate (length (List.filter f xs)) WarnNotOnSeedDepth.
Proof.
  induction xs as [|a xs IH]; [done|].
  rewrite reverse_cons, map_app, concat_app, IH. cbn.
  destruct (f a); cbn; [|by rewrite app_nil_r].
  by rewrite <- replicate_S_end.
Qed.

Lemma log_of_steps {A} (n : nat) (ts : list A) :
  concat (map (fun _ => replicate n WarnNotOnSeedDepth) ts) =
  replicate (length ts * n) WarnNotOnSeedDepth.
Proof.
  induction ts as [|t ts IH]; [done|]. cbn. by rewrite IH, replicate_add.
Qed.

Lemma timeLoop_warnings (SEED_DEPTH : Z) (L : Locals F) masks scalars r r' :
  sizesFit L ->
  timeLoop SEED_DEPTH L masks scalars r = Ok r' ->
  warnings r' =
  warnings r ++ replicate (Z.to_nat (numTimeSteps L) * length (groupsOffSeedDepth SEED_DEPTH L))
                          WarnNotOnSeedDepth.
Proof.
  intros Hfit Hloop. unfold timeLoop in Hloop.
  apply (forEach_log
           (fun _ => replicate (length (groupsOffSeedDepth SEED_DEPTH L)) WarnNotOnSeedDepth))
    in Hloop.
  - rewrite Hloop, log_of_steps, length_seqZ. destruct Hfit as [_ HT].
    by rewrite to_int_small by lia.
  - intros t r1 r2 _. unfold timeStep.
    destruct (masks !! _) as [maskVolume|]; [|discriminate].
    destruct (scalars !! _) as [scalarVol|]; [|discriminate].
    intros (r3 & Hvoxels & Hgroups)%seq_stmt_Ok.
    apply (forEach_log
             (fun g => if offSeedDepth SEED_DEPTH L g then [WarnNotOnSeedDepth] else []))
      in Hgroups; [|intros g r4 r5 _; apply finalizeGroup_warnings].
    rewrite Hgroups, log_of_groups. f_equal.
    + revert Hvoxels. apply preserves_forEach. intros idx. apply quiet_indexCallback.
    + unfold groupsOffSeedDepth. do 3 f_equal. destruct Hfit as [HN _].
      destruct (decide (numGroups L = 0)) as [->|Hne]; [done|].
      rewrite to_size_t_small, to_int_small by lia. f_equal. lia.
Qed.

Lemma quiet_finalLoop (L : Locals F) : preserves warnings (finalLoop L).
Proof.
  unfold finalLoop. apply preserves_forEach. intros group. unfold finalGroup.
  apply preserves_seq; [quiet_tac|].
  apply preserves_readI. intros lifeTime r r'.
  destruct (lifeTime =? 0); [by intros [= ->]|].
  by_quiet. do 2 (apply preserves_seq; [quiet_tac|]).
  change (averagesPerGroup L group) with (averagesOf L PerGroup group).
  apply quiet_averagesOf.
Qed.

Lemma createColumns_warnings (L : Locals F) e : warnings (createColumns L e) = [].
Proof.
  unfold createColumns.
  assert (Hs : forall n r,
    warnings (foldl (fun r s => makeSurfaceColumns L s r) r (seq 0 n)) = warnings r).
  { induction n as [|n IH]; intros r; [done|].
    rewrite seq_S, foldl_app. cbn [foldl Nat.add]. unfold makeSurfaceColumns, makeF, createColumnF.
    rewrite !warnings_setFloatColumn. apply IH. }
  assert (Hv : forall n r,
    warnings (foldl (fun r s => makeScalarColumns L s r) r (seq 0 n)) = warnings r).
  { induction n as [|n IH]; intros r; [done|].
    rewrite seq_S, foldl_app. cbn [foldl Nat.add]. unfold makeScalarColumns, makeF, createColumnF.
    rewrite !warnings_setFloatColumn. apply IH. }
  by rewrite Hs, Hv.
Qed.

(** ** The roll-up to the parent *)

Lemma addToParent_no_parent (L : Locals F) time group idx pos r r' :
  (0 < numScalars L)%nat ->
  addToParent L time group idx pos r = Ok r' ->
  to_int (getParentGroup (vortices L) (vortexIndex L group pos)) < 0 \/
  group <= to_int (getParentGroup (vortices L) (vortexIndex L group pos)).
Proof.
  intros Hn. unfold addToParent.
  destruct (_ && _) eqn:Hcond; [|apply andb_false_iff in Hcond; lia].
  intros (r1 & _ & Hloop)%seq_stmt_Ok. exfalso.
  destruct (numScalars L) as [|n]; [lia|]. cbn in Hloop.
  destruct (parentScalarLoop _ _ _ _ _ _ r1) as [r2|e] eqn:Hround; [|discriminate].
  apply seq_stmt_Ok in Hround as (r3 & _ & Htop). discriminate.
Qed.

(** Every pass of a group of a time loop that returns has returned. *)
Lemma timeLoop_group (SEED_DEPTH : Z) (L : Locals F) masks scalars t g r r' :
  sizesFit L -> 0 <= t < numTimeSteps L -> 0 <= g < numGroups L ->
  timeLoop SEED_DEPTH L masks scalars r = Ok r' ->
  exists r1 r2, finalizeGroup SEED_DEPTH L t g r1 = Ok r2.
Proof.
  intros Hfit Ht Hg Hloop. unfold timeLoop in Hloop.
  apply (forEach_round (fun _ => True) _ _ t) in Hloop as (r1 & r2 & _ & Hstep);
    [|by apply timeLoop_steps|done..].
  unfold timeStep in Hstep.
  destruct (masks !! _) as [maskVolume|]; [|discriminate].
  destruct (scalars !! _) as [scalarVol|]; [|discriminate].
  apply seq_stmt_Ok in Hstep as (r3 & _ & Hgroups).
  apply (forEach_round (fun _ => True) _ _ g) in Hgroups as (r4 & r5 & _ & Hpass);
    [by exists r4, r5|by apply finalize_groups|done..].
Qed.

(** ** The voxel counts of the frame per group *)

Lemma to_int_add_l a b : to_int (to_int a + b) = to_int (a + b).
Proof.
  unfold to_int.
  replace ((a + 2 ^ 31) mod 2 ^ 32 - 2 ^ 31 + b + 2 ^ 31) with ((a + 2 ^ 31) mod 2 ^ 32 + b)
    by lia.
  rewrite Zplus_mod_idemp_l. do 2 f_equal. lia.
Qed.

Lemma incr_twice c : incr (incr (to_int (2 * Z.of_nat c))) = to_int (2 * Z.of_nat (c + 1)).
Proof.
  unfold incr. rewrite to_int_add_l.
  replace (to_int (2 * Z.of_nat c) + 1 + 1) with (to_int (2 * Z.of_nat c) + 2) by lia.
  rewrite to_int_add_l. f_equal. lia.
Qed.

(** Lines 404 and 405 in the first time step: both go to the row of the
    group in the frame per group. *)
Lemma indexCallback_counts (SEED_DEPTH : Z) (L : Locals F) mask
    (scalarVol : ScalarVolume F) idx g c r r' :
  sizesFit L -> 0 <= g < numGroups L - 1 ->
  indexCallback SEED_DEPTH L 0 mask scalarVol idx r = Ok r' ->
  countedTwice L g c r ->
  countedTwice L g
    (c + (if decide (to_int <$> (mask !! Z.to_nat (posToIndex idx (volumeDims L))) = Some (g + 1))
          then 1 else 0)) r'.
Proof.
  intros Hfit Hg Hrun (Hcell & Hzero & Hlen). pose proof Hfit as [HN HT].
  pose proof (wo_indexCallback _ _ _ _ _ _ _ _ Hrun) as Hsame.
  split; [|split].
  2: { rewrite <- Hzero.
       by apply (wo_intColumn _ _ PerGroupPerTime NumVoxels
                   (wo_indexCallback SEED_DEPTH L 0 mask scalarVol idx) (fun _ => eq_refl)
                   _ _ Hrun). }
  2: { destruct Hsame as (_ & _ & HlenI & _). by rewrite (HlenI PerGroup NumVoxels). }
  unfold indexCallback in Hrun.
  destruct (mask !! _) as [m|] eqn:Hm; [|discriminate]. cbn [fmap option_fmap option_map].
  destruct (to_int m <=? 0) eqn:Hle.
  { injection Hrun as <-. rewrite decide_False by (intros [= Heq]; lia).
    by rewrite Nat.add_0_r. }
  destruct (to_int m >=? to_int (numGroups L)) eqn:Hge.
  { injection Hrun as <-. rewrite (to_int_small (numGroups L)) in Hge by lia.
    rewrite decide_False by (intros [= Heq]; lia). by rewrite Nat.add_0_r. }
  rewrite (to_int_small (numGroups L)) in Hge by lia.
  revert Hrun.
  match goal with
  | |- (?s1 ;;; ?s2 ;;; _ ;;; _ ;;; ?tail) r = Ok r' -> _ =>
      assert (Hhead : writesOnly (F:=F) (offColumn PerGroup NumVoxels) (s1 ;;; s2));
      [|assert (Htail : writesOnly (F:=F) (offColumn PerGroup NumVoxels) tail)]
  end.
  { apply wo_seq; apply wo_readI; intros st; by apply wo_writeI. }
  { unfold scalarLoop, surfaceLoop. wo_tac. }
  intros (r1 & H1 & (r2 & H2 & (r3 & H3 & (r4 & H4 & H5)%seq_stmt_Ok)%seq_stmt_Ok)%seq_stmt_Ok)
           %seq_stmt_Ok.
  rewrite (wo_intAt _ _ PerGroup NumVoxels (Z.to_nat g) Htail (offColumn_same _ _ _) _ _ H5).
  assert (Hcell2 : intAt PerGroup NumVoxels (Z.to_nat g) r2 = Some (to_int (2 * Z.of_nat c))).
  { rewrite <- Hcell.
    apply (wo_intAt _ _ PerGroup NumVoxels (Z.to_nat g) Hhead (offColumn_same _ _ _)).
    apply seq_stmt_Ok. by exists r1. }
  replace (numGroups L * 0 + (to_int m - 1)) with (to_int m - 1) in H4 by lia.
  rewrite to_size_t_small in H4 by lia.
  destruct (decide (to_int m - 1 = g)) as [Heq|Hne].
  - rewrite Heq in H3, H4. rewrite decide_True by (f_equal; lia).
    apply modifyI_same in H3 as (x & Hx & Hx3). apply modifyI_same in H4 as (y & Hy & Hy4).
    rewrite Hcell2 in Hx. injection Hx as <-. rewrite Hx3 in Hy. injection Hy as <-.
    by rewrite Hy4, incr_twice.
  - rewrite decide_False by (intros [= Heq]; lia). rewrite Nat.add_0_r, <- Hcell2.
    assert (Hrow : (PerGroup, NumVoxels, Z.to_nat (to_int m - 1))
                   ≠ (PerGroup, NumVoxels, Z.to_nat g)) by (intros [= Heq]; lia).
    rewrite (modifyI_intAt _ _ _ _ _ _ _ _ Hrow _ _ H4).
    apply (modifyI_intAt _ _ _ _ _ _ _ _ Hrow _ _ H3).
Qed.

(** A callback that returns in a later time step has found no voxel of a
    valid group. *)
Lemma indexCallback_later (SEED_DEPTH : Z) (L : Locals F) time mask
    (scalarVol : ScalarVolume F) idx r r' :
  sizesFit L -> 1 <= time < numTimeSteps L ->
  length (intColumn PerGroup NumVoxels r) = Z.to_nat (numGroups L) ->
  indexCallback SEED_DEPTH L time mask scalarVol idx r = Ok r' -> r' = r.
Proof.
  intros Hfit Ht Hlen Hrun. pose proof Hfit as [HN HT]. pose proof Hrun as Hcall.
  unfold indexCallback in Hrun.
  destruct (mask !! _) as [m|] eqn:Hm; [|discriminate].
  destruct (to_int m <=? 0) eqn:Hle; [by injection Hrun as <-|].
  destruct (to_int m >=? to_int (numGroups L)) eqn:Hge; [by injection Hrun as <-|].
  exfalso. apply (indexCallback_row _ _ _ _ _ _ m) in Hcall; [|done|lia].
  rewrite (to_int_small (numGroups L)) in Hge by lia.
  rewrite Hlen, to_size_t_small in Hcall by (apply row_small; [done|lia..]).
  assert (numGroups L * 1 <= numGroups L * time) by (apply Z.mul_le_mono_nonneg_l; lia).
  lia.
Qed.

Lemma addToParent_counts (L : Locals F) time group idx pos g c r r' :
  addToParent L time group idx pos r = Ok r' ->
  countedTwice L g c r -> countedTwice L g c r'.
Proof.
  intros Hrun (Hcell & Hzero & Hlen).
  pose proof (addToParent_perTime_numVoxels _ _ _ _ _ _ _ _ Hrun Hzero) as Hzero'.
  unfold addToParent in Hrun. destruct (_ && _); [|by injection Hrun as <-].
  unfold addSizesToParent in Hrun.
  apply seq_stmt_Ok in Hrun as (rA & Hsizes & Hloop).
  apply seq_stmt_Ok in Hsizes as (r1 & H1 & Hsizes).
  assert (Hrest : sameOutside (offColumn PerGroup NumVoxels) r1 r').
  { apply (sameOutside_trans _ _ rA).
    - revert Hsizes. by_wo. wo_tac.
    - revert Hloop. by_wo. unfold parentScalarLoop, parentScalarSums. wo_tac. }
  split; [|split; [done|]].
  - destruct Hrest as (Hints & _). rewrite (Hints _ _ _ (offColumn_same _ _ _)).
    unfold addI in H1. cbn in H1.
    destruct (readI At PerGroupPerTime NumVoxels idx r) as [v|e] eqn:Hv; [|discriminate].
    cbn in H1. apply readI_Ok in Hv. unfold intAt in Hv. rewrite Hzero in Hv.
    apply lookup_replicate in Hv as [-> _].
    set (parent := to_int (getParentGroup (vortices L) (vortexIndex L group pos))) in *.
    destruct (decide (Z.to_nat parent = Z.to_nat g)) as [Heq|Hne].
    + apply modifyI_same in H1 as (x & Hx & Hx1). rewrite Heq in Hx, Hx1.
      rewrite Hcell in Hx. injection Hx as <-.
      by rewrite Hx1, to_int_add_l, Z.add_0_r.
    + rewrite <- Hcell. revert H1. apply modifyI_intAt. congruence.
  - destruct Hrest as (_ & _ & HlenI & _). rewrite (HlenI PerGroup NumVoxels), <- Hlen.
    revert H1. apply (wo_intLength (fun _ => true)). by apply wo_addI.
Qed.

Lemma finalizeGroup_counts (SEED_DEPTH : Z) (L : Locals F) time group g c r r' :
  finalizeGroup SEED_DEPTH L time group r = Ok r' ->
  countedTwice L g c r -> countedTwice L g c r'.
Proof.
  intros Hrun Hr.
  apply finalizeGroup_Ok in Hrun as (r1 & r2 & r3 & H1 & H2 & H3 & Hrest).
  assert (Hkeep : forall (st : Run F -> result (Run F)) ra rb,
    writesOnly (fun c => offColumn PerGroup NumVoxels c && offColumn PerGroupPerTime NumVoxels c)
               st ->
    st ra = Ok rb -> countedTwice L g c ra -> countedTwice L g c rb).
  { intros st ra rb Hw Hst (Hcell & Hzero & Hlen).
    pose proof (Hw _ _ Hst) as (Hints & _ & HlenI & _).
    split; [|split].
    - by rewrite Hints.
    - rewrite <- Hzero.
      by apply (wo_intColumn _ _ PerGroupPerTime NumVoxels Hw (fun _ => eq_refl) _ _ Hst).
    - by rewrite (HlenI PerGroup NumVoxels). }
  assert (Hr1 : countedTwice L g c r1) by (revert H1 Hr; apply Hkeep; wo_tac).
  assert (Hr2 : countedTwice L g c r2) by (revert H2 Hr1; apply Hkeep; wo_tac).
  assert (Hr3 : countedTwice L g c r3).
  { revert H3 Hr2. apply Hkeep. eapply wo_mono; [|apply wo_averagesOf].
    by intros [[] []|[] []]. }
  destruct (list_find _ _) as [[pos vortex]|].
  - apply seq_stmt_Ok in Hrest as (r4 & Hparent & Hrest).
    apply (addToParent_counts _ _ _ _ _ g c) in Hparent; [|done].
    revert Hrest Hparent. apply Hkeep.
    apply wo_seq; [unfold recordAspectRatio; wo_tac|].
    do 3 (apply wo_seq; [wo_tac|]).
    eapply wo_mono; [|apply wo_recordCenter]. by intros [[] [] i|[] [] i].
  - subst r'. destruct Hr3 as (Hcell & Hzero & Hlen). by split.
Qed.

Lemma timeStep_counts (SEED_DEPTH : Z) (L : Locals F) masks scalars maskVolume g r r' :
  sizesFit L -> 0 <= g < numGroups L - 1 ->
  masks !! 0%nat = Some maskVolume ->
  timeStep SEED_DEPTH L masks scalars 0 r = Ok r' ->
  countedTwice L g 0 r ->
  countedTwice L g (length (voxelsOfGroup L maskVolume g)) r'.
Proof.
  intros Hfit Hg Hmask. unfold timeStep. change (Z.to_nat 0) with 0%nat. rewrite Hmask.
  destruct (scalars !! _) as [scalarVol|]; [|discriminate].
  intros (r1 & Hvoxels & Hgroups)%seq_stmt_Ok Hr.
  assert (Hr1 : countedTwice L g (length (voxelsOfGroup L maskVolume g)) r1).
  { unfold voxelsOfGroup.
    set (voxels := forEachVoxel (maskDimensions maskVolume)) in *.
    set (P := fun idx =>
                to_int <$> (maskData maskVolume !! Z.to_nat (posToIndex idx (volumeDims L)))
                = Some (g + 1)).
    apply (forEach_indexed (fun i r => countedTwice L g (length (filter P (take i voxels))) r))
      in Hvoxels.
    - by rewrite take_ge in Hvoxels by lia.
    - done.
    - intros i idx r2 r3 Hidx Hr2 Hcall.
      rewrite (take_S_r _ _ _ Hidx), filter_app, length_app.
      apply (indexCallback_counts _ _ _ _ _ _ _ _ _ Hfit Hg Hcall) in Hr2.
      replace (length (filter P [idx])) with (if decide (P idx) then 1%nat else 0%nat); [done|].
      destruct (decide (P idx)); [by rewrite filter_cons_True|by rewrite filter_cons_False]. }
  revert Hgroups Hr1. apply forEach_inv.
  intros g' r2 r3 _. apply finalizeGroup_counts.
Qed.

Lemma aggregate_counts (SEED_DEPTH : Z) (L : Locals F) masks scalars maskVolume g r r' :
  sizesFit L -> 0 <= g < numGroups L - 1 -> 0 < numTimeSteps L ->
  masks !! 0%nat = Some maskVolume ->
  aggregate SEED_DEPTH L masks scalars r = Ok r' ->
  countedTwice L g 0 r ->
  intAt PerGroup NumVoxels (Z.to_nat g) r' =
    Some (to_int (2 * Z.of_nat (length (voxelsOfGroup L maskVolume g)))).
Proof.
  intros Hfit Hg HT Hmask (r1 & Hloop & Hlast)%seq_stmt_Ok Hr. pose proof Hfit as [HN HT'].
  rewrite (wo_intAt _ _ PerGroup NumVoxels _ (wo_finalLoop L) eq_refl _ _ Hlast).
  unfold timeLoop in Hloop. rewrite to_int_small, seqZ_cons in Hloop by lia.
  cbn [forEach] in Hloop.
  destruct (timeStep SEED_DEPTH L masks scalars 0 r) as [r0|e] eqn:Hfirst; [|discriminate].
  cbn in Hloop. apply (timeStep_counts _ _ _ _ _ g _ _ Hfit Hg Hmask Hfirst) in Hr.
  revert Hloop Hr. generalize (length (voxelsOfGroup L maskVolume g)). intros c Hloop Hr.
  assert (Hend : countedTwice L g c r1); [|by destruct Hend].
  revert Hloop Hr. apply forEach_inv.
  intros t r2 r3 Ht%elem_of_seqZ. unfold timeStep.
  destruct (masks !! Z.to_nat t) as [maskVolume'|]; [|discriminate].
  destruct (scalars !! Z.to_nat t) as [scalarVol|]; [|discriminate].
  intros (r4 & Hvoxels & Hgroups)%seq_stmt_Ok Hr2.
  assert (Hr4 : countedTwice L g c r4).
  { revert Hvoxels Hr2. apply forEach_inv.
    intros idx r5 r6 _ Hcall Hr5. pose proof Hr5 as (Hcell & Hzero & Hlen).
    assert (Hlater : 1 <= t < numTimeSteps L) by lia.
    by rewrite (indexCallback_later _ _ _ _ _ _ _ _ Hfit Hlater Hlen Hcall). }
  revert Hgroups Hr4. apply forEach_inv.
  intros g' r5 r6 _. apply finalizeGroup_counts.
Qed.

(** ** The depth of a group *)

Lemma assignMax_max (v z : Z) : 0 <= v -> 0 <= z -> assignMax v z = Z.max v z.
Proof.
  intros Hv Hz. unfold assignMax, std_max. cbn.
  destruct (Z.eqb_spec v 0) as [->|Hne].
  - rewrite Z.ltb_irrefl. lia.
  - destruct (Z.ltb_spec v z); lia.
Qed.

Lemma forEachVoxel_depth (dims idx : size3) :
  idx ∈ forEachVoxel dims -> 0 <= dimZ idx < dimZ dims.
Proof.
  unfold forEachVoxel. intros (z & Hidx & Hz%elem_of_seqZ)%list_elem_of_bind.
  apply list_elem_of_bind in Hidx as (y & Hidx & _).
  apply list_elem_of_bind in Hidx as (x & ->%list_elem_of_singleton & _). cbn. lia.
Qed.

Lemma deepest_nonneg (depths : list Z) (m : Z) : 0 <= m -> 0 <= foldl Z.max m depths.
Proof.
  revert m. induction depths as [|z depths IH]; intros m Hm; [done|]. cbn. apply IH. lia.
Qed.

(** Lines 406 and 407 in the first time step. *)
Lemma indexCallback_depth (SEED_DEPTH : Z) (L : Locals F) mask
    (scalarVol : ScalarVolume F) idx g m r r' :
  sizesFit L -> 0 <= g < numGroups L - 1 ->
  0 <= m -> 0 <= dimZ idx < 2 ^ 31 ->
  indexCallback SEED_DEPTH L 0 mask scalarVol idx r = Ok r' ->
  deepest L g m r ->
  deepest L g
    (if decide (to_int <$> (mask !! Z.to_nat (posToIndex idx (volumeDims L))) = Some (g + 1))
     then Z.max m (dimZ idx) else m) r'.
Proof.
  intros Hfit Hg Hm Hz Hrun (Hgroup & Htime & Hlen). pose proof Hfit as [HN HT].
  pose proof (wo_indexCallback _ _ _ _ _ _ _ _ Hrun) as (_ & _ & HlenI & _).
  assert (Hlen' : length (intColumn PerGroup NumVoxels r') = Z.to_nat (numGroups L))
    by (by rewrite (HlenI PerGroup NumVoxels)).
  unfold indexCallback in Hrun.
  destruct (mask !! _) as [v|] eqn:Hv; [|discriminate]. cbn [fmap option_fmap option_map].
  destruct (to_int v <=? 0) eqn:Hle.
  { injection Hrun as <-. by rewrite decide_False by (intros [= Heq]; lia). }
  destruct (to_int v >=? to_int (numGroups L)) eqn:Hge.
  { injection Hrun as <-. rewrite (to_int_small (numGroups L)) in Hge by lia.
    by rewrite decide_False by (intros [= Heq]; lia). }
  rewrite (to_int_small (numGroups L)) in Hge by lia.
  revert Hrun.
  match goal with
  | |- (?s1 ;;; ?s2 ;;; ?s3 ;;; ?s4 ;;; _ ;;; _ ;;; ?tail) r = Ok r' -> _ =>
      assert (Hhead : writesOnly (F:=F)
                        (fun c => offColumn PerGroup MaxDepth c
                                  && offColumn PerGroupPerTime MaxDepth c)
                        (s1 ;;; s2 ;;; s3 ;;; s4));
      [|assert (Htail : writesOnly (F:=F)
                          (fun c => offColumn PerGroup MaxDepth c
                                    && offColumn PerGroupPerTime MaxDepth c) tail)]
  end.
  { apply wo_seq; [apply wo_readI; intros st; by apply wo_writeI|].
    apply wo_seq; [apply wo_readI; intros st; by apply wo_writeI|]. wo_tac. }
  { unfold scalarLoop, surfaceLoop. wo_tac. }
  intros (r1 & H1 & (r2 & H2 & (r3 & H3 & (r4 & H4 & (r5 & H5 & (r6 & H6 & H7)%seq_stmt_Ok)
            %seq_stmt_Ok)%seq_stmt_Ok)%seq_stmt_Ok)%seq_stmt_Ok)%seq_stmt_Ok.
  assert (H14 : sameOutside (fun c => offColumn PerGroup MaxDepth c
                                      && offColumn PerGroupPerTime MaxDepth c) r r4).
  { apply Hhead. apply seq_stmt_Ok. exists r1. split; [done|].
    apply seq_stmt_Ok. exists r2. split; [done|]. apply seq_stmt_Ok. by exists r3. }
  destruct H14 as (Hints14 & _).
  destruct (Htail _ _ H7) as (Hints7 & _).
  rewrite <- (Hints14 PerGroup MaxDepth (Z.to_nat g)) in Hgroup by reflexivity.
  rewrite <- (Hints14 PerGroupPerTime MaxDepth (Z.to_nat g)) in Htime by reflexivity.
  replace (numGroups L * 0 + (to_int v - 1)) with (to_int v - 1) in H6 by lia.
  rewrite to_size_t_small in H6 by lia.
  rewrite (to_int_small (dimZ idx)) in H5, H6 by lia.
  assert (Hother : forall fr, intAt fr MaxDepth (Z.to_nat g) r' = intAt fr MaxDepth (Z.to_nat g) r6).
  { intros fr. apply Hints7. by destruct fr. }
  assert (Hpg : forall i j : nat, (PerGroupPerTime, MaxDepth, i) ≠ (PerGroup, MaxDepth, j))
    by (intros i j [=]).
  assert (Hgp : forall i j : nat, (PerGroup, MaxDepth, i) ≠ (PerGroupPerTime, MaxDepth, j))
    by (intros i j [=]).
  split; [|split; [|done]]; rewrite Hother.
  - rewrite (modifyI_intAt _ _ _ _ _ _ _ _ (Hpg _ (Z.to_nat g)) _ _ H6).
    destruct (decide (to_int v - 1 = g)) as [Heq|Hne].
    + rewrite Heq in H5. rewrite decide_True by (f_equal; lia).
      apply modifyI_same in H5 as (x & Hx & ->). rewrite Hgroup in Hx. injection Hx as <-.
      by rewrite assignMax_max by lia.
    + rewrite decide_False by (intros [= Heq]; lia). rewrite <- Hgroup.
      revert H5. apply modifyI_intAt. intros [= Heq]. lia.
  - destruct (decide (to_int v - 1 = g)) as [Heq|Hne].
    + rewrite Heq in H6. rewrite decide_True by (f_equal; lia).
      apply modifyI_same in H6 as (x & Hx & ->).
      rewrite (modifyI_intAt _ _ _ _ _ _ _ _ (Hgp _ (Z.to_nat g)) _ _ H5), Htime in Hx.
      injection Hx as <-. by rewrite assignMax_max by lia.
    + rewrite decide_False by (intros [= Heq]; lia). rewrite <- Htime.
      assert (Hrow : (PerGroupPerTime, MaxDepth, Z.to_nat (to_int v - 1))
                     ≠ (PerGroupPerTime, MaxDepth, Z.to_nat g)) by (intros [= Heq]; lia).
      rewrite (modifyI_intAt _ _ _ _ _ _ _ _ Hrow _ _ H6).
      revert H5. apply modifyI_intAt. apply Hgp.
Qed.

Lemma wo_deepest S (st : Run F -> result (Run F)) (L : Locals F) g m r r' :
  writesOnly S st ->
  (forall fr i, S (IntCell fr MaxDepth i) = false) ->
  st r = Ok r' -> deepest L g m r -> deepest L g m r'.
Proof.
  intros Hw Hout Hrun (Hgroup & Htime & Hlen).
  pose proof (Hw _ _ Hrun) as (Hints & _ & HlenI & _).
  split; [|split].
  - by rewrite Hints.
  - by rewrite Hints.
  - by rewrite (HlenI PerGroup NumVoxels).
Qed.

Lemma aggregate_depth (SEED_DEPTH : Z) (L : Locals F) masks scalars maskVolume g r r' :
  sizesFit L -> 0 <= g < numGroups L - 1 -> 0 < numTimeSteps L ->
  dimZ (maskDimensions maskVolume) <= 2 ^ 31 ->
  masks !! 0%nat = Some maskVolume ->
  aggregate SEED_DEPTH L masks scalars r = Ok r' ->
  deepest L g 0 r ->
  deepest L g (foldl Z.max 0 (dimZ <$> voxelsOfGroup L maskVolume g)) r'.
Proof.
  intros Hfit Hg HT Hdepth Hmask (r1 & Hloop & Hlast)%seq_stmt_Ok Hr.
  pose proof Hfit as [HN HT'].
  apply (wo_deepest _ _ _ _ _ _ _ (wo_finalLoop L) (fun fr _ => match fr with
                                                                 | PerGroup => eq_refl
                                                                 | PerGroupPerTime => eq_refl
                                                                 end) Hlast).
  unfold timeLoop in Hloop. rewrite to_int_small, seqZ_cons in Hloop by lia.
  cbn [forEach] in Hloop.
  destruct (timeStep SEED_DEPTH L masks scalars 0 r) as [r0|e] eqn:Hfirst; [|discriminate].
  cbn in Hloop.
  assert (Hgroups : forall t m ra rb,
    forEach (reverse (seqZ 0 (to_int (to_size_t (numGroups L - 1)) + 1)))
            (finalizeGroup SEED_DEPTH L t) ra = Ok rb ->
    deepest L g m ra -> deepest L g m rb).
  { intros t m ra rb. apply forEach_inv. intros g' r2 r3 _.
    apply (wo_deepest _ _ _ _ _ _ _ (wo_finalizeGroup SEED_DEPTH L t g')).
    intros fr i. by destruct fr. }
  assert (Hr0 : deepest L g (foldl Z.max 0 (dimZ <$> voxelsOfGroup L maskVolume g)) r0).
  { unfold timeStep in Hfirst. change (Z.to_nat 0) with 0%nat in Hfirst. rewrite Hmask in Hfirst.
    destruct (scalars !! 0%nat) as [scalarVol|]; [|discriminate].
    apply seq_stmt_Ok in Hfirst as (r2 & Hvoxels & Hpasses).
    apply (Hgroups _ _ _ _ Hpasses). unfold voxelsOfGroup.
    set (voxels := forEachVoxel (maskDimensions maskVolume)) in *.
    set (P := fun idx =>
                to_int <$> (maskData maskVolume !! Z.to_nat (posToIndex idx (volumeDims L)))
                = Some (g + 1)).
    apply (forEach_indexed
             (fun i r => deepest L g (foldl Z.max 0 (dimZ <$> filter P (take i voxels))) r))
      in Hvoxels.
    - by rewrite take_ge in Hvoxels by lia.
    - done.
    - intros i idx r3 r4 Hidx Hr3 Hcall.
      rewrite (take_S_r _ _ _ Hidx), filter_app, fmap_app, foldl_app.
      pose proof (forEachVoxel_depth _ _ (list_elem_of_lookup_2 _ _ _ Hidx)) as Hz.
      assert (Hm : 0 <= foldl Z.max 0 (dimZ <$> filter P (take i voxels)))
        by (by apply deepest_nonneg).
      assert (Hz' : 0 <= dimZ idx < 2 ^ 31) by lia.
      pose proof (indexCallback_depth _ _ _ _ _ _ _ _ _ Hfit Hg Hm Hz' Hcall Hr3) as Hnext.
      destruct (decide (P idx)) as [HP|HP].
      + rewrite filter_cons_True by done. cbn. by rewrite decide_True in Hnext by done.
      + rewrite filter_cons_False by done. cbn. by rewrite decide_False in Hnext by done. }
  revert Hloop Hr0. generalize (foldl Z.max 0 (dimZ <$> voxelsOfGroup L maskVolume g)).
  intros m. apply forEach_inv.
  intros t r2 r3 Ht%elem_of_seqZ. unfold timeStep.
  destruct (masks !! Z.to_nat t) as [maskVolume'|]; [|discriminate].
  destruct (scalars !! Z.to_nat t) as [scalarVol|]; [|discriminate].
  intros (r4 & Hvoxels & Hpasses)%seq_stmt_Ok Hr2.
  apply (Hgroups _ _ _ _ Hpasses).
  revert Hvoxels Hr2. apply forEach_inv.
  intros idx r5 r6 _ Hcall Hr5. pose proof Hr5 as (_ & _ & Hlen).
  assert (Hlater : 1 <= t < numTimeSteps L) by lia.
  by rewrite (indexCallback_later _ _ _ _ _ _ _ _ Hfit Hlater Hlen Hcall).
Qed.

End FootprintLemmas.

(** ** The frames a run returns

    [process] on a processor whose inputs are all there and agree in their
    dimensions, in a run that returns. *)
Section ReturnedFrames.

Context {F : Type} `{FloatOps F}.
Variable SEED_DEPTH : Z.
Variables p p' : Processor F.
Variables (firstMask : MaskVolume) (masks : list MaskVolume).
Variables (firstScalar : ScalarVolume F) (scalars : list (ScalarVolume F)).
Variables (top : ScalarVolume F) (vs : VortexSet F).

Let L := declareLocals p (firstMask :: masks) firstMask firstScalar top vs.

Hypothesis Hdo : doAssemble_ p = true.
Hypothesis Hin : inputs p = Some (firstMask :: masks, firstScalar :: scalars, top, vs).
Hypothesis Hdims :
  dimensionsDiffer (maskDimensions firstMask) (getDimensions firstScalar) (getDimensions top)
                   (Z.of_nat (length (firstScalar :: scalars))) = false.
Hypothesis Hrun : process SEED_DEPTH p = Ok p'.

Lemma returned_state :
  exists r1 r,
    timeLoop SEED_DEPTH L (firstMask :: masks) (firstScalar :: scalars)
             (createColumns L (ensembleMember_ p)) = Ok r1 /\
    finalLoop L r1 = Ok r /\
    (forall fr, outputFrame fr p' = Some (frame fr r)) /\
    log_ p' = log_ p ++ warnings r.
Proof.
  destruct (process_Ok _ _ _ _ _ _ _ _ _ Hdo Hin Hdims Hrun) as (r & Hagg & ->).
  apply seq_stmt_Ok in Hagg as (r1 & Hloop & Hlast).
  exists r1, r. repeat split; [done..|]. by intros [].
Qed.

Lemma returned_frames :
  exists r,
    sameOutside loopCells (createColumns L (ensembleMember_ p)) r /\
    forall fr, outputFrame fr p' = Some (frame fr r).
Proof.
  destruct (process_Ok _ _ _ _ _ _ _ _ _ Hdo Hin Hdims Hrun) as (r & Hagg & ->).
  exists r. split; [|by intros []]. by apply (wo_aggregate _ _ _ _ _ _ Hagg).
Qed.

(** X1: each of the two frames a run returns has all the columns
    [createColumns] declares for it, and each of them has one row per group
    (frame per group) or one row per group and time step (frame per group
    and time). *)
Theorem returned_columns_row_count (fr : Frame) :
  exists table,
    outputFrame fr p' = Some table /\
    (forall k, k ∈ intHeaders fr -> length (icol table k) = rows L fr) /\
    (forall c, c ∈ fixedFloatHeaders fr \/
               isScalarHeader (length (scalarNames_ p)) c = true \/
               isSurfaceHeader (length (topScalarNames_ p)) c = true ->
               length (fcol table c) = rows L fr).
Proof.
  destruct returned_frames as (r & (_ & _ & HlenI & HlenF & _) & Hout).
  exists (frame fr r). split; [apply Hout|]. split.
  - intros k Hk. change (icol (frame fr r) k) with (intColumn fr k r).
    rewrite HlenI, createColumns_intColumn.
    destruct fr, k; try (by rewrite ?length_insert, length_replicate);
      exfalso; cbn in Hk;
      repeat (apply elem_of_cons in Hk as [Hk|Hk]; [discriminate|]);
      by apply elem_of_nil in Hk.
  - intros c Hc. change (fcol (frame fr r) c) with (floatColumn fr c r).
    rewrite HlenF, createColumns_floatColumn.
    change (colTopScalars L) with (length (topScalarNames_ p)).
    change (colScalars L) with (length (scalarNames_ p)).
    destruct Hc as [Hc|[->| ->]]; rewrite ?orb_true_r; cbn [orb];
      [|by rewrite length_replicate..].
    rewrite (bool_decide_eq_true_2 _ Hc), !orb_true_r. by rewrite length_replicate.
Qed.

(** X2: the column "Ensemble" of both returned frames holds the ensemble
    member of the processor in every row. *)
Theorem returned_ensemble_column (fr : Frame) :
  exists table,
    outputFrame fr p' = Some table /\
    icol table Ensemble = replicate (rows L fr) (ensembleMember_ p).
Proof.
  destruct returned_frames as (r & (HI & _) & Hout).
  exists (frame fr r). split; [apply Hout|].
  apply list_eq. intros i.
  change (icol (frame fr r) Ensemble !! i) with (intAt fr Ensemble i r).
  rewrite (HI fr Ensemble i eq_refl). unfold intAt.
  rewrite createColumns_intColumn. by destruct fr.
Qed.

(** X3: no run that returns has written a column of the surface scalars:
    "Extreme", "Min" and "Max" of every declared surface name hold the
    initial 0 in every row of both returned frames. *)
Theorem returned_surface_columns (fr : Frame) (c : FloatName) :
  isSurfaceHeader (length (topScalarNames_ p)) c = true ->
  exists table,
    outputFrame fr p' = Some table /\
    fcol table c = replicate (rows L fr) f0.
Proof.
  intros Hc. destruct returned_frames as (r & (_ & HF & _) & Hout).
  exists (frame fr r). split; [apply Hout|].
  apply list_eq. intros i.
  change (fcol (frame fr r) c !! i) with (floatAt fr c i r).
  assert (Hout' : loopCells (FloatCell fr c i) = false) by (by destruct c).
  rewrite (HF fr c i Hout'). unfold floatAt.
  rewrite createColumns_floatColumn.
  change (colTopScalars L) with (length (topScalarNames_ p)). by rewrite Hc.
Qed.

(** X4: the rows of the returned frames carry the labels of their group and
    time step: row [numGroups * time + group] of the frame per group and
    time holds [time] in "Time" and [group] in "Vortex ID", and row
    [group] of the frame per group holds [group] in "Vortex ID". *)
Theorem returned_row_labels (time group : Z) :
  sizesFit L -> 0 <= time < numTimeSteps L -> 0 <= group < numGroups L ->
  exists perGroup perTime,
    dataOut_ p' = Some perGroup /\ perGroupDataOut_ p' = Some perTime /\
    icol perTime Time !! row L time group = Some time /\
    icol perTime VortexID !! row L time group = Some group /\
    icol perGroup VortexID !! Z.to_nat group = Some group.
Proof.
  intros Hfit Ht Hg.
  destruct returned_state as (r1 & r & Hloop & Hlast & Hout & _).
  exists (frame PerGroup r), (frame PerGroupPerTime r).
  split; [apply (Hout PerGroup)|]. split; [apply (Hout PerGroupPerTime)|].
  assert (Hkeep : forall k, intAt PerGroupPerTime k (row L time group) r =
                            intAt PerGroupPerTime k (row L time group) r1).
  { intros k. by apply (wo_intAt lastPassCells (finalLoop L) PerGroupPerTime k
                          (row L time group) (wo_finalLoop L) eq_refl). }
  repeat split.
  - change (intAt PerGroupPerTime Time (row L time group) r = Some time). rewrite Hkeep.
    refine (timeLoop_perTime_int SEED_DEPTH L _ _ time group Time time _ _ Hfit Ht Hg eq_refl
              _ Hloop).
    intros r2 r3 Hpass. by apply (finalizeGroup_labels _ _ _ _ _ _ Hpass).
  - change (intAt PerGroupPerTime VortexID (row L time group) r = Some group). rewrite Hkeep.
    refine (timeLoop_perTime_int SEED_DEPTH L _ _ time group VortexID group _ _ Hfit Ht Hg
              eq_refl _ Hloop).
    intros r2 r3 Hpass. by apply (finalizeGroup_labels _ _ _ _ _ _ Hpass).
  - change (intAt PerGroup VortexID (Z.to_nat group) r = Some group).
    rewrite (finalLoop_vortexID L group r1 r Hg Hlast).
    destruct Hfit. by rewrite to_int_small by lia.
Qed.

(** X5: the frame per group and time never counts a voxel: line 405 goes
    through the column of the frame per group, and the roll-up of line 486
    adds a row of the column to itself, so "Num Voxels" of the returned
    frame per group and time is 0 in every row. *)
Theorem returned_perTime_numVoxels_zero :
  sizesFit L ->
  exists perTime,
    perGroupDataOut_ p' = Some perTime /\
    icol perTime NumVoxels = replicate (rows L PerGroupPerTime) 0.
Proof.
  intros Hfit.
  destruct returned_state as (r1 & r & Hloop & Hlast & Hout & _).
  exists (frame PerGroupPerTime r). split; [apply (Hout PerGroupPerTime)|].
  change (intColumn PerGroupPerTime NumVoxels r = replicate (rows L PerGroupPerTime) 0).
  rewrite (wo_intColumn _ _ PerGroupPerTime NumVoxels (wo_finalLoop L) (fun _ => eq_refl)
             _ _ Hlast).
  apply (timeLoop_perTime_numVoxels _ _ _ _ _ _ _ Hfit Hloop).
  by rewrite createColumns_intColumn.
Qed.

(** X6: a run returns only if no voxel of a time step after the first
    belongs to a valid group: for such a voxel line 405 reads row
    [numGroups * time + group] of a column of [numGroups] rows, and
    [vector::at] throws. *)
Theorem returns_only_without_later_voxels (time : Z) (maskVolume : MaskVolume)
    (idx : size3) (m : Z) :
  sizesFit L -> 1 <= time < numTimeSteps L ->
  (firstMask :: masks) !! Z.to_nat time = Some maskVolume ->
  idx ∈ forEachVoxel (maskDimensions maskVolume) ->
  maskData maskVolume !! Z.to_nat (posToIndex idx (volumeDims L)) = Some m ->
  to_int m <= 0 \/ numGroups L <= to_int m.
Proof.
  intros Hfit Ht Hmask Hidx Hm.
  destruct returned_state as (r1 & r & Hloop & _).
  destruct (timeLoop_voxel _ _ _ _ time _ _ _ _ Hfit ltac:(lia) Hmask Hidx Hloop)
    as (scalarVol & r2 & r3 & (_ & _ & Hlen & _) & Hcall).
  destruct (decide (0 < to_int m < numGroups L)) as [Hvalid|]; [exfalso|lia].
  pose proof Hfit as [HN HT].
  apply (indexCallback_row _ _ _ _ _ _ m) in Hcall;
    [|done|by rewrite (to_int_small (numGroups L)) by lia].
  rewrite (Hlen PerGroup NumVoxels), createColumns_intColumn, length_replicate in Hcall.
  rewrite to_size_t_small in Hcall by (apply row_small; [done|lia..]).
  assert (numGroups L * 1 <= numGroups L * time) by (apply Z.mul_le_mono_nonneg_l; lia).
  cbn [rows] in Hcall. lia.
Qed.

(** X7: when the surface volume has at least one component, a run returns
    only if no voxel on the seed depth belongs to a valid group: the
    callback of such a voxel goes through the columns of [colTopScalars],
    which line 337 left without their handles. *)
Theorem returns_only_without_seed_voxels (time : Z) (maskVolume : MaskVolume)
    (idx : size3) (m : Z) :
  sizesFit L -> 0 <= time < numTimeSteps L ->
  (0 < getComponents top)%nat ->
  (firstMask :: masks) !! Z.to_nat time = Some maskVolume ->
  idx ∈ forEachVoxel (maskDimensions maskVolume) ->
  maskData maskVolume !! Z.to_nat (posToIndex idx (volumeDims L)) = Some m ->
  dimZ idx = SEED_DEPTH ->
  to_int m <= 0 \/ numGroups L <= to_int m.
Proof.
  intros Hfit Ht Htop Hmask Hidx Hm Hz.
  destruct returned_state as (r1 & r & Hloop & _).
  destruct (timeLoop_voxel _ _ _ _ time _ _ _ _ Hfit Ht Hmask Hidx Hloop)
    as (scalarVol & r2 & r3 & _ & Hcall).
  destruct (decide (0 < to_int m < numGroups L)) as [Hvalid|]; [exfalso|lia].
  pose proof Hfit as [HN HT].
  apply (indexCallback_seed _ _ _ _ _ _ m) in Hcall;
    [done|done|by rewrite (to_int_small (numGroups L)) by lia|done].
Qed.

(** X8: no group of a run that returns has a life time: "Life Time" of the
    returned frame per group is 0 in every row, since the voxels of a
    valid group all lie in the first time step (so that, by line 566, the
    last pass divides nothing). *)
Theorem returned_lifeTime_zero :
  sizesFit L ->
  exists perGroup,
    dataOut_ p' = Some perGroup /\
    icol perGroup LifeTime = replicate (rows L PerGroup) 0.
Proof.
  intros Hfit.
  destruct (process_Ok _ _ _ _ _ _ _ _ _ Hdo Hin Hdims Hrun) as (r & Hagg & ->).
  exists (perEnsembleData r). split; [done|].
  apply (aggregate_lifeTime _ _ _ _ _ _ Hfit) in Hagg as (Hlife & _); [done|].
  unfold lifeTimesZero. rewrite !createColumns_intColumn, length_replicate.
  repeat split. apply Forall_replicate.
  destruct Hfit as [_ HT]. fold L. rewrite to_int_small by lia. lia.
Qed.


(** X10: a run that returns appends to the log one warning "not on seed
    depth" per time step and group without a record on the seed depth, and
    nothing else. *)
Theorem returned_log :
  sizesFit L ->
  log_ p' =
  log_ p ++ replicate (Z.to_nat (numTimeSteps L) * length (groupsOffSeedDepth SEED_DEPTH L))
                      WarnNotOnSeedDepth.
Proof.
  intros Hfit.
  destruct returned_state as (r1 & r & Hloop & Hlast & _ & ->). f_equal.
  rewrite (quiet_finalLoop _ _ _ Hlast), (timeLoop_warnings _ _ _ _ _ _ Hfit Hloop).
  by rewrite createColumns_warnings.
Qed.

(** X18: when the scalar volumes have at least one component, a run
    returns only if no group with a record on the seed depth has a parent
    to roll up to (a parent group from 0 up to the group itself,
    excluded): every round of the loop of lines 494-530 ends at the columns
    of [colTopScalars]. *)
Theorem returns_only_without_parents (group : Z) (pos : nat) (vortex : Vortex F) :
  sizesFit L -> 0 <= group < numGroups L ->
  (0 < getComponents firstScalar)%nat ->
  list_find (fun vort => heightSlice vort = SEED_DEPTH) (groupRange L group)
    = Some (pos, vortex) ->
  to_int (getParentGroup vs (vortexIndex L group pos)) < 0 \/
  group <= to_int (getParentGroup vs (vortexIndex L group pos)).
Proof.
  intros Hfit Hg Hn Hfind.
  destruct returned_state as (r1 & r & Hloop & _).
  assert (Ht : 0 <= 0 < numTimeSteps L) by (cbn; lia).
  destruct (timeLoop_group _ _ _ _ 0 group _ _ Hfit Ht Hg Hloop) as (r2 & r3 & Hpass).
  apply finalizeGroup_Ok in Hpass as (r4 & r5 & r6 & _ & _ & _ & Hrest).
  rewrite Hfind in Hrest. apply seq_stmt_Ok in Hrest as (r7 & Hparent & _).
  by apply (addToParent_no_parent L) in Hparent.
Qed.

(** X19: for every group that voxels can belong to, "Num Voxels" of the
    returned frame per group holds twice the number of voxels of the group
    in the first mask volume (as an [int]): lines 404 and 405 both count a
    voxel of the first time step in the row of its group, and no voxel of a
    later time step is counted at all. *)
Theorem returned_numVoxels_twice (group : Z) :
  sizesFit L -> 0 <= group < numGroups L - 1 ->
  exists perGroup,
    dataOut_ p' = Some perGroup /\
    icol perGroup NumVoxels !! Z.to_nat group =
      Some (to_int (2 * Z.of_nat (length (voxelsOfGroup L firstMask group)))).
Proof.
  intros Hfit Hg.
  destruct (process_Ok _ _ _ _ _ _ _ _ _ Hdo Hin Hdims Hrun) as (r & Hagg & ->).
  exists (perEnsembleData r). split; [done|].
  refine (aggregate_counts SEED_DEPTH L (firstMask :: masks) _ firstMask group _ r Hfit Hg _
            eq_refl Hagg _).
  - cbn. lia.
  - unfold countedTwice. rewrite !createColumns_intColumn. unfold intAt.
    rewrite createColumns_intColumn, length_replicate. repeat split.
    apply lookup_replicate. cbn [rows]. fold L. split; [done|lia].
Qed.

(** X20: for every group that voxels can belong to, "Max Depth" holds the
    largest depth of the voxels of the group in the first mask volume (0
    without voxels), in the row of the group of the returned frame per group
    and in its row of the first time step of the returned frame per group
    and time. *)
Theorem returned_maxDepth (group : Z) :
  sizesFit L -> 0 <= group < numGroups L - 1 ->
  dimZ (maskDimensions firstMask) <= 2 ^ 31 ->
  exists perGroup perTime,
    dataOut_ p' = Some perGroup /\ perGroupDataOut_ p' = Some perTime /\
    icol perGroup MaxDepth !! Z.to_nat group =
      Some (foldl Z.max 0 (dimZ <$> voxelsOfGroup L firstMask group)) /\
    icol perTime MaxDepth !! Z.to_nat group =
      Some (foldl Z.max 0 (dimZ <$> voxelsOfGroup L firstMask group)).
Proof.
  intros Hfit Hg Hdepth. pose proof Hfit as [HN HT].
  destruct (process_Ok _ _ _ _ _ _ _ _ _ Hdo Hin Hdims Hrun) as (r & Hagg & ->).
  exists (perEnsembleData r), (perVortexData r). split; [done|]. split; [done|].
  assert (HT1 : 0 < numTimeSteps L) by (cbn; lia).
  assert (Hstart : deepest L group 0 (createColumns L (ensembleMember_ p))).
  { unfold deepest, intAt. rewrite !createColumns_intColumn, length_replicate.
    repeat split; apply lookup_replicate; (split; [done|]); cbn [rows]; fold L; [lia|].
    unfold numGroupTimeSteps. fold L.
    assert (numGroups L * 1 <= numTimeSteps L * numGroups L) by nia.
    assert (numTimeSteps L * numGroups L <= 2 ^ 31 * 2 ^ 31)
      by (apply Z.mul_le_mono_nonneg; lia).
    rewrite to_size_t_small by lia. lia. }
  destruct (aggregate_depth SEED_DEPTH L (firstMask :: masks) _ firstMask group _ r Hfit Hg HT1
              Hdepth eq_refl Hagg Hstart) as (Hgroup & Htime & _).
  by split.
Qed.

End ReturnedFrames.

(** ** The returned frames of concrete runs *)

Ltac run_returns :=
  unfold returned;
  match goal with
  | |- process ?seed ?p = Ok _ =>
      let Hrun := fresh "Hrun" in
      destruct (process seed p) as [?|?] eqn:Hrun;
      [reflexivity|vm_compute in Hrun; discriminate]
  end.

Ltac in_range := vm_compute; split; discriminate || reflexivity.

Lemma returned_columns_row_count_witness :
  exists table,
    outputFrame PerGroupPerTime (returned earlyVoxelRun (process seedDepth earlyVoxelRun))
      = Some table /\
    (forall k, k ∈ intHeaders PerGroupPerTime -> length (icol table k) = 4%nat) /\
    (forall c, c ∈ fixedFloatHeaders PerGroupPerTime \/
               isScalarHeader 1 c = true \/ isSurfaceHeader 1 c = true ->
               length (fcol table c) = 4%nat).
Proof.
  refine (returned_columns_row_count seedDepth earlyVoxelRun
            (returned earlyVoxelRun (process seedDepth earlyVoxelRun))
            (maskOf 3 [0; 1]) [maskOf 3 [0; 0]]
            (constantVolume 2 6%float) [constantVolume 2 6%float] (constantVolume 2 7%float)
            flatHierarchy _ _ _ _ PerGroupPerTime).
  - reflexivity.
  - reflexivity.
  - reflexivity.
  - run_returns.
Defined.

Lemma returned_ensemble_column_witness :
  exists table,
    outputFrame PerGroup (returned oneStepRun (process seedDepth oneStepRun)) = Some table /\
    icol table Ensemble = [0; 0].
Proof.
  refine (returned_ensemble_column seedDepth oneStepRun
            (returned oneStepRun (process seedDepth oneStepRun))
            (maskOf 3 [0; 1]) [] (constantVolume 2 6%float) [] (constantVolume 1 7%float)
            flatHierarchy _ _ _ _ PerGroup).
  - reflexivity.
  - reflexivity.
  - reflexivity.
  - run_returns.
Defined.

Lemma returned_surface_columns_witness :
  exists table,
    outputFrame PerGroup (returned oneStepRun (process seedDepth oneStepRun)) = Some table /\
    fcol table (TExtreme 0) = [0; 0]%float.
Proof.
  refine (returned_surface_columns seedDepth oneStepRun
            (returned oneStepRun (process seedDepth oneStepRun))
            (maskOf 3 [0; 1]) [] (constantVolume 2 6%float) [] (constantVolume 1 7%float)
            flatHierarchy _ _ _ _ PerGroup (TExtreme 0) _).
  - reflexivity.
  - reflexivity.
  - reflexivity.
  - run_returns.
  - reflexivity.
Defined.

Lemma returned_row_labels_witness :
  exists perGroup perTime,
    dataOut_ (returned earlyVoxelRun (process seedDepth earlyVoxelRun)) = Some perGroup /\
    perGroupDataOut_ (returned earlyVoxelRun (process seedDepth earlyVoxelRun)) = Some perTime /\
    icol perTime Time !! 3%nat = Some 1 /\
    icol perTime VortexID !! 3%nat = Some 1 /\
    icol perGroup VortexID !! 1%nat = Some 1.
Proof.
  refine (returned_row_labels seedDepth earlyVoxelRun
            (returned earlyVoxelRun (process seedDepth earlyVoxelRun))
            (maskOf 3 [0; 1]) [maskOf 3 [0; 0]]
            (constantVolume 2 6%float) [constantVolume 2 6%float] (constantVolume 2 7%float)
            flatHierarchy _ _ _ _ 1 1 _ _ _).
  - reflexivity.
  - reflexivity.
  - reflexivity.
  - run_returns.
  - split; in_range.
  - in_range.
  - in_range.
Defined.

Lemma returned_perTime_numVoxels_zero_witness :
  exists perTime,
    perGroupDataOut_ (returned twoVoxelRun (process seedDepth twoVoxelRun)) = Some perTime /\
    icol perTime NumVoxels = [0; 0].
Proof.
  refine (returned_perTime_numVoxels_zero seedDepth twoVoxelRun
            (returned twoVoxelRun (process seedDepth twoVoxelRun))
            (maskOf 3 [0; 1; 1]) [] (constantVolume 3 6%float) [] (constantVolume 1 7%float)
            flatHierarchy _ _ _ _ _).
  - reflexivity.
  - reflexivity.
  - reflexivity.
  - run_returns.
  - split; in_range.
Defined.

Lemma returns_only_without_later_voxels_witness :
  to_int 0 <= 0 \/ 2 <= to_int 0.
Proof.
  refine (returns_only_without_later_voxels seedDepth earlyVoxelRun
            (returned earlyVoxelRun (process seedDepth earlyVoxelRun))
            (maskOf 3 [0; 1]) [maskOf 3 [0; 0]]
            (constantVolume 2 6%float) [constantVolume 2 6%float] (constantVolume 2 7%float)
            flatHierarchy _ _ _ _ 1 (maskOf 3 [0; 0]) (0, 0, 1) 0 _ _ _ _ _).
  - reflexivity.
  - reflexivity.
  - reflexivity.
  - run_returns.
  - split; in_range.
  - in_range.
  - reflexivity.
  - vm_compute. apply list_elem_of_further, list_elem_of_here.
  - reflexivity.
Defined.

Lemma returns_only_without_seed_voxels_witness :
  to_int 0 <= 0 \/ 2 <= to_int 0.
Proof.
  refine (returns_only_without_seed_voxels seedDepth oneStepRun
            (returned oneStepRun (process seedDepth oneStepRun))
            (maskOf 3 [0; 1]) [] (constantVolume 2 6%float) [] (constantVolume 1 7%float)
            flatHierarchy _ _ _ _ 0 (maskOf 3 [0; 1]) (0, 0, 0) 0 _ _ _ _ _ _ _).
  - reflexivity.
  - reflexivity.
  - reflexivity.
  - run_returns.
  - split; in_range.
  - in_range.
  - vm_compute. lia.
  - reflexivity.
  - vm_compute. apply list_elem_of_here.
  - reflexivity.
  - reflexivity.
Defined.

Lemma returned_lifeTime_zero_witness :
  exists perGroup,
    dataOut_ (returned earlyVoxelRun (process seedDepth earlyVoxelRun)) = Some perGroup /\
    icol perGroup LifeTime = [0; 0].
Proof.
  refine (returned_lifeTime_zero seedDepth earlyVoxelRun
            (returned earlyVoxelRun (process seedDepth earlyVoxelRun))
            (maskOf 3 [0; 1]) [maskOf 3 [0; 0]]
            (constantVolume 2 6%float) [constantVolume 2 6%float] (constantVolume 2 7%float)
            flatHierarchy _ _ _ _ _).
  - reflexivity.
  - reflexivity.
  - reflexivity.
  - run_returns.
  - split; in_range.
Defined.


Lemma returned_log_witness :
  log_ (returned sparseRun (process seedDepth sparseRun)) =
  log_ sparseRun ++ [WarnNotOnSeedDepth; WarnNotOnSeedDepth].
Proof.
  refine (returned_log seedDepth sparseRun
            (returned sparseRun (process seedDepth sparseRun))
            (maskOf 4 [0; 1]) [maskOf 4 [0; 0]]
            (constantVolume 2 6%float) [constantVolume 2 6%float] (constantVolume 2 7%float)
            sparseHierarchy _ _ _ _ _).
  - reflexivity.
  - reflexivity.
  - reflexivity.
  - run_returns.
  - split; in_range.
Defined.

Lemma returns_only_without_parents_witness :
  to_int (-1) < 0 \/ 1 <= to_int (-1).
Proof.
  refine (returns_only_without_parents seedDepth oneStepRun
            (returned oneStepRun (process seedDepth oneStepRun))
            (maskOf 3 [0; 1]) [] (constantVolume 2 6%float) [] (constantVolume 1 7%float)
            flatHierarchy _ _ _ _ 1 0%nat (vortexAt 0 (1, 1)%float) _ _ _ _).
  - reflexivity.
  - reflexivity.
  - reflexivity.
  - run_returns.
  - split; in_range.
  - in_range.
  - vm_compute. lia.
  - reflexivity.
Defined.

Lemma returned_numVoxels_twice_witness :
  exists perGroup,
    dataOut_ (returned twoVoxelRun (process seedDepth twoVoxelRun)) = Some perGroup /\
    icol perGroup NumVoxels !! 0%nat = Some 4.
Proof.
  refine (returned_numVoxels_twice seedDepth twoVoxelRun
            (returned twoVoxelRun (process seedDepth twoVoxelRun))
            (maskOf 3 [0; 1; 1]) [] (constantVolume 3 6%float) [] (constantVolume 1 7%float)
            flatHierarchy _ _ _ _ 0 _ _).
  - reflexivity.
  - reflexivity.
  - reflexivity.
  - run_returns.
  - split; in_range.
  - in_range.
Defined.

Lemma returned_maxDepth_witness :
  exists perGroup perTime,
    dataOut_ (returned twoVoxelRun (process seedDepth twoVoxelRun)) = Some perGroup /\
    perGroupDataOut_ (returned twoVoxelRun (process seedDepth twoVoxelRun)) = Some perTime /\
    icol perGroup MaxDepth !! 0%nat = Some 2 /\
    icol perTime MaxDepth !! 0%nat = Some 2.
Proof.
  refine (returned_maxDepth seedDepth twoVoxelRun
            (returned twoVoxelRun (process seedDepth twoVoxelRun))
            (maskOf 3 [0; 1; 1]) [] (constantVolume 3 6%float) [] (constantVolume 1 7%float)
            flatHierarchy _ _ _ _ 0 _ _ _).
  - reflexivity.
  - reflexivity.
  - reflexivity.
  - run_returns.
  - split; in_range.
  - in_range.
  - vm_compute. discriminate.
Defined.


(** * The lists of names *)

Section NameLists.

Implicit Types names : list StringProperty.

Lemma removeProperty_last names q :
  Z.of_nat (length names) < 2 ^ 64 ->
  removeProperty (to_size_t (Z.of_nat (length names))) (names ++ [q]) = Ok names.
Proof.
  intros Hlen. unfold removeProperty. rewrite to_size_t_small, Nat2Z.id by lia.
  rewrite decide_True by (rewrite length_app; cbn; lia).
  by rewrite delete_middle, app_nil_r.
Qed.

(** The first loop of a handler erases the names from the last one down to
    the one of index [int(numScalars)]. *)
Lemma remove_loop (k n : nat) names :
  length names = (n + k)%nat -> Z.of_nat (n + k) < 2 ^ 64 ->
  forEach (reverse (seqZ (Z.of_nat n) (Z.of_nat k)))
          (fun idx => removeProperty (to_size_t idx)) names = Ok (take n names).
Proof.
  revert names. induction k as [|k IH]; intros names Hlen Hsmall.
  - cbn. by rewrite take_ge by lia.
  - rewrite seqZ_S, reverse_snoc. cbn [forEach].
    destruct (decide (names = [])) as [->|Hne]; [cbn in Hlen; lia|].
    destruct (exists_last Hne) as (front & q & ->).
    rewrite length_app in Hlen. cbn in Hlen.
    assert (Hfront : length front = (n + k)%nat) by lia.
    rewrite <- Nat2Z.inj_add, <- Hfront, removeProperty_last by lia. cbn.
    rewrite IH by lia. f_equal. rewrite take_app_le by lia. done.
Qed.

(** The second loop appends one name per missing component. *)
Lemma add_loop lower upper (k : nat) (a : Z) names :
  forEach (seqZ a (Z.of_nat k)) (fun scalar => addProperty (newName lower upper scalar)) names =
  Ok (names ++ map (newName lower upper) (seqZ a (Z.of_nat k))).
Proof.
  revert a names. induction k as [|k IH]; intros a names.
  - cbn. by rewrite app_nil_r.
  - rewrite seqZ_cons by lia. cbn.
    replace (Z.pred (Z.of_nat (S k))) with (Z.of_nat k) by lia.
    rewrite IH. by rewrite <- app_assoc.
Qed.

Lemma resizeNames_Ok lower upper numScalars names :
  0 <= numScalars < 2 ^ 31 -> Z.of_nat (length names) < 2 ^ 31 ->
  resizeNames lower upper numScalars names =
  Ok (take (Z.to_nat numScalars) names ++
      map (newName lower upper)
          (seqZ (Z.of_nat (length names)) (numScalars - Z.of_nat (length names)))).
Proof.
  intros Hn Hlen. unfold resizeNames.
  assert (Hstart : to_int (to_size_t (Z.of_nat (length names) - 1))
                   = Z.of_nat (length names) - 1).
  { destruct (length names) as [|m]; [done|].
    rewrite to_size_t_small, to_int_small by lia. done. }
  rewrite Hstart, (to_int_small numScalars) by lia.
  apply seq_stmt_Ok.
  destruct (Z.le_gt_cases (Z.of_nat (length names)) numScalars) as [Hle|Hgt].
  - exists names. split.
    + replace (seqZ _ _) with (@nil Z); [done|].
      symmetry. apply length_zero_iff_nil. rewrite length_seqZ. lia.
    + rewrite take_ge by lia.
      rewrite <- (Z2Nat.id (numScalars - Z.of_nat (length names))) by lia.
      apply add_loop.
  - exists (take (Z.to_nat numScalars) names). split.
    + replace (Z.of_nat (length names) - 1 - numScalars + 1)
        with (Z.of_nat (length names - Z.to_nat numScalars)) by lia.
      rewrite <- (Z2Nat.id numScalars) at 1 by lia.
      apply remove_loop; lia.
    + replace (seqZ _ _) with (@nil Z); [by rewrite app_nil_r|].
      symmetry. apply length_zero_iff_nil. rewrite length_seqZ. lia.
Qed.



End NameLists.

(** ** The names and the assertion of [process] *)

Section NamesAndComponents.

Context {F : Type} `{FloatOps F}.

Lemma inputs_inv (p : Processor F) masks scalars top vs :
  inputs p = Some (masks, scalars, top, vs) ->
  scalarVolumesIn_ p = Some scalars /\ topScalarVolumesIn_ p = Some top.
Proof.
  unfold inputs. destruct (maskVolumeIn_ p) as [ms|]; [|done]. cbn.
  case_decide; [done|]. destruct (scalarVolumesIn_ p) as [ss|]; [|done]. cbn.
  case_decide; [done|]. destruct (topScalarVolumesIn_ p) as [t|]; [|done]. cbn.
  destruct (vorticesIn_ p) as [v|]; [|done]. cbn. by intros [= _ -> -> _].
Qed.

(** X12: when the two lists of names are those the handlers of the inports
    left for the data [process] reads, [process] finds as many names as
    components, for the scalars and for the surface scalars; the condition
    of the assertion of lines 351-352, which compares four times and three
    times the components with the names, then holds only when neither
    volume has a component. *)
Theorem names_match_components (p : Processor F)
    (found foundTop names namesTop : list StringProperty)
    (firstMask : MaskVolume) (masks : list MaskVolume)
    (firstScalar : ScalarVolume F) (scalars : list (ScalarVolume F))
    (top : ScalarVolume F) (vs : VortexSet F) :
  let L := declareLocals p (firstMask :: masks) firstMask firstScalar top vs in
  inputs p = Some (firstMask :: masks, firstScalar :: scalars, top, vs) ->
  Z.of_nat (length found) < 2 ^ 31 -> Z.of_nat (length foundTop) < 2 ^ 31 ->
  Z.of_nat (getComponents firstScalar) < 2 ^ 31 -> Z.of_nat (getComponents top) < 2 ^ 31 ->
  scalarVolumesIn_onChange (scalarVolumesIn_ p) found = Ok names ->
  topScalarVolumesIn_onChange (topScalarVolumesIn_ p) foundTop = Ok namesTop ->
  scalarNames_ p = map get names -> topScalarNames_ p = map get namesTop ->
  colScalars L = numScalars L /\ colTopScalars L = numTopScalars L /\
  (channelCountAssertion L = true <-> numScalars L = 0%nat /\ numTopScalars L = 0%nat).
Proof.
  intros L [Hs Ht]%inputs_inv Hfound HfoundTop Hn HnTop Hnames HnamesTop Hp HpTop.
  rewrite Hs in Hnames. rewrite Ht in HnamesTop.
  unfold scalarVolumesIn_onChange in Hnames. unfold topScalarVolumesIn_onChange in HnamesTop.
  rewrite resizeNames_Ok in Hnames, HnamesTop by lia.
  injection Hnames as <-. injection HnamesTop as <-.
  assert (Hcol : colScalars L = numScalars L).
  { cbn. rewrite Hp, length_map, length_app, length_take, length_map, length_seqZ. lia. }
  assert (HcolTop : colTopScalars L = numTopScalars L).
  { cbn. rewrite HpTop, length_map, length_app, length_take, length_map, length_seqZ. lia. }
  split; [done|]. split; [done|]. by apply channelCountAssertion_matching.
Qed.

End NamesAndComponents.

Lemma names_match_components_witness :
  colScalars oneStepLocals = numScalars oneStepLocals /\
  colTopScalars oneStepLocals = numTopScalars oneStepLocals /\
  (channelCountAssertion oneStepLocals = true <->
   numScalars oneStepLocals = 0%nat /\ numTopScalars oneStepLocals = 0%nat).
Proof.
  refine (names_match_components oneStepRun [] [] [newName "scalar" "Scalar" 0]
            [newName "Tscalar" "TScalar" 0]
            (maskOf 3 [0; 1]) [] (constantVolume 2 6%float) [] (constantVolume 1 7%float)
            flatHierarchy _ _ _ _ _ _ _ _ _).
  - reflexivity.
  - cbn. lia.
  - cbn. lia.
  - cbn. lia.
  - cbn. lia.
  - reflexivity.
  - reflexivity.
  - reflexivity.
  - reflexivity.
Defined.

(** * Picked nodes *)

Lemma togglePicked_absent i picked : i ∉ picked -> togglePicked i picked = picked ++ [i].
Proof.
  intros Hi. unfold togglePicked.
  destruct (list_find _ _) as [[pos x]|] eqn:Hfind; [|done].
  apply list_find_Some in Hfind as (Hx & -> & _). by apply list_elem_of_lookup_2 in Hx.
Qed.

Lemma togglePicked_present i picked :
  i ∈ picked ->
  exists front back, picked = front ++ (i :: back) /\ (i ∉ front) /\
                     togglePicked i picked = front ++ back.
Proof.
  intros Hi. unfold togglePicked.
  destruct (list_find _ _) as [[pos x]|] eqn:Hfind.
  - apply list_find_Some in Hfind as (Hx & -> & Hbefore).
    exists (take pos picked), (drop (S pos) picked). split; [|split].
    + by rewrite take_drop_middle.
    + intros (j & Hj)%list_elem_of_lookup_1.
      pose proof (lookup_lt_Some _ _ _ Hj) as Hlt. rewrite length_take in Hlt.
      rewrite lookup_take_lt in Hj by lia. by apply (Hbefore j i Hj); [lia|].
    + apply delete_take_drop.
  - apply list_find_None in Hfind. rewrite Forall_forall in Hfind. by destruct (Hfind i Hi).
Qed.

Lemma togglePicked_NoDup i picked : NoDup picked -> NoDup (togglePicked i picked).
Proof.
  intros Hnd. destruct (decide (i ∈ picked)) as [Hin|Hout].
  - destruct (togglePicked_present i picked Hin) as (front & back & -> & _ & ->).
    apply NoDup_app in Hnd as (Hf & Hfb & Hb%NoDup_cons_1_2).
    apply NoDup_app. split; [done|]. split; [|done].
    intros x Hx Hxb. apply (Hfb x Hx). by apply list_elem_of_further.
  - rewrite togglePicked_absent by done.
    apply NoDup_app. split; [done|]. split; [|apply NoDup_singleton].
    intros x Hx ->%list_elem_of_singleton. done.
Qed.

Lemma togglePicked_elem_of i j picked :
  NoDup picked ->
  j ∈ togglePicked i picked <-> (j = i /\ i ∉ picked) \/ (j ≠ i /\ j ∈ picked).
Proof.
  intros Hnd. destruct (decide (i ∈ picked)) as [Hin|Hout].
  - destruct (togglePicked_present i picked Hin) as (front & back & -> & Hfront & ->).
    apply NoDup_app in Hnd as (_ & Hfb & (Hib & _)%NoDup_cons).
    split.
    + intros [Hj|Hj]%elem_of_app; right; (split; [intros Heq; subst; contradiction|]).
      * apply elem_of_app. by left.
      * apply elem_of_app. right. by apply list_elem_of_further.
    + intros [[_ Hn]|[Hne Hj]]; [done|].
      apply elem_of_app in Hj as [Hj|Hj]; apply elem_of_app; [by left|].
      apply elem_of_cons in Hj as [->|Hj]; [done|by right].
  - rewrite togglePicked_absent by done. rewrite elem_of_app, list_elem_of_singleton.
    destruct (decide (j = i)) as [->|Hne]; [by intuition|].
    split; [intros [Hj| ->]; [by right|done]|]. intros [[-> _]|[_ Hj]]; [done|by left].
Qed.

(** X13: the picked nodes never hold a node twice, and a node is picked
    exactly when it has been pressed an odd number of times. *)
Theorem picked_iff_pressed_odd (presses : list Z) (i : Z) :
  NoDup (pickedAfter presses) /\
  (i ∈ pickedAfter presses <-> Nat.Odd (length (filter (fun pi => pi = i) presses))).
Proof.
  unfold pickedAfter. induction presses as [|c presses IH] using rev_ind.
  - cbn. split; [apply NoDup_nil_2|]. split; [by intros ?%elem_of_nil|].
    intros [k Hk]. lia.
  - rewrite foldl_app. cbn [foldl]. destruct IH as [Hnd IH].
    split; [by apply togglePicked_NoDup|].
    rewrite togglePicked_elem_of by done.
    rewrite filter_app, length_app.
    destruct (decide (c = i)) as [->|Hne].
    + rewrite filter_cons_True, filter_nil by done. cbn [length].
      rewrite Nat.add_1_r, Nat.Odd_succ. split.
      * intros [[_ Hn]|[Hn _]]; [|done].
        destruct (Nat.Even_or_Odd (length (filter (fun pi => pi = i) presses)))
          as [Hev|Hodd]; [done|]. by apply IH in Hodd.
      * intros Hev. left. split; [done|]. intros Hodd%IH.
        by apply (Nat.Even_Odd_False _ Hev).
    + rewrite filter_cons_False, filter_nil by done. cbn [length]. rewrite Nat.add_0_r. split.
      * intros [[-> _]|[_ Hi]]; [done|]. by apply IH.
      * intros Ho. right. split; [done|]. by apply IH.
Qed.

Lemma highlightPicked_ext {vec4} (mixPicked : vec4 -> vec4) picked picked' colors :
  (forall j, j ∈ picked <-> j ∈ picked') ->
  highlightPicked vec4 mixPicked picked colors = highlightPicked vec4 mixPicked picked' colors.
Proof.
  intros Hsame. unfold highlightPicked. apply imap_ext. intros i col _. cbn.
  by rewrite (bool_decide_ext _ _ (Hsame (Z.of_nat i))).
Qed.

(** X14: pressing a node twice leaves the colours [process] gives to the
    critical points as they were, although the node may have moved to the
    end of the vector of picked nodes. *)
Theorem pressed_twice_same_colors {vec4} (mixPicked : vec4 -> vec4) (i : Z)
    (picked : list Z) (colors : list vec4) :
  NoDup picked ->
  highlightPicked vec4 mixPicked (togglePicked i (togglePicked i picked)) colors =
  highlightPicked vec4 mixPicked picked colors.
Proof.
  intros Hnd. apply highlightPicked_ext. intros j.
  rewrite !togglePicked_elem_of by (done || by apply togglePicked_NoDup).
  destruct (decide (j = i)) as [->|Hne]; [|by intuition].
  destruct (decide (i ∈ picked)); by intuition.
Qed.

Lemma pressed_twice_same_colors_witness :
  highlightPicked bool negb (togglePicked 1 (togglePicked 1 [1; 2])) [false; false; false] =
  highlightPicked bool negb [1; 2] [false; false; false] /\
  togglePicked 1 (togglePicked 1 [1; 2]) = [2; 1].
Proof.
  split; [|reflexivity].
  apply (pressed_twice_same_colors negb 1 [1; 2] [false; false; false]).
  apply (bool_decide_unpack _). reflexivity.
Defined.

(** * The index buffer of the separatrices *)

Lemma strips_nonempty indices : strips indices ≠ [].
Proof.
  destruct indices as [|x rest]; [done|]. cbn.
  destruct (x =? primitiveRestart); [done|]. by destruct (strips rest).
Qed.

Lemma strips_snoc indices x :
  x ≠ primitiveRestart ->
  exists before strip,
    strips indices = before ++ [strip] /\ strips (indices ++ [x]) = before ++ [strip ++ [x]].
Proof.
  intros Hx. induction indices as [|y rest (before & strip & Hrest & Hsnoc)].
  - exists [], []. cbn. by rewrite (proj2 (Z.eqb_neq _ _) Hx).
  - cbn. destruct (y =? primitiveRestart).
    + exists ([] :: before), strip. by rewrite Hrest, Hsnoc.
    + rewrite Hrest, Hsnoc. destruct before as [|first before]; cbn.
      * by exists [], (y :: strip).
      * by exists ((y :: first) :: before), strip.
Qed.

Lemma strips_restart indices indices' :
  strips (indices ++ primitiveRestart :: indices') = strips indices ++ strips indices'.
Proof.
  induction indices as [|y rest IH]; [done|].
  cbn. destruct (y =? primitiveRestart); rewrite IH; [done|].
  pose proof (strips_nonempty rest). by destruct (strips rest).
Qed.

Lemma last_cons_default (y a b : Z) (l : list Z) : List.last (y :: l) a = List.last (y :: l) b.
Proof. revert y. induction l as [|x l IH]; intros y; [done|]. apply (IH x). Qed.

Lemma runs_snoc prev ids id :
  runs prev (ids ++ [id]) = (runs prev ids + (if (List.last ids prev =? id)%Z then 0 else 1))%nat.
Proof.
  revert prev. induction ids as [|x ids IH]; intros prev; cbn [runs app].
  - cbn. lia.
  - rewrite IH. destruct ids as [|y ids]; [cbn; lia|].
    rewrite (last_cons_default y x prev). change (List.last (x :: y :: ids) prev)
      with (List.last (y :: ids) prev). lia.
Qed.

Lemma subscript_Ok v i x : subscript v i = Ok x -> 0 <= i /\ v !! Z.to_nat i = Some x.
Proof.
  unfold subscript. destruct (v !! Z.to_nat i) as [y|]; [|done].
  destruct (Z.leb_spec 0 i); [|done]. by intros [= ->].
Qed.

(** X15: when the loop over the cells of the separatrices returns, on at
    least one cell, with a first separatrix other than -1 and no vertex
    index equal to the restart index, the index buffer holds one strip per
    run of cells of the same separatrix, every strip has at least two
    indices, and the buffer has one index per cell, one more per strip and
    one restart index between two strips. *)
Theorem separatrix_strips (sc : SeparatrixCells) (idPrev : Z) (indices : list Z) :
  0 < numberOfCells sc ->
  separatrixIds sc !! 0%nat ≠ Some (-1) ->
  (forall i v, cells sc !! i = Some v -> to_uint32 (v + idPrev) ≠ primitiveRestart) ->
  separatrixIndices sc idPrev = Ok indices ->
  length (strips indices) = runs (-1) (take (Z.to_nat (numberOfCells sc)) (separatrixIds sc)) /\
  Forall (fun strip => (2 <= length strip)%nat) (strips indices) /\
  (length indices + 1 = Z.to_nat (numberOfCells sc) + 2 * length (strips indices))%nat.
Proof.
  intros Hn Hfirst Hcells. unfold separatrixIndices.
  destruct (forEach _ _ _) as [[cur idx]|e] eqn:Hloop; [|done]. cbn. intros [= ->].
  set (ids := separatrixIds sc) in *.
  pose (Inv := fun (i : nat) (st : sepState) =>
    match i with
    | O => st = (-1, [])
    | S _ =>
        fst st = List.last (take i ids) (-1) /\
        length (take i ids) = i /\
        length (strips (snd st)) = runs (-1) (take i ids) /\
        Forall (fun strip => (2 <= length strip)%nat) (strips (snd st)) /\
        (length (snd st) + 1 = i + 2 * length (strips (snd st)))%nat
    end).
  apply (forEach_indexed Inv) in Hloop.
  - rewrite length_seqZ in Hloop. destruct (Z.to_nat (numberOfCells sc)) as [|n] eqn:Hcount; [lia|].
    unfold Inv in Hloop. cbn [fst snd] in Hloop.
    destruct Hloop as (_ & _ & Hruns & Hall & Hlen).
    split; [exact Hruns|]. split; [exact Hall|]. lia.
  - done.
  - intros i x [cur1 idx1] [cur2 idx2] Hx%lookup_seqZ Hinv Hbody.
    destruct Hx as [-> Hi]. unfold separatrixCell in Hbody. cbn in Hbody.
    destruct (subscript (cells sc) (3 * _ + 1)) as [from|e] eqn:Hfrom; cbn in Hbody; [|done].
    destruct (subscript (cells sc) (3 * _ + 2)) as [to|e] eqn:Hto; cbn in Hbody; [|done].
    destruct (subscript (separatrixIds sc) _) as [id|e] eqn:Hid; cbn in Hbody; [|done].
    fold ids in Hid.
    apply subscript_Ok in Hfrom as [_ Hfrom%Hcells], Hto as [_ Hto%Hcells], Hid as [_ Hid].
    rewrite Z.add_0_l, Nat2Z.id in Hid.
    assert (Htake : take (S i) ids = take i ids ++ [id]) by (by apply take_S_r).
    assert (HlenS : length (take (S i) ids) = S i).
    { rewrite length_take. apply lookup_lt_Some in Hid. lia. }
    cbn [Inv]. rewrite Htake, last_last, runs_snoc. rewrite <- Htake.
    destruct i as [|i].
    + injection Hinv as -> ->. cbn [take List.last] in *.
      destruct (Z.eqb_spec (-1) id) as [<-|Hne]; [done|].
      cbn in Hbody. injection Hbody as <- <-. cbn.
      rewrite (proj2 (Z.eqb_neq _ _) Hfrom), (proj2 (Z.eqb_neq _ _) Hto). cbn.
      repeat split; [done| |].
      * change (take 0 ids) with (@nil Z). cbn [runs List.last].
        by rewrite (proj2 (Z.eqb_neq _ _) Hne).
      * apply Forall_singleton. cbn. lia.
    + destruct Hinv as (Hcur & Hlen & Hruns & Hall & Htotal). cbn [fst snd] in *.
      rewrite <- Hcur.
      replace (0 <? 0 + Z.of_nat (S i)) with true in Hbody by (symmetry; apply Z.ltb_lt; lia).
      destruct (Z.eqb_spec cur1 id) as [->|Hne]; cbn in Hbody; injection Hbody as <- <-.
      * destruct (strips_snoc idx1 _ Hto) as (before & strip & Hold & Hnew).
        rewrite Hnew. rewrite Hold in Hruns, Hall, Htotal.
        rewrite !length_app in *. cbn [length] in *.
        split; [done|]. split; [done|]. split; [lia|]. split; [|lia].
        apply Forall_app in Hall as [Hbefore Hstrip]. rewrite Forall_singleton in Hstrip.
        apply Forall_app. split; [done|]. apply Forall_singleton. rewrite length_app. lia.
      * change (to_uint32 primitiveRestart) with primitiveRestart.
        rewrite <- !app_assoc. cbn [app]. rewrite strips_restart. cbn [strips].
        rewrite (proj2 (Z.eqb_neq _ _) Hfrom), (proj2 (Z.eqb_neq _ _) Hto).
        rewrite !length_app. cbn [length].
        split; [done|]. split; [done|]. split; [lia|]. split; [|lia].
        apply Forall_app. split; [done|]. apply Forall_singleton. cbn. lia.
Qed.

Lemma separatrix_strips_witness :
  let sc := {| numberOfCells := 3; cells := [1; 0; 1; 1; 1; 2; 1; 5; 6];
               separatrixIds := [0; 0; 1] |} in
  separatrixIndices sc 10 = Ok [10; 11; 12; primitiveRestart; 15; 16] /\
  length (strips [10; 11; 12; primitiveRestart; 15; 16]) = 2%nat /\
  Forall (fun strip => (2 <= length strip)%nat) (strips [10; 11; 12; primitiveRestart; 15; 16]) /\
  (6 + 1 = 3 + 2 * 2)%nat.
Proof.
  intros sc. split; [reflexivity|].
  refine (separatrix_strips sc 10 [10; 11; 12; primitiveRestart; 15; 16] _ _ _ _).
  - reflexivity.
  - discriminate.
  - intros i v Hv%list_elem_of_lookup_2. revert v Hv. apply Forall_forall.
    apply (bool_decide_unpack _). reflexivity.
  - reflexivity.
Defined.

(** * Tensor fields *)

Lemma basis_loop {precision} (zero : precision) (k : nat) (basis m : list (list precision)) :
  (k <= length basis)%nat -> (k <= length m)%nat ->
  foldl (fun m i => <[Z.to_nat i := extendBy precision zero (default [] (basis !! Z.to_nat i))]> m)
        m (seqZ 0 (Z.of_nat k)) =
  map (extendBy precision zero) (take k basis) ++ drop k m.
Proof.
  induction k as [|k IH]; intros Hbasis Hm; [done|].
  rewrite seqZ_S, foldl_app, IH by lia. cbn [foldl]. rewrite Z.add_0_l, Nat2Z.id.
  destruct (lookup_lt_is_Some_2 basis k ltac:(lia)) as [b Hb].
  destruct (lookup_lt_is_Some_2 m k ltac:(lia)) as [c Hc].
  rewrite Hb. cbn [default]. rewrite (take_S_r _ _ _ Hb), map_app. cbn [map].
  rewrite (drop_S _ _ _ Hc).
  assert (Hlen : length (map (extendBy precision zero) (take k basis)) = k).
  { rewrite length_map, length_take. lia. }
  rewrite insert_app_r_alt by lia. rewrite Hlen, Nat.sub_diag. cbn [insert list_insert].
  by rewrite <- app_assoc.
Qed.

(** X16: [getBasisAndOffset] returns the first [N - 1] basis vectors, each
    extended by 0, then the offset extended by 1 in column [N - 1], and
    leaves column [N] as the default constructor of the matrix made it: it
    never writes the last column and never reads the last basis vector. *)
Theorem getBasisAndOffset_columns {precision} (zero one : precision) (N : Z)
    (basis modelMatrix : list (list precision)) (offset : list precision) :
  1 <= N < 2 ^ 32 -> length basis = Z.to_nat N -> length modelMatrix = Z.to_nat (N + 1) ->
  getBasisAndOffset precision zero one N basis offset modelMatrix =
  map (extendBy precision zero) (take (Z.to_nat (N - 1)) basis)
  ++ [extendBy precision one offset] ++ drop (Z.to_nat N) modelMatrix.
Proof.
  intros HN Hbasis Hm. unfold getBasisAndOffset.
  assert (Hu : to_uint32 (N - 1) = Z.of_nat (Z.to_nat (N - 1))).
  { unfold to_uint32. rewrite Z.mod_small by lia. lia. }
  rewrite Hu, basis_loop, Nat2Z.id by lia.
  destruct (lookup_lt_is_Some_2 modelMatrix (Z.to_nat (N - 1)) ltac:(lia)) as [c Hc].
  rewrite (drop_S _ _ _ Hc).
  assert (Hlen : length (map (extendBy precision zero) (take (Z.to_nat (N - 1)) basis))
                 = Z.to_nat (N - 1)).
  { rewrite length_map, length_take. lia. }
  rewrite insert_app_r_alt by lia. rewrite Hlen, Nat.sub_diag. cbn [insert list_insert].
  cbn [app]. do 3 f_equal. lia.
Qed.

Lemma getBasisAndOffset_columns_witness :
  getBasisAndOffset Z 0 1 3 [[1; 0; 0]; [0; 2; 0]; [0; 0; 3]] [7; 8; 9]
    [[40; 41; 42; 43]; [50; 51; 52; 53]; [60; 61; 62; 63]; [70; 71; 72; 73]] =
  [[1; 0; 0; 0]; [0; 2; 0; 0]; [7; 8; 9; 1]; [70; 71; 72; 73]].
Proof.
  apply (getBasisAndOffset_columns 0 1 3 [[1; 0; 0]; [0; 2; 0]; [0; 0; 3]]
           [[40; 41; 42; 43]; [50; 51; 52; 53]; [60; 61; 62; 63]; [70; 71; 72; 73]] [7; 8; 9]).
  - lia.
  - reflexivity.
  - reflexivity.
Defined.

(** X17: every component of [getBounds], the divisor of [getSpacing], is
    at least 1; it is the dimension minus 1 from
    dimension 2 on, 1 for dimension 1 and, the subtraction being done in
    [size_t], 2^64 - 1 for dimension 0. *)
Theorem getBounds_components (dimensions : list Z) (i : nat) (d : Z) :
  dimensions !! i = Some d -> 0 <= d < 2 ^ 64 ->
  exists b,
    getBounds dimensions !! i = Some b /\ 1 <= b /\
    b = (if d =? 0 then 2 ^ 64 - 1 else if d =? 1 then 1 else d - 1).
Proof.
  intros Hd Hrange. unfold getBounds. rewrite list_lookup_fmap, Hd. cbn.
  eexists. split; [reflexivity|]. unfold to_size_t.
  destruct (Z.eqb_spec d 0) as [->|H0]; [by vm_compute|].
  rewrite Z.mod_small by lia.
  destruct (Z.eqb_spec d 1) as [->|H1]; [by vm_compute|]. lia.
Qed.

Lemma getBounds_components_witness :
  exists b,
    getBounds [0; 1; 5] !! 0%nat = Some b /\ 1 <= b /\ b = 2 ^ 64 - 1.
Proof.
  apply (getBounds_components [0; 1; 5] 0 0).
  - reflexivity.
  - lia.
Defined.
